(** * connect-nova-proxy: the FreeSWITCH relay modules, embedded and verified

    A shallow embedding of the three relay variants
    ([mod_nova_sonic.c], [mod_nova_sonic_v2.c], [mod_nova_sonic_v3.c]):
    the mu-law codec, the socket receive loops, the outbound buffers and
    the handshake, followed by the properties proved about them.

    C integers are modelled in [Z] with the conversions written out:
    [to_uint8] for an assignment to [uint8_t], [to_int16] for an assignment
    to [int16_t].  Bitwise operators are the [Z] ones, which agree with
    two's complement on negative numbers. *)

From Stdlib Require Import String Ascii.
From Stdlib Require Import ZArith List Lia Bool.
From Stdlib Require Import Strings.Byte.
Import ListNotations.

Local Open Scope Z_scope.

(* ------------------------------------------------------------------ *)
(** ** Integer conversions *)

Definition to_uint8 (z : Z) : Z := z mod 256.

Definition to_int16 (z : Z) : Z := (z + 32768) mod 65536 - 32768.

Definition to_uint32 (z : Z) : Z := z mod 4294967296.

(** [range lo n] is [lo; lo+1; ...; lo+n-1]; used to decide a property of
    every 8-bit or every 16-bit value by evaluation. *)
Fixpoint range (lo : Z) (n : nat) : list Z :=
  match n with
  | O => []
  | S k => lo :: range (lo + 1) k
  end.

(* ------------------------------------------------------------------ *)
(** ** The mu-law codec of [mod_nova_sonic_v3.c] *)

Module Codec.

(** [static const int exp_lut[8]] of [ulaw2linear]. *)
Definition exp_lut : list Z := [0; 132; 396; 924; 1980; 4092; 8316; 16764].

(** [ulaw2linear], line by line. *)
Definition ulaw2linear (u : Z) : Z :=
  let u := to_uint8 (Z.lnot u) in
  let t := Z.shiftl (Z.land u 0x0F) 3 + 0x84 in
  let t := Z.shiftl t (Z.shiftr (Z.land u 0x70) 4) in
  if Z.land u 0x80 =? 0 then to_int16 (t - 0x84) else to_int16 (0x84 - t).

(** The [for] loop of [linear2ulaw]: [expMask] is halved and [exponent]
    decremented while the masked bit is clear and [exponent > 0]. *)
Fixpoint exp_scan (fuel : nat) (sample expMask exponent : Z) : Z :=
  match fuel with
  | O => exponent
  | S f =>
      if (Z.land sample expMask =? 0) && (0 <? exponent)
      then exp_scan f sample (Z.shiftr expMask 1) (exponent - 1)
      else exponent
  end.

(** [linear2ulaw], line by line.  [sample] is an [int16_t] variable, so
    each assignment to it goes through [to_int16]. *)
Definition linear2ulaw (sample : Z) : Z :=
  let cBias := 0x84 in
  let cClip := 32635 in
  let sign := Z.land (Z.shiftr sample 8) 0x80 in
  let sample := if sign =? 0 then sample else to_int16 (- sample) in
  let sample := if sample >? cClip then to_int16 cClip else sample in
  let sample := to_int16 (sample + cBias) in
  let exponent := exp_scan 8 sample 0x4000 7 in
  let mantissa :=
    Z.land (Z.shiftr sample (if exponent =? 0 then 4 else exponent + 3)) 0x0F in
  to_uint8 (Z.lnot (Z.lor (Z.lor sign (Z.shiftl exponent 4)) mantissa)).

(** Block transforms [ulaw_to_pcm16] and [pcm16_to_ulaw]. *)
Definition ulaw_to_pcm16 (inp : list Z) : list Z := map ulaw2linear inp.
Definition pcm16_to_ulaw (inp : list Z) : list Z := map linear2ulaw inp.

(** *** Reference definitions, written from the specification's words *)

(** Expansion: invert the input, take mantissa [m] and exponent [e],
    [t = ((m<<3)+0x84) << e], result [0x84 - t] if the sign bit is set,
    [t - 0x84] otherwise. *)
Definition spec_inverse (u : Z) : Z := 255 - u.
Definition spec_mantissa (u' : Z) : Z := Z.land u' 0x0F.
Definition spec_exponent (u' : Z) : Z := Z.land (Z.shiftr u' 4) 7.
Definition spec_t (m e : Z) : Z := Z.shiftl (Z.shiftl m 3 + 0x84) e.

Definition spec_ulaw2linear (u : Z) : Z :=
  let u' := spec_inverse u in
  let t := spec_t (spec_mantissa u') (spec_exponent u') in
  if Z.testbit u' 7 then 0x84 - t else t - 0x84.

(** Expansion through the exponent table: segment base [exp_lut[e]] plus
    the mantissa shifted to the segment's step. *)
Definition spec_ulaw2linear_table (u : Z) : Z :=
  let u' := spec_inverse u in
  let m := spec_mantissa u' in
  let e := spec_exponent u' in
  let magnitude := nth (Z.to_nat e) exp_lut 0 + Z.shiftl m (e + 3) in
  if Z.testbit u' 7 then - magnitude else magnitude.

(** Compression: sign, magnitude, clip to 32635, bias 0x84, exponent from
    the highest set bit (bit 14 is exponent 7, bit 7 and below exponent 0),
    4-bit mantissa, inverse of the packed byte.  The specification does not
    say how the mantissa is derived; the shift is the source's. *)
Definition spec_sign (s : Z) : Z := if s <? 0 then 0x80 else 0.
Definition spec_biased (s : Z) : Z := Z.min (Z.abs s) 32635 + 0x84.
Definition spec_exponent_of (b : Z) : Z := Z.max 0 (Z.log2 b - 7).

Definition spec_linear2ulaw (s : Z) : Z :=
  let b := spec_biased s in
  let e := spec_exponent_of b in
  let m := Z.land (Z.shiftr b (if e =? 0 then 4 else e + 3)) 0x0F in
  255 - (spec_sign s + e * 16 + m).

(** The segment a sample is coded in, and the quantization step there:
    neighbouring mantissas of segment [e] decode [8 << e] apart. *)
Definition segment (s : Z) : Z := spec_exponent (spec_inverse (linear2ulaw s)).
Definition qstep (s : Z) : Z := Z.shiftl 8 (segment s).

Definition roundtrip (s : Z) : Z := ulaw2linear (linear2ulaw s).

End Codec.

(* ------------------------------------------------------------------ *)
(** ** C strings in byte buffers *)

Definition u8 (b : byte) : Z := Z.of_N (Byte.to_N b).

(** The string a [char*] denotes: the bytes before the first NUL. *)
Fixpoint c_str (buf : list byte) : list byte :=
  match buf with
  | [] => []
  | b :: rest => if Byte.eqb b x00 then [] else b :: c_str rest
  end.

Fixpoint prefixb (needle haystack : list byte) : bool :=
  match needle, haystack with
  | [], _ => true
  | _ :: _, [] => false
  | n :: ns, h :: hs => Byte.eqb n h && prefixb ns hs
  end.

(** [strstr(haystack, needle) != NULL] on strings already cut at their
    terminator. *)
Fixpoint strstr (haystack needle : list byte) : bool :=
  prefixb needle haystack ||
  match haystack with
  | [] => false
  | _ :: rest => strstr rest needle
  end.

(** What the search is meant to decide. *)
Definition contains (text needle : list byte) : Prop :=
  exists before after, text = before ++ needle ++ after.

Definition dquote : string := String "034"%char EmptyString.
Definition newline : string := String "010"%char EmptyString.

(** The literal ["hangup"] searched by the tagged receiver, and the
    literal [\"type\":\"hangup\"] searched by the length-prefixed one. *)
Definition hangup_word : list byte := list_byte_of_string "hangup".
Definition hangup_json : list byte :=
  list_byte_of_string
    (dquote ++ "type" ++ dquote ++ ":" ++ dquote ++ "hangup" ++ dquote)%string.

(* ------------------------------------------------------------------ *)
(** ** The TCP connection as the receiver sees it

    [pending] holds the bytes the gateway has sent and the relay has not
    read yet; the first [arrived] of them already sit in the receive
    buffer.  Each call of [recv] takes the head of [arrivals]: the number
    of further bytes that reach the buffer before the call returns (an
    empty list means everything has arrived).  A blocking call waits for at
    least one byte.  After the last byte the connection is closed by the
    peer or fails, as [ending] says. *)

Module Sock.

Inductive ending_kind := PeerClosed | IoError.

Record t := mk {
  pending : list byte;
  arrived : nat;
  arrivals : list nat;
  ending : ending_kind
}.

(** Outcome of one [recv]: bytes (return value their count, positive when
    bytes were asked for), 0 for an orderly close, -1 for an error. *)
Inductive result := Data (bs : list byte) | Closed | Failed.

Definition ssize (r : result) : Z :=
  match r with
  | Data bs => Z.of_nat (length bs)
  | Closed => 0
  | Failed => -1
  end.

Definition bytes (r : result) : list byte :=
  match r with Data bs => bs | _ => [] end.

Definition available (s : t) : nat * list nat :=
  match arrivals s with
  | [] => (length (pending s), [])
  | k :: later =>
      (Nat.min (length (pending s)) (Nat.max 1 (arrived s + k)), later)
  end.

(** [recv(fd, buf, n, flags)]; [peek] is [MSG_PEEK]. *)
Definition recv (s : t) (n : nat) (peek : bool) : result * t :=
  match pending s with
  | [] =>
      (match ending s with PeerClosed => Closed | IoError => Failed end, s)
  | _ :: _ =>
      let (a, later) := available s in
      let r := Nat.min n a in
      (Data (firstn r (pending s)),
       if peek then mk (pending s) a later (ending s)
       else mk (skipn r (pending s)) (a - r) later (ending s))
  end.

(** The read-until-complete loop both framed receivers use for audio:
    [while (got < need) { r = recv(fd, buf + got, need - got, 0); ... }].
    Every successful [recv] adds at least one byte, so [need] units of fuel
    always suffice; [Stalled] marks exhausted fuel. *)
Inductive frame_read :=
| Complete (frame : list byte)
| ReadClosed
| ReadFailed
| Stalled.

Fixpoint recv_exact (fuel need : nat) (got : list byte) (s : t)
  : frame_read * t :=
  if (need <=? length got)%nat then (Complete got, s)
  else
    match fuel with
    | O => (Stalled, s)
    | S fuel' =>
        match recv s (need - length got) false with
        | (Data bs, s') => recv_exact fuel' need (got ++ bs) s'
        | (Closed, s') => (ReadClosed, s')
        | (Failed, s') => (ReadFailed, s')
        end
    end.

(** A connection on which [data] is still to be read, of which the first
    [n] bytes have arrived. *)
Definition carrying (data : list byte) (n : nat) (sched : list nat)
  (e : ending_kind) : t := mk data (Nat.min n (length data)) sched e.

End Sock.

(** Model of the host's [switch_buffer_t] (FreeSWITCH, not part of the
    module's sources): a byte FIFO with a size limit.  A write stores all
    of its data or, when it does not fit, none and returns 0; a read
    removes up to the requested count from the front. *)
Module SwitchBuffer.

Record t := mk { contents : list byte; max_len : nat }.

Definition inuse (b : t) : nat := length (contents b).

Definition write (b : t) (data : list byte) : nat * t :=
  if (length (contents b) + length data <=? max_len b)%nat
  then (length (contents b) + length data, mk (contents b ++ data) (max_len b))%nat
  else (O, b).

Definition read (b : t) (n : nat) : list byte * t :=
  (firstn n (contents b), mk (skipn n (contents b)) (max_len b)).

End SwitchBuffer.

(** Model of the host's [switch_queue_t] (FreeSWITCH over APR, not part
    of the module's sources): a FIFO of at most [capacity] pointers.
    [trypush] fails without blocking when the queue is full, [trypop] when
    it is empty. *)
Module SwitchQueue.

Record t := mk { items : list (list byte); capacity : nat }.

Definition create (capacity : nat) : t := mk [] capacity.

Definition size (q : t) : nat := length (items q).

Definition trypush (q : t) (x : list byte) : bool * t :=
  if (size q <? capacity q)%nat
  then (true, mk (items q ++ [x]) (capacity q))
  else (false, q).

Definition trypop (q : t) : option (list byte) * t :=
  match items q with
  | [] => (None, q)
  | x :: rest => (Some x, mk rest (capacity q))
  end.

End SwitchQueue.

Inductive hangup_cause := SWITCH_CAUSE_NORMAL_CLEARING.

(** [snprintf(buf, size, ...)]: the formatted text cut to [size - 1]
    characters. *)
Definition snprintf (size : nat) (formatted : string) : string :=
  substring 0 (size - 1) formatted.

(* ------------------------------------------------------------------ *)
(** ** [mod_nova_sonic.c]: the raw relay (handshake only) *)

Module V1.

(** [caller_id_number ? caller_id_number : "Unknown"] in
    [nova_sonic_function]. *)
Definition caller_id (caller_id_number : option string) : string :=
  match caller_id_number with
  | Some number => number
  | None => "Unknown"
  end.

Definition handshake_line (session_id caller : string) : string :=
  ("NOVA_SESSION:" ++ session_id ++ ":CALLER:" ++ caller ++ newline)%string.

(** The handshake [nova_session_init] formats into [char handshake[256]]
    and sends. *)
Definition handshake (session_id : string) (caller_id_number : option string)
  : string :=
  snprintf 256 (handshake_line session_id (caller_id caller_id_number)).

End V1.

(* ------------------------------------------------------------------ *)
(** ** [mod_nova_sonic_v2.c]: the tagged relay *)

Module V2.

Inductive log_msg :=
| LogRecvStarted
| LogClosedAtTag
| LogClosedInAudio
| LogQueueFull
| LogHangupRequested
| LogUnknownTag (tag : byte)
| LogRecvExiting.

(** The part of [nova_ctx_t] the receive thread and the playback side
    touch; [hungup] records a call of [switch_channel_hangup]. *)
Record nova_ctx_t := mk {
  sock_fd : Sock.t;
  running : bool;
  playback_queue : SwitchQueue.t;
  hungup : option hangup_cause;
  log : list log_msg
}.

Definition set_sock (s : Sock.t) (ctx : nova_ctx_t) : nova_ctx_t :=
  mk s (running ctx) (playback_queue ctx) (hungup ctx) (log ctx).
Definition set_running (r : bool) (ctx : nova_ctx_t) : nova_ctx_t :=
  mk (sock_fd ctx) r (playback_queue ctx) (hungup ctx) (log ctx).
Definition set_queue (q : SwitchQueue.t) (ctx : nova_ctx_t) : nova_ctx_t :=
  mk (sock_fd ctx) (running ctx) q (hungup ctx) (log ctx).
Definition switch_channel_hangup (c : hangup_cause) (ctx : nova_ctx_t)
  : nova_ctx_t :=
  mk (sock_fd ctx) (running ctx) (playback_queue ctx) (Some c) (log ctx).
Definition add_log (m : log_msg) (ctx : nova_ctx_t) : nova_ctx_t :=
  mk (sock_fd ctx) (running ctx) (playback_queue ctx) (hungup ctx)
     (log ctx ++ [m]).

(** "Queue for playback": the copy of the frame is pushed, or freed with a
    warning when [switch_queue_trypush] fails.  [malloc] is taken to
    succeed. *)
Definition queue_for_playback (ctx : nova_ctx_t) (frame_buf : list byte)
  : nova_ctx_t :=
  match SwitchQueue.trypush (playback_queue ctx) frame_buf with
  | (true, q) => set_queue q ctx
  | (false, _) => add_log LogQueueFull ctx
  end.

(** The branch [tag == 0x01]: read 640 bytes, then queue them. *)
Definition audio_frame (ctx : nova_ctx_t) : nova_ctx_t :=
  match Sock.recv_exact 640 640 [] (sock_fd ctx) with
  | (Sock.Complete frame_buf, s) => queue_for_playback (set_sock s ctx) frame_buf
  | (Sock.ReadClosed, s) | (Sock.ReadFailed, s) =>
      set_running false (add_log LogClosedInAudio (set_sock s ctx))
  | (Sock.Stalled, s) => set_sock s ctx
  end.

(** The line loop of the branch [tag == 0x02]:
    [while (pos < sizeof(ctrl_buf) - 1)], one byte per [recv], left at a
    newline or when [recv] returns no byte.  [room] is [255 - pos]. *)
Fixpoint read_control (room : nat) (ctrl_buf : list byte) (s : Sock.t)
  : list byte * Sock.t :=
  match room with
  | O => (ctrl_buf, s)
  | S room' =>
      match Sock.recv s 1 false with
      | (Sock.Data (b :: _), s') =>
          if Byte.eqb b x0a then (ctrl_buf, s')
          else read_control room' (ctrl_buf ++ [b]) s'
      | (_, s') => (ctrl_buf, s')
      end
  end.

(** "Check for hangup": [strstr(ctrl_buf, "hangup")]. *)
Definition control_message (ctx : nova_ctx_t) (ctrl_buf : list byte)
  : nova_ctx_t :=
  if strstr (c_str ctrl_buf) hangup_word
  then switch_channel_hangup SWITCH_CAUSE_NORMAL_CLEARING
         (set_running false (add_log LogHangupRequested ctx))
  else ctx.

(** One pass through the body of [while (ctx->running)] in
    [gateway_recv_thread].  Both [break] and [goto done] are taken with
    [running] already cleared, so leaving the loop is the loop test. *)
Definition recv_iteration (ctx : nova_ctx_t) : nova_ctx_t :=
  match Sock.recv (sock_fd ctx) 1 false with
  | (Sock.Data (tag :: _), s) =>
      let ctx := set_sock s ctx in
      if Byte.eqb tag x01 then audio_frame ctx
      else if Byte.eqb tag x02 then
        let (ctrl_buf, s') := read_control 255 [] (sock_fd ctx) in
        control_message (set_sock s' ctx) ctrl_buf
      else add_log (LogUnknownTag tag) ctx
  | (_, s) => set_running false (add_log LogClosedAtTag (set_sock s ctx))
  end.

Fixpoint recv_loop (fuel : nat) (ctx : nova_ctx_t) : option nova_ctx_t :=
  if running ctx then
    match fuel with
    | O => None
    | S fuel' => recv_loop fuel' (recv_iteration ctx)
    end
  else Some ctx.

Definition gateway_recv_thread (fuel : nat) (ctx : nova_ctx_t)
  : option nova_ctx_t :=
  match recv_loop fuel (add_log LogRecvStarted ctx) with
  | Some ctx' => Some (add_log LogRecvExiting ctx')
  | None => None
  end.

Record switch_frame_t := frame {
  data : list byte;
  datalen : nat;
  samples : nat
}.

(** "Check for bot audio to play" in the main media loop. *)
Definition play_bot_audio (ctx : nova_ctx_t)
  : option switch_frame_t * nova_ctx_t :=
  match SwitchQueue.trypop (playback_queue ctx) with
  | (Some queued_frame, q) => (Some (frame queued_frame 640 320), set_queue q ctx)
  | (None, _) => (None, ctx)
  end.

(** The context [nova_sonic_function] sets up:
    [switch_queue_create(&ctx->playback_queue, 100, pool)]. *)
Definition new_ctx (s : Sock.t) : nova_ctx_t :=
  mk s true (SwitchQueue.create 100) None [].

(** The handshake of [connect_to_gateway], formatted into
    [char handshake[512]] with [caller ? caller : "unknown"]. *)
Definition handshake_line (uuid caller : string) : string :=
  ("NOVA_SESSION:" ++ uuid ++ ":CALLER:" ++ caller ++ newline)%string.

Definition handshake (uuid : string) (caller : option string) : string :=
  snprintf 512
    (handshake_line uuid
       (match caller with Some c => c | None => "unknown" end)).

End V2.
(* ------------------------------------------------------------------ *)
(** ** [mod_nova_sonic_v3.c]: the length-prefixed relay *)

Module V3.

Inductive log_msg :=
| LogRecvStarted
| LogControlMessage (control_msg : list byte)
| LogHangupRequested
| LogRecvFailed
| LogGatewayClosed
| LogAudioReceived
| LogRecvEnded.

(** The part of [nova_session_t] the receive thread and the playback side
    touch: the descriptor and the connection behind it, the output stream,
    the [running] flag; [hungup] records a call of
    [switch_channel_hangup]. *)
Record nova_session_t := mk {
  gateway_socket : Z;
  wire : Sock.t;
  output_stream : SwitchBuffer.t;
  running : bool;
  hungup : option hangup_cause;
  log : list log_msg
}.

Definition set_wire (s : Sock.t) (ctx : nova_session_t) : nova_session_t :=
  mk (gateway_socket ctx) s (output_stream ctx) (running ctx) (hungup ctx)
     (log ctx).
Definition set_output (b : SwitchBuffer.t) (ctx : nova_session_t)
  : nova_session_t :=
  mk (gateway_socket ctx) (wire ctx) b (running ctx) (hungup ctx) (log ctx).
Definition set_running (r : bool) (ctx : nova_session_t) : nova_session_t :=
  mk (gateway_socket ctx) (wire ctx) (output_stream ctx) r (hungup ctx)
     (log ctx).
Definition switch_channel_hangup (c : hangup_cause) (ctx : nova_session_t)
  : nova_session_t :=
  mk (gateway_socket ctx) (wire ctx) (output_stream ctx) (running ctx)
     (Some c) (log ctx).
Definition add_log (m : log_msg) (ctx : nova_session_t) : nova_session_t :=
  mk (gateway_socket ctx) (wire ctx) (output_stream ctx) (running ctx)
     (hungup ctx) (log ctx ++ [m]).

(** [(b[0] << 24) | (b[1] << 16) | (b[2] << 8) | b[3]] stored in a
    [uint32_t].  Slots of the four-byte array that no [recv] filled read
    as 0 here; the receiver only uses the value after four bytes were
    delivered. *)
Definition be32 (b : list byte) : Z :=
  to_uint32
    (Z.lor (Z.lor (Z.lor (Z.shiftl (u8 (nth 0 b x00)) 24)
                         (Z.shiftl (u8 (nth 1 b x00)) 16))
                  (Z.shiftl (u8 (nth 2 b x00)) 8))
           (u8 (nth 3 b x00))).

(** The test that sends a peeked header down the control path. *)
Definition looks_like_control (peeked : Z) (potential_length : Z) : bool :=
  (peeked =? 4) && (0 <? potential_length) && (potential_length <? 1024)
  && negb (potential_length =? 320).

(** A control message received in full: terminated, logged, searched for
    [\"type\":\"hangup\"]. *)
Definition control_message (ctx : nova_session_t) (control_msg : list byte)
  : nova_session_t :=
  let ctx := add_log (LogControlMessage (c_str control_msg)) ctx in
  if strstr (c_str control_msg) hangup_json
  then set_running false
         (switch_channel_hangup SWITCH_CAUSE_NORMAL_CLEARING
            (add_log LogHangupRequested ctx))
  else ctx.

(** The control path: read the prefix again, then the message with a
    single [recv]; a message that did not come in full is freed unused. *)
Definition control_path (ctx : nova_session_t) : nova_session_t :=
  let (length_buf, s1) := Sock.recv (wire ctx) 4 false in
  let msg_length := be32 (Sock.bytes length_buf) in
  if (0 <? msg_length) && (msg_length <? 1024) then
    let (received, s2) := Sock.recv s1 (Z.to_nat msg_length) false in
    if Sock.ssize received =? msg_length
    then control_message (set_wire s2 ctx) (Sock.bytes received)
    else set_wire s2 ctx
  else set_wire s1 ctx.

(** "Read exact 320 bytes of PCM16 audio", then write the frame to the
    output stream. *)
Definition audio_frame (ctx : nova_session_t) : nova_session_t :=
  match Sock.recv_exact 320 320 [] (wire ctx) with
  | (Sock.Complete audio_buffer, s) =>
      let ctx := set_wire s ctx in
      let (_, b) := SwitchBuffer.write (output_stream ctx) audio_buffer in
      add_log LogAudioReceived (set_output b ctx)
  | (Sock.ReadFailed, s) =>
      set_running false (add_log LogRecvFailed (set_wire s ctx))
  | (Sock.ReadClosed, s) =>
      set_running false (add_log LogGatewayClosed (set_wire s ctx))
  | (Sock.Stalled, s) => set_wire s ctx
  end.

(** One pass through the body of the [while] of [nova_recv_thread].
    [goto END_THREAD] is taken with [running] already cleared, so leaving
    the loop is the loop test. *)
Definition recv_iteration (ctx : nova_session_t) : nova_session_t :=
  let (header, s) := Sock.recv (wire ctx) 4 true in
  let ctx := set_wire s ctx in
  if looks_like_control (Sock.ssize header) (be32 (Sock.bytes header))
  then control_path ctx
  else audio_frame ctx.

Fixpoint recv_loop (fuel : nat) (ctx : nova_session_t)
  : option nova_session_t :=
  if running ctx && (0 <? gateway_socket ctx) then
    match fuel with
    | O => None
    | S fuel' => recv_loop fuel' (recv_iteration ctx)
    end
  else Some ctx.

Definition nova_recv_thread (fuel : nat) (ctx : nova_session_t)
  : option nova_session_t :=
  match recv_loop fuel (add_log LogRecvStarted ctx) with
  | Some ctx' => Some (add_log LogRecvEnded ctx')
  | None => None
  end.

(** [dequeue_bot_frame]: [Some (buf, len)] stands for [SWITCH_TRUE] with
    the frame in [buf] and the count in [*len]. *)
Definition dequeue_bot_frame (ctx : nova_session_t)
  : option (list byte * nat) * nova_session_t :=
  let available := SwitchBuffer.inuse (output_stream ctx) in
  if (320 <=? available)%nat then
    let (buf, b) := SwitchBuffer.read (output_stream ctx) 320 in
    (Some (buf, length buf), set_output b ctx)
  else (None, ctx).

Record switch_frame_t := frame {
  data : list Z;
  datalen : nat;
  samples : nat;
  rate : Z;
  channels : nat
}.

(** [bot_buf] read through a pointer to [int16_t]: 160 samples, low byte
    first as on the hosts the module is built for. *)
Definition int16_le (lo hi : byte) : Z := to_int16 (u8 lo + 256 * u8 hi).

Definition pcm16_samples (bot_buf : list byte) : list Z :=
  map (fun i => int16_le (nth (2 * i) bot_buf x00)
                         (nth (2 * i + 1) bot_buf x00))
      (seq 0 160).

(** Step 2 of the main audio loop: "Only write bot audio after media is
    ready".  The result is the frame handed to
    [switch_core_session_write_frame], if any. *)
Definition play_bot_audio (media_ready write_codec : bool)
  (ctx : nova_session_t) : option switch_frame_t * nova_session_t :=
  if media_ready && write_codec then
    match dequeue_bot_frame ctx with
    | (Some (bot_buf, bot_len), ctx') =>
        if (320 <=? bot_len)%nat
        then (Some (frame (Codec.pcm16_to_ulaw (pcm16_samples bot_buf))
                          160 160 8000 1), ctx')
        else (None, ctx')
    | (None, ctx') => (None, ctx')
    end
  else (None, ctx).

(** Session and caller identifiers as [nova_ai_session_function] stores
    them in their 128-byte fields, and the JSON handshake it formats into
    [char handshake[512]]. *)
Definition session_id (uuid : string) : string := snprintf 128 uuid.

Definition caller_id (caller_number : option string) : string :=
  match caller_number with
  | Some number => snprintf 128 number
  | None => snprintf 128 "Unknown"
  end.

Definition handshake_json (session caller : string) : string :=
  ("{" ++ dquote ++ "call_uuid" ++ dquote ++ ":" ++ dquote ++ session
   ++ dquote ++ "," ++ dquote ++ "caller" ++ dquote ++ ":" ++ dquote
   ++ caller ++ dquote ++ "," ++ dquote ++ "sample_rate" ++ dquote
   ++ ":8000," ++ dquote ++ "channels" ++ dquote ++ ":1," ++ dquote
   ++ "format" ++ dquote ++ ":" ++ dquote ++ "PCM16" ++ dquote ++ "}"
   ++ newline)%string.

Definition handshake (uuid : string) (caller_number : option string)
  : string :=
  snprintf 512 (handshake_json (session_id uuid) (caller_id caller_number)).

End V3.
(* ------------------------------------------------------------------ *)
(** ** Host buffer writes and sample bytes shared by the relays *)

(** [switch_buffer_write] on a dynamic buffer: a buffer created with
    [max_len] 0 has no limit, any other goes through the limited
    write. *)
Definition switch_buffer_write (b : SwitchBuffer.t) (data : list byte)
  : nat * SwitchBuffer.t :=
  if (SwitchBuffer.max_len b =? 0)%nat
  then ((length (SwitchBuffer.contents b) + length data)%nat,
        SwitchBuffer.mk (SwitchBuffer.contents b ++ data) 0)
  else SwitchBuffer.write b data.

Definition byte_of_Z (z : Z) : byte :=
  match Byte.of_N (Z.to_N (z mod 256)) with
  | Some b => b
  | None => x00
  end.

(** The two bytes of an [int16_t] in memory, low byte first. *)
Definition int16_bytes (x : Z) : list byte :=
  [byte_of_Z x; byte_of_Z (Z.shiftr x 8)].

(** An [int16_t] array as the bytes [send] is given. *)
Definition pcm16_bytes (samples : list Z) : list byte :=
  flat_map int16_bytes samples.

(** Status of [switch_core_session_read_frame] and
    [switch_core_session_write_frame]. *)
Inductive switch_status_t :=
| SWITCH_STATUS_SUCCESS
| SWITCH_STATUS_BREAK
| SWITCH_STATUS_OTHER (code : Z).

(* ------------------------------------------------------------------ *)
(** ** [mod_nova_sonic.c]: the raw relay's media bug and threads *)

Module V1Stream.

Inductive log_msg :=
| LogBugInit
| LogBugClosed
| LogSendFailed
| LogSent (bytes_read : nat)
| LogRecvFailed
| LogGatewayClosed
| LogReceived (received : nat).

(** The part of [nova_session_t] the media bug and the two threads share.
    [would_block] says, for each coming [recv], whether it returns -1 with
    [EAGAIN]; [sent] lists the buffers handed to [send]. *)
Record nova_session_t := mk {
  input_stream : SwitchBuffer.t;
  output_stream : SwitchBuffer.t;
  gateway_socket : Z;
  wire : Sock.t;
  would_block : list bool;
  sent : list (list byte);
  running : bool;
  log : list log_msg
}.

Definition set_input (b : SwitchBuffer.t) (c : nova_session_t) :=
  mk b (output_stream c) (gateway_socket c) (wire c) (would_block c) (sent c)
     (running c) (log c).
Definition set_output (b : SwitchBuffer.t) (c : nova_session_t) :=
  mk (input_stream c) b (gateway_socket c) (wire c) (would_block c) (sent c)
     (running c) (log c).
Definition set_wire (s : Sock.t) (c : nova_session_t) :=
  mk (input_stream c) (output_stream c) (gateway_socket c) s (would_block c)
     (sent c) (running c) (log c).
Definition set_would_block (w : list bool) (c : nova_session_t) :=
  mk (input_stream c) (output_stream c) (gateway_socket c) (wire c) w (sent c)
     (running c) (log c).
Definition send (buf : list byte) (c : nova_session_t) :=
  mk (input_stream c) (output_stream c) (gateway_socket c) (wire c)
     (would_block c) (sent c ++ [buf]) (running c) (log c).
Definition set_running (r : bool) (c : nova_session_t) :=
  mk (input_stream c) (output_stream c) (gateway_socket c) (wire c)
     (would_block c) (sent c) r (log c).
Definition add_log (m : log_msg) (c : nova_session_t) :=
  mk (input_stream c) (output_stream c) (gateway_socket c) (wire c)
     (would_block c) (sent c) (running c) (log c ++ [m]).

(** [audio_stream_create]:
    [switch_buffer_create_dynamic(&stream->audio_buffer, 1024, 65536, 0)]. *)
Definition audio_stream_create : SwitchBuffer.t := SwitchBuffer.mk [] 0.

Inductive switch_abc_type_t :=
| SWITCH_ABC_TYPE_INIT
| SWITCH_ABC_TYPE_READ_REPLACE
| SWITCH_ABC_TYPE_READ_PING
| SWITCH_ABC_TYPE_WRITE_REPLACE
| SWITCH_ABC_TYPE_CLOSE
| SWITCH_ABC_TYPE_OTHER.

(** [nova_bug_callback].  [frame] is what the host hands out for the
    callback ([None] for a null pointer), its [datalen] the length of the
    list; the result is the frame as the callback leaves it.  The return
    value is [SWITCH_TRUE] in every case. *)
Definition nova_bug_callback (type : switch_abc_type_t)
  (frame : option (list byte)) (c : nova_session_t)
  : option (list byte) * nova_session_t :=
  match type with
  | SWITCH_ABC_TYPE_INIT => (frame, add_log LogBugInit c)
  | SWITCH_ABC_TYPE_READ_REPLACE | SWITCH_ABC_TYPE_READ_PING =>
      match frame with
      | Some data =>
          if (0 <? length data)%nat
          then (frame,
                set_input (snd (switch_buffer_write (input_stream c) data)) c)
          else (frame, c)
      | None => (frame, c)
      end
  | SWITCH_ABC_TYPE_WRITE_REPLACE =>
      match frame with
      | Some data =>
          let (audio, b) := SwitchBuffer.read (output_stream c) (length data) in
          let bytes_read := length audio in
          if (0 <? bytes_read)%nat
          then (Some audio, set_output b c)
          else (Some (repeat x00 (length data)), set_output b c)
      | None => (frame, c)
      end
  | SWITCH_ABC_TYPE_CLOSE => (frame, set_running false (add_log LogBugClosed c))
  | SWITCH_ABC_TYPE_OTHER => (frame, c)
  end.

(** One pass through the loop of [nova_send_thread]; [send_result] is what
    [send] returns.  The timed wait on an empty buffer ends the pass with
    nothing read when no audio came in time. *)
Definition send_pass (send_result : Z) (c : nova_session_t)
  : nova_session_t :=
  let (audio_buffer, b) := SwitchBuffer.read (input_stream c) 320 in
  let bytes_read := length audio_buffer in
  let c := set_input b c in
  if (0 <? bytes_read)%nat then
    let c := send audio_buffer c in
    if send_result <? 0
    then set_running false (add_log LogSendFailed c)
    else add_log (LogSent bytes_read) c
  else c.

(** One pass through the loop of [nova_recv_thread]: up to 320 bytes are
    received and written to the output stream as they come. *)
Definition recv_pass (c : nova_session_t) : nova_session_t :=
  match would_block c with
  | true :: later => set_would_block later c
  | w =>
      let c := set_would_block (tl w) c in
      let (r, s) := Sock.recv (wire c) 320 false in
      let c := set_wire s c in
      let received := Sock.ssize r in
      if received <? 0
      then set_running false (add_log LogRecvFailed c)
      else if received =? 0
      then set_running false (add_log LogGatewayClosed c)
      else add_log (LogReceived (length (Sock.bytes r)))
             (set_output
                (snd (switch_buffer_write (output_stream c) (Sock.bytes r))) c)
  end.

Fixpoint nova_recv_thread (fuel : nat) (c : nova_session_t)
  : option nova_session_t :=
  if running c && (0 <? gateway_socket c) then
    match fuel with
    | O => None
    | S fuel' => nova_recv_thread fuel' (recv_pass c)
    end
  else Some c.

(** The media bug and the send thread taking turns on the input
    stream. *)
Inductive turn :=
| CallerFrame (frame : option (list byte))
| SendPass (send_result : Z).

Definition step (c : nova_session_t) (t : turn) : nova_session_t :=
  match t with
  | CallerFrame frame =>
      snd (nova_bug_callback SWITCH_ABC_TYPE_READ_REPLACE frame c)
  | SendPass send_result =>
      if running c && (0 <? gateway_socket c) then send_pass send_result c
      else c
  end.

End V1Stream.

(* ------------------------------------------------------------------ *)
(** ** [mod_nova_sonic_v2.c]: the send thread and the caller side of the
    media loop *)

Module V2Send.

Inductive log_msg := LogSendFailed.

Record nova_ctx_t := mk {
  input_buffer : SwitchBuffer.t;
  running : bool;
  sent : list (list byte);
  log : list log_msg
}.

(** [switch_buffer_create_dynamic(&ctx->input_buffer, 8192, 16384, 0)]. *)
Definition new : nova_ctx_t := mk (SwitchBuffer.mk [] 0) true [] [].

(** "Push to send thread" in the main media loop. *)
Definition push_caller_audio (status : switch_status_t)
  (read_frame : option (list byte)) (c : nova_ctx_t) : nova_ctx_t :=
  match status, read_frame with
  | SWITCH_STATUS_SUCCESS, Some data =>
      if (0 <? length data)%nat
      then mk (snd (switch_buffer_write (input_buffer c) data)) (running c)
              (sent c) (log c)
      else c
  | _, _ => c
  end.

(** One pass through the loop of [gateway_send_thread].  With fewer than
    640 bytes buffered the thread waits on the condition and the pass
    changes nothing. *)
Definition send_pass (send_result : Z) (c : nova_ctx_t) : nova_ctx_t :=
  if (SwitchBuffer.inuse (input_buffer c) <? 640)%nat then c
  else
    let (frame_buf, b) := SwitchBuffer.read (input_buffer c) 640 in
    let bytes_read := length frame_buf in
    if (bytes_read =? 640)%nat then
      if send_result <? 0
      then mk b false (sent c ++ [frame_buf]) (log c ++ [LogSendFailed])
      else mk b (running c) (sent c ++ [frame_buf]) (log c)
    else mk b (running c) (sent c) (log c).

Inductive turn :=
| CallerFrame (status : switch_status_t) (read_frame : option (list byte))
| SendPass (send_result : Z).

Definition step (c : nova_ctx_t) (t : turn) : nova_ctx_t :=
  match t with
  | CallerFrame status read_frame => push_caller_audio status read_frame c
  | SendPass send_result => if running c then send_pass send_result c else c
  end.

End V2Send.

(* ------------------------------------------------------------------ *)
(** ** [mod_nova_sonic_v3.c]: the main audio loop *)

Module V3Main.

Inductive log_msg :=
| LogMediaReady (datalen : nat)
| LogSendFailed
| LogSentDecoded (datalen : nat)
| LogSentPcm16
| LogUnexpectedSize (datalen : nat)
| LogReadStatus (st : switch_status_t)
| LogWriteStatus (st : switch_status_t)
| LogWrote.

(** The main loop's view: the session shared with the receive thread,
    [media_ready], the buffers handed to [send], the frames handed to
    [switch_core_session_write_frame]. *)
Record loop_t := mk {
  session : V3.nova_session_t;
  media_ready : bool;
  sent : list (list byte);
  written : list V3.switch_frame_t;
  log : list log_msg
}.

Definition set_session (s : V3.nova_session_t) (m : loop_t) : loop_t :=
  mk s (media_ready m) (sent m) (written m) (log m).
Definition set_media_ready (r : bool) (m : loop_t) : loop_t :=
  mk (session m) r (sent m) (written m) (log m).
Definition send (buf : list byte) (m : loop_t) : loop_t :=
  mk (session m) (media_ready m) (sent m ++ [buf]) (written m) (log m).
Definition write_frame (f : V3.switch_frame_t) (m : loop_t) : loop_t :=
  mk (session m) (media_ready m) (sent m) (written m ++ [f]) (log m).
Definition add_log (l : log_msg) (m : loop_t) : loop_t :=
  mk (session m) (media_ready m) (sent m) (written m) (log m ++ [l]).

(** What one pass of the loop meets: whether the channel is ready, the
    status and frame of the read, and what [send] and the frame write
    return if they are called. *)
Record tick := mk_tick {
  channel_ready : bool;
  st : switch_status_t;
  read_frame : option (list byte);
  send_result : Z;
  write_st : switch_status_t
}.

(** Step 1, "Read caller audio from FreeSWITCH"; the flag is [true] when
    the loop is left by [break]. *)
Definition forward_caller_audio (t : tick) (m : loop_t) : loop_t * bool :=
  match st t, read_frame t with
  | SWITCH_STATUS_SUCCESS, Some data =>
      let datalen := length data in
      if (0 <? datalen)%nat then
        if (160 <=? datalen)%nat then
          let m := if media_ready m then m
                   else add_log (LogMediaReady datalen)
                          (set_media_ready true m) in
          if (datalen =? 160)%nat then
            let pcm16_buf := Codec.ulaw_to_pcm16 (map u8 data) in
            let m := send (pcm16_bytes pcm16_buf) m in
            if send_result t <? 0 then (add_log LogSendFailed m, true)
            else (add_log (LogSentDecoded datalen) m, false)
          else if (datalen =? 320)%nat then
            let m := send data m in
            if send_result t <? 0 then (add_log LogSendFailed m, true)
            else (add_log LogSentPcm16 m, false)
          else (add_log (LogUnexpectedSize datalen) m, false)
        else (m, false)
      else (m, false)
  | SWITCH_STATUS_SUCCESS, None => (m, false)
  | SWITCH_STATUS_BREAK, _ => (m, false)
  | SWITCH_STATUS_OTHER code, _ =>
      (add_log (LogReadStatus (SWITCH_STATUS_OTHER code)) m, false)
  end.

(** Step 2, "Only write bot audio after media is ready". *)
Definition write_bot_audio (write_codec : bool) (t : tick) (m : loop_t)
  : loop_t :=
  match V3.play_bot_audio (media_ready m) write_codec (session m) with
  | (Some f, s) =>
      let m := write_frame f (set_session s m) in
      match write_st t with
      | SWITCH_STATUS_SUCCESS => add_log LogWrote m
      | other => add_log (LogWriteStatus other) m
      end
  | (None, s) => set_session s m
  end.

Definition main_iteration (write_codec : bool) (t : tick) (m : loop_t)
  : loop_t * bool :=
  let (m, left) := forward_caller_audio t m in
  if left then (m, true) else (write_bot_audio write_codec t m, false).

(** The main audio loop over the passes it gets to make, followed by the
    cleanup's [ctx->running = 0]. *)
Fixpoint main_loop (write_codec : bool) (ticks : list tick) (m : loop_t)
  : loop_t :=
  match ticks with
  | [] => m
  | t :: later =>
      if channel_ready t && V3.running (session m) then
        let (m', left) := main_iteration write_codec t m in
        if left then m' else main_loop write_codec later m'
      else m
  end.

Definition nova_ai_session_loop (write_codec : bool) (ticks : list tick)
  (m : loop_t) : loop_t :=
  let m := main_loop write_codec ticks m in
  set_session (V3.set_running false (session m)) m.

End V3Main.

(* ------------------------------------------------------------------ *)
(** ** Vocabulary of the statements *)

(** Every 16-bit sample but the most negative one. *)
Definition off_minimum (s : Z) : Prop := -32767 <= s <= 32767.

(** How far a sample lands from itself after compression and
    expansion. *)
Definition deviation (s : Z) : Z := Z.abs (Codec.roundtrip s - s).

(** [new] extends [old] by whole frames of [n] bytes. *)
Definition whole_frames (n : nat) (old new : list byte) : Prop :=
  exists frames,
    new = old ++ concat frames /\ Forall (fun f => length f = n) frames.

(** A mu-law byte outside the lowest segment: the exponent bits of the
    stored (inverted) byte are not all set. *)
Definition upper_segment (u : Z) : Prop :=
  0 <= u < 256 /\ Z.land u 0x70 <> 0x70.

(** Every frame in the playback queue is a whole one. *)
Definition queue_whole (ctx : V2.nova_ctx_t) : Prop :=
  Forall (fun f => length f = 640%nat)
         (SwitchQueue.items (V2.playback_queue ctx)).

(** ** Concrete sessions used in examples *)

(** A length-prefixed session as [nova_ai_session_function] starts it,
    reading from connection [s]. *)
Definition v3_session (s : Sock.t) : V3.nova_session_t :=
  V3.mk 5 s (SwitchBuffer.mk [] (Z.to_nat 32768)) true None [].

(** The 17-byte hangup message behind its length prefix. *)
Definition hangup_frame : list byte :=
  [x00; x00; x00; x11] ++
  list_byte_of_string "{" ++ hangup_json ++ list_byte_of_string "}".

(** The playback side and the receive thread of a tagged session taking
    turns: the thread makes one pass of its loop, or the media loop tries
    to take a frame for playback. *)
Inductive v2_turn := RecvPass | PlaybackTick.

Definition v2_step (ctx : V2.nova_ctx_t) (t : v2_turn) : V2.nova_ctx_t :=
  match t with
  | RecvPass => if V2.running ctx then V2.recv_iteration ctx else ctx
  | PlaybackTick => snd (V2.play_bot_audio ctx)
  end.

Definition v2_run (ctx : V2.nova_ctx_t) (turns : list v2_turn) : V2.nova_ctx_t :=
  fold_left v2_step turns ctx.

Definition occupied (ctx : V2.nova_ctx_t) : nat :=
  SwitchQueue.size (V2.playback_queue ctx).
Definition capacity (ctx : V2.nova_ctx_t) : nat :=
  SwitchQueue.capacity (V2.playback_queue ctx).

(** Reduce the record accessors and updates of a session, nothing
    else. *)
Ltac v3_fields :=
  cbn [V3.gateway_socket V3.wire V3.output_stream V3.running V3.hungup V3.log
       V3.set_wire V3.set_output V3.set_running V3.switch_channel_hangup
       V3.add_log fst snd].

Ltac v2_fields :=
  cbn [V2.sock_fd V2.running V2.playback_queue V2.hungup V2.log
       V2.set_sock V2.set_running V2.set_queue V2.switch_channel_hangup
       V2.add_log fst snd].

(** ** Vocabulary of the further properties *)

(** A pass of the main loop that reads no real audio: no frame, a failed
    read, or a frame shorter than 160 bytes (comfort noise). *)
Definition no_real_audio (t : V3Main.tick) : Prop :=
  match V3Main.st t, V3Main.read_frame t with
  | SWITCH_STATUS_SUCCESS, Some data => (length data < 160)%nat
  | _, _ => True
  end.

Ltac main_fields :=
  cbn [V3Main.session V3Main.media_ready V3Main.sent V3Main.written
       V3Main.log V3Main.set_session V3Main.set_media_ready V3Main.send
       V3Main.write_frame V3Main.add_log fst snd].

(** The caller audio a run of the tagged relay's media loop pushes
    towards the send thread. *)
Definition v2_caller_bytes (turns : list V2Send.turn) : list byte :=
  flat_map (fun t => match t with
                     | V2Send.CallerFrame SWITCH_STATUS_SUCCESS (Some data) =>
                         data
                     | _ => []
                     end) turns.

(** The caller audio the media bug of the raw relay is handed. *)
Definition v1_caller_bytes (turns : list V1Stream.turn) : list byte :=
  flat_map (fun t => match t with
                     | V1Stream.CallerFrame (Some data) => data
                     | _ => []
                     end) turns.

Ltac v1_fields :=
  cbn [V1Stream.input_stream V1Stream.output_stream V1Stream.gateway_socket
       V1Stream.wire V1Stream.would_block V1Stream.sent V1Stream.running
       V1Stream.log V1Stream.set_input V1Stream.set_output V1Stream.set_wire
       V1Stream.set_would_block V1Stream.send V1Stream.set_running
       V1Stream.add_log fst snd].

(** The send thread's invariant: an unlimited input buffer, whole buffers
    sent, and nothing lost between what was pushed and what was sent or is
    still buffered. *)
Definition v2_send_inv (c : V2Send.nova_ctx_t) (pushed : list byte) : Prop :=
  SwitchBuffer.max_len (V2Send.input_buffer c) = 0%nat /\
  Forall (fun buf => length buf = 640%nat) (V2Send.sent c) /\
  concat (V2Send.sent c) ++ SwitchBuffer.contents (V2Send.input_buffer c)
  = pushed.

Definition v1_send_inv (c : V1Stream.nova_session_t) (pushed : list byte)
  : Prop :=
  SwitchBuffer.max_len (V1Stream.input_stream c) = 0%nat /\
  Forall (fun buf => (1 <= length buf <= 320)%nat) (V1Stream.sent c) /\
  concat (V1Stream.sent c) ++ SwitchBuffer.contents (V1Stream.input_stream c)
  = pushed.

(** A tag byte the tagged receiver does not know. *)
Definition unknown_tag (b : byte) : Prop := b <> x01 /\ b <> x02.

(** Audio frames as the gateway writes them for the tagged relay. *)
Definition tagged_audio (frames : list (list byte)) : list byte :=
  flat_map (fun f => x01 :: f) frames.

(** A 320-byte frame whose first four bytes do not read as a control
    length. *)
Definition raw_audio_frame (f : list byte) : Prop :=
  length f = 320%nat /\
  (V3.be32 (firstn 4 f) = 0 \/ V3.be32 (firstn 4 f) = 320 \/
   1024 <= V3.be32 (firstn 4 f)).

(** The compression that [ulaw2linear] inverts, for comparison with
    [linear2ulaw]: the magnitude is taken without wrap-around and the
    mantissa at the expansion's own shift, [exponent + 3], in every
    segment.  It is not in the source. *)
Definition expansion_shift_linear2ulaw (s : Z) : Z :=
  let b := Codec.spec_biased s in
  let e := Codec.spec_exponent_of b in
  let m := Z.land (Z.shiftr b (e + 3)) 0x0F in
  255 - (Codec.spec_sign s + e * 16 + m).

(** The codes of the lowest segment whose mantissa is below 8: 0x78 to
    0x7F and 0xF8 to 0xFF. *)
Definition lowest_codes (u : Z) : bool :=
  ((0x78 <=? u) && (u <=? 0x7F)) || ((0xF8 <=? u) && (u <=? 0xFF)).

(** What the gateway is to get for one pass of the main loop: the decoded
    samples of a 160-byte frame, a 320-byte frame as it is, nothing for
    any other read. *)
Definition caller_buffers (t : V3Main.tick) : list (list byte) :=
  match V3Main.st t, V3Main.read_frame t with
  | SWITCH_STATUS_SUCCESS, Some data =>
      if (length data =? 160)%nat
      then [pcm16_bytes (Codec.ulaw_to_pcm16 (map u8 data))]
      else if (length data =? 320)%nat then [data] else []
  | _, _ => []
  end.

(** A pass on a channel that is ready and whose [send], if called, does
    not fail. *)
Definition steady (t : V3Main.tick) : Prop :=
  V3Main.channel_ready t = true /\ 0 <= V3Main.send_result t.

(** Runs in which no [send] fails. *)
Definition v2_sends_succeed (turns : list V2Send.turn) : Prop :=
  Forall (fun t => match t with
                   | V2Send.SendPass send_result => 0 <= send_result
                   | _ => True
                   end) turns.

Definition v1_sends_succeed (turns : list V1Stream.turn) : Prop :=
  Forall (fun t => match t with
                   | V1Stream.SendPass send_result => 0 <= send_result
                   | _ => True
                   end) turns.

(** [partial] is the beginning of [whole], cut before its end. *)
Definition cut_short (whole partial : list byte) : Prop :=
  exists tail, tail <> [] /\ whole = partial ++ tail.

(** What the length-prefixed receiver logs when an audio read meets the
    end of the connection. *)
Definition end_report (e : Sock.ending_kind) : V3.log_msg :=
  match e with
  | Sock.PeerClosed => V3.LogGatewayClosed
  | Sock.IoError => V3.LogRecvFailed
  end.

(** The output stream after the frames were offered to it one after the
    other: each is stored whole or, when it does not fit, not at all. *)
Definition write_frames (b : SwitchBuffer.t) (frames : list (list byte))
  : SwitchBuffer.t :=
  fold_left (fun b f => snd (SwitchBuffer.write b f)) frames b.

(* ================================================================== *)
(** * Properties *)

(** ** Deciding a property on an interval by evaluation *)

Lemma range_forallb (P : Z -> bool) (n : nat) :
  forall lo, forallb P (range lo n) = true ->
  forall z, lo <= z < lo + Z.of_nat n -> P z = true.
Proof.
  induction n as [|n IH]; intros lo Hall z Hz.
  - simpl in Hz. lia.
  - simpl in Hall. apply andb_true_iff in Hall as [Hlo Hrest].
    destruct (Z.eq_dec z lo) as [->|Hne]; [exact Hlo|].
    apply (IH (lo + 1) Hrest). lia.
Qed.

(** ** The codec *)

Section CodecProperties.
Import Codec.

Lemma spec_exponent_range u : 0 <= spec_exponent u < 8.
Proof.
  unfold spec_exponent. change 7 with (Z.ones 3).
  rewrite Z.land_ones by lia. apply Z.mod_pos_bound. lia.
Qed.

(** The exponent table holds the segment bases [0x84 * (2^e - 1)], which
    is what shifting the biased mantissa and removing the bias leaves. *)
Lemma spec_t_exp_lut m e :
  0 <= e < 8 ->
  spec_t m e - 0x84 = nth (Z.to_nat e) exp_lut 0 + Z.shiftl m (e + 3).
Proof.
  intros He. unfold spec_t.
  assert (Hcases : e = 0 \/ e = 1 \/ e = 2 \/ e = 3 \/
                   e = 4 \/ e = 5 \/ e = 6 \/ e = 7) by lia.
  repeat (destruct Hcases as [-> | Hcases]); try subst e;
    rewrite !Z.shiftl_mul_pow2 by lia;
    repeat match goal with
           | |- context [2 ^ ?k] =>
               let v := eval vm_compute in (2 ^ k) in change (2 ^ k) with v
           | |- context [nth ?i exp_lut 0] =>
               let v := eval vm_compute in (nth i exp_lut 0) in
               change (nth i exp_lut 0) with v
           end;
    lia.
Qed.

Lemma spec_table_agrees u : spec_ulaw2linear u = spec_ulaw2linear_table u.
Proof.
  unfold spec_ulaw2linear, spec_ulaw2linear_table. cbv zeta.
  pose proof (spec_t_exp_lut (spec_mantissa (spec_inverse u)) _
                (spec_exponent_range (spec_inverse u))) as Ht.
  destruct (Z.testbit (spec_inverse u) 7); lia.
Qed.

Lemma ulaw2linear_all_bytes :
  forallb (fun u => ulaw2linear u =? spec_ulaw2linear u) (range 0 256) = true.
Proof. vm_compute. reflexivity. Qed.

(** C2: for every byte [u], [ulaw2linear u] is the reference expansion
    (invert, mantissa, exponent, [t = ((m<<3)+0x84) << e], sign select),
    and equally the expansion through the exponent table
    [0,132,396,924,1980,4092,8316,16764]. *)
Theorem ulaw2linear_reference (u : Z) :
  0 <= u < 256 ->
  ulaw2linear u = spec_ulaw2linear u /\
  ulaw2linear u = spec_ulaw2linear_table u.
Proof.
  intros Hu.
  assert (H : ulaw2linear u = spec_ulaw2linear u).
  { apply Z.eqb_eq.
    apply (range_forallb (fun u => ulaw2linear u =? spec_ulaw2linear u)
             256 0 ulaw2linear_all_bytes).
    simpl. lia. }
  split; [exact H|]. rewrite H. apply spec_table_agrees.
Qed.

Lemma ulaw2linear_reference_witness :
  0 <= 0xFF < 256 /\
  (ulaw2linear 0xFF = spec_ulaw2linear 0xFF /\
   ulaw2linear 0xFF = spec_ulaw2linear_table 0xFF).
Proof. split; [lia | apply (ulaw2linear_reference 0xFF); lia]. Defined.

(** The scan of [linear2ulaw] stops once [exponent] reaches 0, so fuel
    beyond [exponent + 1] changes nothing; the eight units given in
    [linear2ulaw] are enough for the start value 7. *)
Lemma exp_scan_fuel sample :
  forall fuel expMask exponent extra,
    0 <= exponent -> (Z.to_nat exponent < fuel)%nat ->
    exp_scan (fuel + extra) sample expMask exponent =
    exp_scan fuel sample expMask exponent.
Proof.
  induction fuel as [|fuel IH]; intros expMask exponent extra Hpos Hlt; [lia|].
  cbn [Nat.add exp_scan].
  destruct (Z.land sample expMask =? 0); cbn [andb]; [|reflexivity].
  destruct (0 <? exponent) eqn:Hgt; [|reflexivity].
  apply Z.ltb_lt in Hgt. apply IH; lia.
Qed.

Lemma exp_scan_enough sample extra :
  exp_scan (8 + extra) sample 0x4000 7 = exp_scan 8 sample 0x4000 7.
Proof. apply exp_scan_fuel; simpl; lia. Qed.

Lemma linear2ulaw_all_off_minimum :
  forallb (fun s => linear2ulaw s =? spec_linear2ulaw s)
          (range (-32767) (Z.to_nat 65535)) = true.
Proof. vm_compute. reflexivity. Qed.

(** Away from the most negative sample the source and the reference
    compression agree. *)
Lemma linear2ulaw_reference_off_minimum (s : Z) :
  off_minimum s -> linear2ulaw s = spec_linear2ulaw s.
Proof.
  intros Hs. apply Z.eqb_eq.
  apply (range_forallb (fun s => linear2ulaw s =? spec_linear2ulaw s)
           _ _ linear2ulaw_all_off_minimum).
  unfold off_minimum in Hs. rewrite Z2Nat.id by lia. lia.
Qed.

(** C3: at the sample -32768 the source departs from the reference
    compression.  The negation [sample = -sample] wraps in [int16_t], so the
    clip to 32635 never sees the magnitude 32768: the source returns 0x77,
    the reference 0x00. *)
Theorem linear2ulaw_minimum_sample :
  linear2ulaw (-32768) = 0x77 /\
  spec_linear2ulaw (-32768) = 0x00 /\
  linear2ulaw (-32768) <> spec_linear2ulaw (-32768).
Proof.
  split; [vm_compute; reflexivity|].
  split; [vm_compute; reflexivity|].
  vm_compute. discriminate.
Qed.

Lemma roundtrip_all_off_minimum :
  forallb (fun s => let d := deviation s in
                    let q := qstep s in
                    (d <=? 8 * q) && ((Z.abs s <? 64) || (d <=? 4 * q)))
          (range (-32767) (Z.to_nat 65535)) = true.
Proof. vm_compute. reflexivity. Qed.

(** Away from the most negative sample the round trip stays within 8
    quantization steps of the sample, and within 4 steps once the
    magnitude is at least 64: the tolerance is left only by samples of the
    lowest segment, and by -32768. *)
Lemma roundtrip_bounded (s : Z) :
  off_minimum s ->
  deviation s <= 8 * qstep s /\
  (64 <= Z.abs s -> deviation s <= 4 * qstep s).
Proof.
  intros Hs.
  assert (H : (deviation s <=? 8 * qstep s) &&
              ((Z.abs s <? 64) || (deviation s <=? 4 * qstep s)) = true).
  { apply (range_forallb _ _ _ roundtrip_all_off_minimum s).
    unfold off_minimum in Hs. rewrite Z2Nat.id by lia. lia. }
  apply andb_true_iff in H as [H8 H4]. split; [lia|].
  intros Hbig. apply orb_true_iff in H4 as [Hlt | Hle]; lia.
Qed.

Lemma linear2ulaw_codes_all :
  forallb (fun s => negb (lowest_codes (linear2ulaw s)))
          (range (-32768) (Z.to_nat 65536)) = true.
Proof. vm_compute. reflexivity. Qed.

Lemma expansion_shift_all :
  forallb (fun s =>
             let u := expansion_shift_linear2ulaw s in
             (Z.abs (ulaw2linear u - s)
              <=? 4 * Z.shiftl 8 (spec_exponent (spec_inverse u)))
             && ((spec_exponent_of (spec_biased s) =? 0)
                 || (s =? -32768) || (linear2ulaw s =? u)))
          (range (-32768) (Z.to_nat 65536)) = true.
Proof. vm_compute. reflexivity. Qed.

(** With the mantissa taken at the expansion's shift the round trip stays
    within 4 steps of every sample, and [linear2ulaw] is that compression
    outside the lowest segment: the two differ only where the source
    shifts by 4, and at -32768. *)
Lemma expansion_shift_roundtrip (s : Z) :
  -32768 <= s <= 32767 ->
  let u := expansion_shift_linear2ulaw s in
  Z.abs (ulaw2linear u - s)
  <= 4 * Z.shiftl 8 (spec_exponent (spec_inverse u)) /\
  (spec_exponent_of (spec_biased s) <> 0 -> s <> -32768 ->
   linear2ulaw s = u).
Proof.
  intros Hs. cbv zeta.
  pose proof (range_forallb _ _ _ expansion_shift_all s) as H.
  cbv beta zeta in H. rewrite Z2Nat.id in H by lia.
  specialize (H ltac:(lia)).
  apply andb_true_iff in H as [Hd Hsame]. split; [lia|].
  intros He Hmin.
  apply orb_true_iff in Hsame as [Hsame | Hsame]; [|lia].
  apply orb_true_iff in Hsame as [Hsame | Hsame]; lia.
Qed.

(** C4: the round trip leaves the tolerance in the lowest segment.
    Silence, the sample 0, is compressed to 0xF7 and comes back as 64,
    eight quantization steps of 8 away, although the expansion has the
    exact code 0xFF for it: [linear2ulaw] shifts the mantissa of segment 0
    by 4 where the expansion places it at shift 3, so that no sample is
    ever compressed to one of the sixteen codes 0x78 to 0x7F and 0xF8 to
    0xFF. *)
Theorem roundtrip_lowest_segment :
  linear2ulaw 0 = 0xF7 /\ roundtrip 0 = 64 /\ qstep 0 = 8 /\
  ~ (deviation 0 <= 4 * qstep 0) /\
  ulaw2linear 0xFF = 0 /\
  (forall s, -32768 <= s <= 32767 -> lowest_codes (linear2ulaw s) = false).
Proof.
  split; [vm_compute; reflexivity|].
  split; [vm_compute; reflexivity|].
  split; [vm_compute; reflexivity|].
  split; [vm_compute; intros H; apply H; reflexivity|].
  split; [vm_compute; reflexivity|].
  intros s Hs.
  pose proof (range_forallb _ _ _ linear2ulaw_codes_all s) as H.
  cbv beta in H. rewrite Z2Nat.id in H by lia.
  specialize (H ltac:(lia)). apply negb_true_iff in H. exact H.
Qed.

Lemma roundtrip_lowest_segment_witness :
  lowest_codes (linear2ulaw (-7)) = false /\ roundtrip 0 = 64.
Proof.
  destruct roundtrip_lowest_segment as (_ & Hback & _ & _ & _ & Hcodes).
  split; [apply Hcodes; lia | exact Hback].
Defined.

End CodecProperties.

(** ** String search *)

Section StringSearch.

Lemma prefixb_spec needle :
  forall haystack,
    prefixb needle haystack = true <-> exists after, haystack = needle ++ after.
Proof.
  induction needle as [|n ns IH]; intros haystack; simpl.
  - split; [intros _; exists haystack; reflexivity | reflexivity].
  - destruct haystack as [|h hs].
    + split; [discriminate | intros [after H]; discriminate H].
    + rewrite andb_true_iff, IH. split.
      * intros [Heq [after ->]]. apply byte_dec_bl in Heq. subst h.
        exists after. reflexivity.
      * intros [after H]. injection H as -> ->.
        split; [apply byte_dec_lb; reflexivity | exists after; reflexivity].
Qed.

(** [strstr] finds the needle exactly when the text contains it. *)
Lemma strstr_spec needle :
  forall haystack, strstr haystack needle = true <-> contains haystack needle.
Proof.
  induction haystack as [|h hs IH]; simpl; rewrite orb_true_iff, prefixb_spec.
  - split.
    + intros [[after H] | H]; [|discriminate]. exists [], after. exact H.
    + intros [before [after H]]. left.
      destruct before; [exists after; exact H | discriminate H].
  - rewrite IH. split.
    + intros [[after H] | [before [after H]]].
      * exists [], after. exact H.
      * exists (h :: before), after. simpl. rewrite H. reflexivity.
    + intros [before [after H]]. destruct before as [|b before].
      * left. exists after. exact H.
      * right. injection H as _ H. exists before, after. exact H.
Qed.

Lemma strstr_false_iff haystack needle :
  strstr haystack needle = false <-> ~ contains haystack needle.
Proof.
  rewrite <- strstr_spec. destruct (strstr haystack needle); split;
    congruence.
Qed.

(** A buffer without a NUL byte is its own C string. *)
Lemma c_str_no_nul buf : ~ In x00 buf -> c_str buf = buf.
Proof.
  induction buf as [|b rest IH]; intros Hnul; simpl; [reflexivity|].
  destruct (Byte.eqb b x00) eqn:Hb.
  - apply byte_dec_bl in Hb. subst b. exfalso. apply Hnul. left. reflexivity.
  - rewrite IH; [reflexivity|]. intros Hin. apply Hnul. right. exact Hin.
Qed.

End StringSearch.

(** ** The connection *)

Section SockProperties.
Import Sock.

Lemma available_bounds s :
  pending s <> [] ->
  (1 <= fst (available s) <= length (pending s))%nat.
Proof.
  intros Hne. unfold available.
  assert (1 <= length (pending s))%nat
    by (destruct (pending s); [congruence | simpl; lia]).
  destruct (arrivals s); cbn [fst]; lia.
Qed.

(** Bytes that have arrived stay available to the next call. *)
Lemma available_arrived s m :
  (m <= arrived s)%nat -> (m <= length (pending s))%nat ->
  (m <= fst (available s))%nat.
Proof.
  intros Ha Hl. unfold available. destruct (arrivals s); cbn [fst]; lia.
Qed.

(** What one consuming [recv] does: a nonempty piece of the pending bytes,
    or the ending of a connection with nothing pending. *)
Lemma recv_spec s n :
  (0 < n)%nat ->
  match recv s n false with
  | (Data bs, s') =>
      bs <> [] /\ (length bs <= n)%nat /\ pending s = bs ++ pending s' /\
      ending s' = ending s
  | (Closed, s') => pending s = [] /\ s' = s /\ ending s = PeerClosed
  | (Failed, s') => pending s = [] /\ s' = s /\ ending s = IoError
  end.
Proof.
  intros Hn. unfold recv.
  destruct (pending s) as [|b rest] eqn:Hp.
  - destruct (ending s); auto.
  - pose proof (available_bounds s) as Hav. rewrite Hp in Hav.
    specialize (Hav ltac:(discriminate)).
    destruct (available s) as [a later]. cbn [fst] in Hav. cbn [pending ending].
    repeat split.
    + destruct (Nat.min n a) eqn:Hm; [lia | simpl; discriminate].
    + rewrite length_firstn. lia.
    + symmetry. apply firstn_skipn.
Qed.

(** A [recv] for [n] bytes of which at least [n] have arrived returns
    exactly the next [n] bytes. *)
Lemma recv_arrived s n peek :
  (0 < n)%nat -> (n <= arrived s)%nat -> (n <= length (pending s))%nat ->
  exists s',
    recv s n peek = (Data (firstn n (pending s)), s') /\
    ending s' = ending s /\
    (if peek
     then pending s' = pending s /\
          (Nat.min (arrived s) (length (pending s)) <= arrived s')%nat
     else pending s' = skipn n (pending s) /\
          (Nat.min (arrived s) (length (pending s)) - n <= arrived s')%nat).
Proof.
  intros Hn Ha Hl. unfold recv.
  destruct (pending s) as [|b rest] eqn:Hp; [simpl in Hl; lia|].
  pose proof (available_arrived s (Nat.min (arrived s) (length (pending s))))
    as Hav.
  rewrite Hp in Hav. specialize (Hav ltac:(lia) ltac:(lia)).
  destruct (available s) as [a later]. cbn [fst] in Hav.
  replace (Nat.min n a) with n by lia.
  destruct peek; eexists; (split; [reflexivity|]); cbn [pending arrived ending];
    repeat split; lia.
Qed.

(** The read-until-complete loop, for every arrival schedule: with fuel
    for the missing bytes it never stalls; it completes with exactly the
    next missing bytes, or reports the ending of a connection that held
    too few. *)
Lemma recv_exact_spec need :
  forall fuel got s,
    (need - length got <= fuel)%nat ->
    match recv_exact fuel need got s with
    | (Complete frame, s') =>
        exists bs, frame = got ++ bs /\ pending s = bs ++ pending s' /\
                   length bs = (need - length got)%nat /\
                   ending s' = ending s
    | (ReadClosed, s') =>
        (length got + length (pending s) < need)%nat /\
        ending s = PeerClosed /\ pending s' = []
    | (ReadFailed, s') =>
        (length got + length (pending s) < need)%nat /\
        ending s = IoError /\ pending s' = []
    | (Stalled, _) => False
    end.
Proof.
  induction fuel as [|fuel IH]; intros got s Hfuel; cbn [recv_exact].
  - destruct (need <=? length got)%nat eqn:Hdone.
    + apply Nat.leb_le in Hdone. exists []. rewrite app_nil_r.
      repeat split. simpl. lia.
    + apply Nat.leb_gt in Hdone. lia.
  - destruct (need <=? length got)%nat eqn:Hdone.
    + apply Nat.leb_le in Hdone. exists []. rewrite app_nil_r.
      repeat split. simpl. lia.
    + apply Nat.leb_gt in Hdone.
      pose proof (recv_spec s (need - length got) ltac:(lia)) as Hr.
      destruct (recv s (need - length got) false) as [[bs| |] s'].
      * destruct Hr as (Hne & Hlen & Hpend & Hend).
        assert (0 < length bs)%nat
          by (destruct bs; [congruence | simpl; lia]).
        specialize (IH (got ++ bs) s').
        rewrite length_app in IH. specialize (IH ltac:(lia)).
        destruct (recv_exact fuel need (got ++ bs) s') as [[frame| | |] s''].
        -- destruct IH as (bs' & Hf & Hp' & Hl' & He').
           exists (bs ++ bs'). split; [|split; [|split]].
           ++ rewrite Hf. symmetry. apply app_assoc.
           ++ rewrite Hpend, Hp'. apply app_assoc.
           ++ rewrite length_app. lia.
           ++ congruence.
        -- destruct IH as (Hshort & He & Hp'). rewrite Hpend, length_app.
           repeat split; [lia | congruence | assumption].
        -- destruct IH as (Hshort & He & Hp'). rewrite Hpend, length_app.
           repeat split; [lia | congruence | assumption].
        -- exact IH.
      * destruct Hr as (Hp & -> & He). rewrite Hp. simpl.
        repeat split; try assumption; lia.
      * destruct Hr as (Hp & -> & He). rewrite Hp. simpl.
        repeat split; try assumption; lia.
Qed.

(** With the whole frame pending the loop completes, whatever the
    arrival schedule. *)
Lemma recv_exact_complete need s :
  (need <= length (pending s))%nat ->
  exists s',
    recv_exact need need [] s = (Complete (firstn need (pending s)), s') /\
    pending s' = skipn need (pending s) /\ ending s' = ending s.
Proof.
  intros Hlen.
  pose proof (recv_exact_spec need need [] s ltac:(simpl; lia)) as H.
  destruct (recv_exact need need [] s) as [[frame| | |] s'].
  - destruct H as (bs & -> & Hp & Hl & He). simpl in Hl.
    exists s'. rewrite Hp. simpl.
    rewrite firstn_app, skipn_app, Hl, Nat.sub_0_r, Nat.sub_diag, firstn_all2,
      skipn_all2 by lia.
    simpl. rewrite app_nil_r. repeat split. assumption.
  - simpl in H. lia.
  - simpl in H. lia.
  - contradiction.
Qed.

End SockProperties.

Section SockReads.
Import Sock.

(** A peek leaves the connection's data where it is. *)
Lemma recv_peek_keeps s n :
  pending (snd (recv s n true)) = pending s /\
  ending (snd (recv s n true)) = ending s.
Proof.
  unfold recv. destruct (pending s) eqn:Hp.
  - cbn [snd]. auto.
  - destruct (available s). cbn [snd pending ending]. auto.
Qed.

(** Reading one byte returns the first pending byte. *)
Lemma recv_one s b rest :
  pending s = b :: rest ->
  exists s', recv s 1 false = (Data [b], s') /\ pending s' = rest /\
             ending s' = ending s.
Proof.
  intros Hp. pose proof (available_bounds s) as Hav.
  unfold recv. rewrite Hp in *. specialize (Hav ltac:(discriminate)).
  destruct (available s) as [a later]. cbn [fst] in Hav.
  replace (Nat.min 1 a) with 1%nat by lia.
  eexists. split; [reflexivity|]. simpl. auto.
Qed.

End SockReads.

(** ** The length-prefixed receiver *)


Section V3Properties.
Import V3.

Lemma firstn_exact {A} (l1 l2 : list A) : firstn (length l1) (l1 ++ l2) = l1.
Proof.
  rewrite firstn_app, Nat.sub_diag, firstn_all. simpl. apply app_nil_r.
Qed.

Lemma skipn_exact {A} (l1 l2 : list A) : skipn (length l1) (l1 ++ l2) = l2.
Proof.
  rewrite skipn_app, Nat.sub_diag, skipn_all. reflexivity.
Qed.

(** The control path when the whole message has arrived: the prefix and
    exactly the announced bytes are consumed and handled as control
    text. *)
Lemma control_frame_delivered ctx hdr txt rest :
  Sock.pending (wire ctx) = hdr ++ txt ++ rest ->
  length hdr = 4%nat ->
  be32 hdr = Z.of_nat (length txt) ->
  (0 < length txt < 1024)%nat -> length txt <> 320%nat ->
  (4 + length txt <= Sock.arrived (wire ctx))%nat ->
  exists s',
    recv_iteration ctx = control_message (set_wire s' ctx) txt /\
    Sock.pending s' = rest /\ Sock.ending s' = Sock.ending (wire ctx).
Proof.
  intros Hp Hh Hv Hrange Hne Harr.
  assert (Hlen : length (Sock.pending (wire ctx)) =
                 (4 + length txt + length rest)%nat).
  { rewrite Hp, !length_app. lia. }
  unfold recv_iteration.
  destruct (recv_arrived (wire ctx) 4 true) as (s1 & Hr1 & He1 & Hp1 & Ha1);
    [lia..|].
  rewrite Hr1. cbn [Sock.ssize Sock.bytes].
  assert (Hhdr : firstn 4 (Sock.pending (wire ctx)) = hdr).
  { rewrite Hp, <- Hh. apply firstn_exact. }
  rewrite Hhdr, Hh, Hv. unfold looks_like_control.
  replace (Z.of_nat 4 =? 4) with true by reflexivity.
  replace (0 <? Z.of_nat (length txt)) with true by (symmetry; apply Z.ltb_lt; lia).
  replace (Z.of_nat (length txt) <? 1024) with true
    by (symmetry; apply Z.ltb_lt; lia).
  replace (Z.of_nat (length txt) =? 320) with false
    by (symmetry; apply Z.eqb_neq; lia).
  cbn [andb negb]. unfold control_path. cbn [wire set_wire].
  destruct (recv_arrived s1 4 false) as (s2 & Hr2 & He2 & Hp2 & Ha2);
    [rewrite ?Hp1; lia..|].
  rewrite Hr2. cbn [Sock.bytes]. rewrite Hp1, Hhdr, Hv.
  replace (0 <? Z.of_nat (length txt)) with true by (symmetry; apply Z.ltb_lt; lia).
  replace (Z.of_nat (length txt) <? 1024) with true
    by (symmetry; apply Z.ltb_lt; lia).
  cbn [andb]. rewrite Nat2Z.id.
  assert (Hp2' : Sock.pending s2 = txt ++ rest).
  { rewrite Hp2, Hp1, Hp, <- Hh. apply skipn_exact. }
  destruct (recv_arrived s2 (length txt) false) as (s3 & Hr3 & He3 & Hp3 & Ha3).
  { lia. }
  { rewrite Hp1 in Ha2. lia. }
  { rewrite Hp2', length_app. lia. }
  rewrite Hr3, Hp2', firstn_exact. cbn [Sock.ssize Sock.bytes].
  rewrite Z.eqb_refl. exists s3. split; [reflexivity|]. split.
  - rewrite Hp3, Hp2'. apply skipn_exact.
  - congruence.
Qed.

(** What the audio path does to the session, for every arrival schedule:
    a whole 320-byte frame goes to the output stream (or is refused by a
    full stream), or the ending of the connection is reported and the
    thread stopped with the output stream untouched. *)
Lemma audio_frame_spec ctx :
  let ctx' := audio_frame ctx in
  gateway_socket ctx' = gateway_socket ctx /\ hungup ctx' = hungup ctx /\
  if (320 <=? length (Sock.pending (wire ctx)))%nat
  then
    Sock.pending (wire ctx') = skipn 320 (Sock.pending (wire ctx)) /\
    running ctx' = running ctx /\
    log ctx' = log ctx ++ [LogAudioReceived] /\
    output_stream ctx' =
      snd (SwitchBuffer.write (output_stream ctx)
             (firstn 320 (Sock.pending (wire ctx))))
  else
    running ctx' = false /\
    output_stream ctx' = output_stream ctx /\
    Sock.pending (wire ctx') = [] /\
    log ctx' = log ctx ++ [match Sock.ending (wire ctx) with
                           | Sock.PeerClosed => LogGatewayClosed
                           | Sock.IoError => LogRecvFailed
                           end].
Proof.
  unfold audio_frame.
  destruct (320 <=? length (Sock.pending (wire ctx)))%nat eqn:Hlen.
  - apply Nat.leb_le in Hlen.
    destruct (recv_exact_complete 320 (wire ctx) Hlen) as (s' & Hr & Hp & He).
    rewrite Hr. cbn [set_wire output_stream].
    destruct (SwitchBuffer.write (output_stream ctx)
                (firstn 320 (Sock.pending (wire ctx)))) as [n b].
    v3_fields. repeat split; auto.
  - apply Nat.leb_gt in Hlen.
    pose proof (recv_exact_spec 320 320 [] (wire ctx) ltac:(simpl; lia)) as H.
    destruct (Sock.recv_exact 320 320 [] (wire ctx)) as [[frame| | |] s'].
    + destruct H as (bs & _ & Hp & Hl & _). rewrite Hp, length_app in Hlen.
      simpl in Hl. lia.
    + destruct H as (_ & He & Hp). rewrite He. v3_fields. repeat split; auto.
    + destruct H as (_ & He & Hp). rewrite He. v3_fields. repeat split; auto.
    + contradiction.
Qed.

End V3Properties.


Section WholeFrames.

Lemma whole_frames_refl n l : whole_frames n l l.
Proof. exists []. simpl. rewrite app_nil_r. auto. Qed.

Lemma whole_frames_step n l f : length f = n -> whole_frames n l (l ++ f).
Proof.
  intros Hf. exists [f]. simpl. rewrite app_nil_r. auto.
Qed.

Lemma whole_frames_trans n a b c :
  whole_frames n a b -> whole_frames n b c -> whole_frames n a c.
Proof.
  intros (f1 & -> & H1) (f2 & -> & H2). exists (f1 ++ f2).
  rewrite concat_app, app_assoc. split; [reflexivity|].
  apply Forall_app. auto.
Qed.

Lemma whole_frames_length n old new :
  whole_frames n old new -> exists k, length new = (length old + k * n)%nat.
Proof.
  intros (frames & -> & Hall). rewrite length_app.
  induction Hall as [|f fs Hf _ [k IH]].
  - exists 0%nat. simpl. lia.
  - exists (S k). simpl. rewrite length_app. lia.
Qed.

End WholeFrames.

Section V3Thread.
Import V3.

Lemma switch_buffer_write_whole b data :
  whole_frames (length data) (SwitchBuffer.contents b)
    (SwitchBuffer.contents (snd (SwitchBuffer.write b data))).
Proof.
  unfold SwitchBuffer.write.
  destruct (_ <=? _)%nat; cbn [snd SwitchBuffer.contents].
  - apply whole_frames_step. reflexivity.
  - apply whole_frames_refl.
Qed.

Lemma control_message_keeps ctx msg :
  output_stream (control_message ctx msg) = output_stream ctx /\
  wire (control_message ctx msg) = wire ctx /\
  gateway_socket (control_message ctx msg) = gateway_socket ctx.
Proof.
  unfold control_message. destruct (strstr _ _); v3_fields; auto.
Qed.

Lemma control_path_output ctx :
  output_stream (control_path ctx) = output_stream ctx /\
  gateway_socket (control_path ctx) = gateway_socket ctx.
Proof.
  unfold control_path.
  destruct (Sock.recv (wire ctx) 4 false) as [r1 s1].
  destruct (_ && _); [|v3_fields; auto].
  destruct (Sock.recv s1 _ false) as [r2 s2].
  destruct (_ =? _); [|v3_fields; auto].
  destruct (control_message_keeps (set_wire s2 ctx) (Sock.bytes r2))
    as (Ho & _ & Hg).
  rewrite Ho, Hg. v3_fields. auto.
Qed.

Lemma audio_frame_output ctx :
  whole_frames 320 (SwitchBuffer.contents (output_stream ctx))
    (SwitchBuffer.contents (output_stream (audio_frame ctx))).
Proof.
  pose proof (audio_frame_spec ctx) as (_ & _ & H). cbv zeta in H.
  destruct (320 <=? length (Sock.pending (wire ctx)))%nat eqn:Hlen.
  - destruct H as (_ & _ & _ & ->). apply Nat.leb_le in Hlen.
    pose proof (switch_buffer_write_whole (output_stream ctx)
                  (firstn 320 (Sock.pending (wire ctx)))) as Hw.
    rewrite length_firstn in Hw.
    replace (Nat.min 320 (length (Sock.pending (wire ctx)))) with 320%nat
      in Hw by lia.
    exact Hw.
  - destruct H as (_ & -> & _). apply whole_frames_refl.
Qed.

(** One pass of the receive loop adds to the output stream a whole frame
    or nothing. *)
Lemma recv_iteration_output ctx :
  whole_frames 320 (SwitchBuffer.contents (output_stream ctx))
    (SwitchBuffer.contents (output_stream (recv_iteration ctx))) /\
  gateway_socket (recv_iteration ctx) = gateway_socket ctx.
Proof.
  unfold recv_iteration.
  destruct (Sock.recv (wire ctx) 4 true) as [header s].
  destruct (looks_like_control _ _).
  - destruct (control_path_output (set_wire s ctx)) as [-> ->].
    v3_fields. split; [apply whole_frames_refl | reflexivity].
  - split; [apply (audio_frame_output (set_wire s ctx))|].
    apply (audio_frame_spec (set_wire s ctx)).
Qed.

Lemma recv_loop_output :
  forall fuel ctx ctx',
    recv_loop fuel ctx = Some ctx' ->
    whole_frames 320 (SwitchBuffer.contents (output_stream ctx))
      (SwitchBuffer.contents (output_stream ctx')).
Proof.
  induction fuel as [|fuel IH]; intros ctx ctx'; cbn [recv_loop];
    destruct (running ctx && (0 <? gateway_socket ctx)).
  - discriminate.
  - intros [= ->]. apply whole_frames_refl.
  - intros Hrun. eapply whole_frames_trans; [|apply (IH _ _ Hrun)].
    apply recv_iteration_output.
  - intros [= ->]. apply whole_frames_refl.
Qed.

Lemma recv_not_longer s n :
  (0 < n)%nat ->
  (length (Sock.pending (snd (Sock.recv s n false))) <= length (Sock.pending s))%nat.
Proof.
  intros Hn. pose proof (recv_spec s n Hn) as H.
  destruct (Sock.recv s n false) as [[bs| |] s']; cbn [snd].
  - destruct H as (_ & _ & -> & _). rewrite length_app. lia.
  - destruct H as (_ & -> & _). lia.
  - destruct H as (_ & -> & _). lia.
Qed.

(** Each pass of the receive loop stops the thread or consumes at least
    one byte. *)
Lemma recv_iteration_progress ctx :
  running (recv_iteration ctx) = false \/
  (length (Sock.pending (wire (recv_iteration ctx)))
   < length (Sock.pending (wire ctx)))%nat.
Proof.
  unfold recv_iteration.
  pose proof (recv_peek_keeps (wire ctx) 4) as [Hpk _].
  destruct (Sock.recv (wire ctx) 4 true) as [header s] eqn:Hpeek.
  cbn [snd] in Hpk.
  destruct (looks_like_control _ _) eqn:Hlook.
  - right. unfold looks_like_control in Hlook.
    repeat (apply andb_true_iff in Hlook as [Hlook ?]).
    apply Z.eqb_eq in Hlook.
    assert (Hne : Sock.pending (wire ctx) <> []).
    { intros Hnil. unfold Sock.recv in Hpeek. rewrite Hnil in Hpeek.
      destruct (Sock.ending (wire ctx)); injection Hpeek as <- _;
        discriminate Hlook. }
    unfold control_path. cbn [wire set_wire].
    pose proof (recv_spec s 4 ltac:(lia)) as Hrecv1.
    destruct (Sock.recv s 4 false) as [[bs| |] s1].
    + destruct Hrecv1 as (Hbs & _ & Hp1 & _).
      assert (Hshort : (length (Sock.pending s1)
                        < length (Sock.pending (wire ctx)))%nat).
      { rewrite <- Hpk, Hp1, length_app.
        destruct bs; [congruence | simpl; lia]. }
      cbn [Sock.bytes].
      destruct ((0 <? be32 bs) && (be32 bs <? 1024)) eqn:Hrange;
        [|v3_fields; exact Hshort].
      apply andb_true_iff in Hrange as [Hpos _]. apply Z.ltb_lt in Hpos.
      pose proof (recv_not_longer s1 (Z.to_nat (be32 bs)) ltac:(lia)) as Hrecv2.
      destruct (Sock.recv s1 (Z.to_nat (be32 bs)) false) as [r2 s2].
      cbn [snd] in Hrecv2.
      destruct (Sock.ssize r2 =? be32 bs).
      * match goal with
        | |- context [control_message ?c ?m] =>
            destruct (control_message_keeps c m) as (_ & -> & _)
        end.
        v3_fields. lia.
      * v3_fields. lia.
    + destruct Hrecv1 as (Hnil & _). rewrite Hpk in Hnil. contradiction.
    + destruct Hrecv1 as (Hnil & _). rewrite Hpk in Hnil. contradiction.
  - pose proof (audio_frame_spec (set_wire s ctx)) as (_ & _ & H).
    cbv zeta in H. cbn [wire set_wire] in H. rewrite Hpk in H.
    destruct (320 <=? length (Sock.pending (wire ctx)))%nat eqn:Hlen.
    + right. destruct H as (-> & _). apply Nat.leb_le in Hlen.
      rewrite length_skipn. lia.
    + left. apply H.
Qed.

(** The receive loop ends: fuel beyond the number of pending bytes is
    never used up, and the thread leaves the loop with its loop test
    false. *)
Lemma recv_loop_terminates :
  forall fuel ctx,
    (length (Sock.pending (wire ctx)) < fuel)%nat ->
    exists ctx',
      recv_loop fuel ctx = Some ctx' /\
      running ctx' && (0 <? gateway_socket ctx') = false.
Proof.
  induction fuel as [|fuel IH]; intros ctx Hfuel; [lia|].
  cbn [recv_loop].
  destruct (running ctx && (0 <? gateway_socket ctx)) eqn:Htest.
  - destruct (recv_iteration_progress ctx) as [Hstop | Hless].
    + exists (recv_iteration ctx). destruct fuel; cbn [recv_loop];
        rewrite Hstop; cbn [andb]; auto.
    + apply IH. lia.
  - exists ctx. auto.
Qed.

End V3Thread.

(** ** The tagged receiver *)


Section V2Properties.
Import V2.

(** The line loop on a line that fits the buffer: the text before the
    newline is collected and the newline consumed, one byte per [recv],
    whatever the arrival schedule. *)
Lemma read_control_line :
  forall txt room ctrl_buf s rest,
    Sock.pending s = txt ++ x0a :: rest ->
    ~ In x0a txt -> (length txt < room)%nat ->
    exists s',
      read_control room ctrl_buf s = (ctrl_buf ++ txt, s') /\
      Sock.pending s' = rest /\ Sock.ending s' = Sock.ending s.
Proof.
  induction txt as [|c txt IH]; intros room ctrl_buf s rest Hp Hnl Hroom;
    (destruct room as [|room]; [simpl in Hroom; lia|]); cbn [read_control].
  - destruct (recv_one s x0a rest Hp) as (s' & -> & Hp' & He').
    cbn [Byte.eqb]. exists s'. rewrite app_nil_r. auto.
  - destruct (recv_one s c (txt ++ x0a :: rest) Hp) as (s' & -> & Hp' & He').
    destruct (Byte.eqb c x0a) eqn:Hc.
    + apply byte_dec_bl in Hc. subst c. exfalso. apply Hnl. left. reflexivity.
    + destruct (IH room (ctrl_buf ++ [c]) s' rest Hp') as (s'' & Hr & Hp'' & He'').
      * intros Hin. apply Hnl. right. exact Hin.
      * simpl in Hroom. lia.
      * exists s''. rewrite Hr, <- app_assoc. cbn [app].
        repeat split; [assumption | congruence].
Qed.

Lemma read_control_not_longer :
  forall room ctrl_buf s,
    (length (Sock.pending (snd (read_control room ctrl_buf s)))
     <= length (Sock.pending s))%nat.
Proof.
  induction room as [|room IH]; intros ctrl_buf s; cbn [read_control snd];
    [lia|].
  pose proof (recv_not_longer s 1 ltac:(lia)) as Hle.
  destruct (Sock.recv s 1 false) as [[[|b bs]| |] s']; cbn [snd] in *;
    try exact Hle.
  destruct (Byte.eqb b x0a); cbn [snd]; [exact Hle|].
  specialize (IH (ctrl_buf ++ [b]) s'). lia.
Qed.

Lemma control_message_keeps_v2 ctx buf :
  sock_fd (control_message ctx buf) = sock_fd ctx /\
  playback_queue (control_message ctx buf) = playback_queue ctx.
Proof.
  unfold control_message. destruct (strstr _ _); v2_fields; auto.
Qed.

(** What "queue for playback" does: the frame joins the end of a queue
    with room; a full queue stays as it is and the warning is logged. *)
Lemma queue_for_playback_spec ctx frame_buf :
  let ctx' := queue_for_playback ctx frame_buf in
  sock_fd ctx' = sock_fd ctx /\ running ctx' = running ctx /\
  hungup ctx' = hungup ctx /\
  SwitchQueue.capacity (playback_queue ctx') =
    SwitchQueue.capacity (playback_queue ctx) /\
  if (SwitchQueue.size (playback_queue ctx)
      <? SwitchQueue.capacity (playback_queue ctx))%nat
  then SwitchQueue.items (playback_queue ctx') =
         SwitchQueue.items (playback_queue ctx) ++ [frame_buf] /\
       log ctx' = log ctx
  else playback_queue ctx' = playback_queue ctx /\
       log ctx' = log ctx ++ [LogQueueFull].
Proof.
  unfold queue_for_playback, SwitchQueue.trypush.
  destruct (_ <? _)%nat; v2_fields; cbn [SwitchQueue.items SwitchQueue.capacity];
    repeat split; reflexivity.
Qed.

(** The audio branch, for every arrival schedule: a whole 640-byte frame
    is queued (or dropped by a full queue), or the ending of the
    connection is reported and the thread stopped with the queue
    untouched. *)
Lemma audio_frame_spec_v2 ctx :
  let ctx' := audio_frame ctx in
  if (640 <=? length (Sock.pending (sock_fd ctx)))%nat
  then
    exists s',
      Sock.pending s' = skipn 640 (Sock.pending (sock_fd ctx)) /\
      ctx' = queue_for_playback (set_sock s' ctx)
               (firstn 640 (Sock.pending (sock_fd ctx)))
  else
    running ctx' = false /\
    playback_queue ctx' = playback_queue ctx /\
    hungup ctx' = hungup ctx /\
    Sock.pending (sock_fd ctx') = [] /\
    log ctx' = log ctx ++ [LogClosedInAudio].
Proof.
  unfold audio_frame.
  destruct (640 <=? length (Sock.pending (sock_fd ctx)))%nat eqn:Hlen.
  - apply Nat.leb_le in Hlen.
    destruct (recv_exact_complete 640 (sock_fd ctx) Hlen) as (s' & Hr & Hp & He).
    rewrite Hr. exists s'. auto.
  - apply Nat.leb_gt in Hlen.
    pose proof (recv_exact_spec 640 640 [] (sock_fd ctx) ltac:(simpl; lia)) as H.
    destruct (Sock.recv_exact 640 640 [] (sock_fd ctx)) as [[frame| | |] s'].
    + destruct H as (bs & _ & Hp & Hl & _). rewrite Hp, length_app in Hlen.
      simpl in Hl. lia.
    + destruct H as (_ & He & Hp). v2_fields. repeat split; auto.
    + destruct H as (_ & He & Hp). v2_fields. repeat split; auto.
    + contradiction.
Qed.


Lemma queue_for_playback_whole ctx frame_buf :
  queue_whole ctx -> length frame_buf = 640%nat ->
  queue_whole (queue_for_playback ctx frame_buf).
Proof.
  intros Hq Hf. unfold queue_whole in *.
  pose proof (queue_for_playback_spec ctx frame_buf) as (_ & _ & _ & _ & H).
  cbv zeta in H. destruct (_ <? _)%nat.
  - destruct H as [-> _]. apply Forall_app. auto.
  - destruct H as [-> _]. exact Hq.
Qed.

Lemma audio_frame_whole ctx : queue_whole ctx -> queue_whole (audio_frame ctx).
Proof.
  intros Hq. pose proof (audio_frame_spec_v2 ctx) as H. cbv zeta in H.
  destruct (640 <=? length (Sock.pending (sock_fd ctx)))%nat eqn:Hlen.
  - destruct H as (s' & _ & ->). apply Nat.leb_le in Hlen.
    apply queue_for_playback_whole; [exact Hq|].
    rewrite length_firstn. lia.
  - destruct H as (_ & Hpq & _). unfold queue_whole. rewrite Hpq. exact Hq.
Qed.

Lemma recv_iteration_whole ctx :
  queue_whole ctx -> queue_whole (recv_iteration ctx).
Proof.
  intros Hq. unfold recv_iteration.
  destruct (Sock.recv (sock_fd ctx) 1 false) as [[[|tag bs]| |] s];
    try exact Hq.
  cbv zeta. destruct (Byte.eqb tag x01).
  - apply audio_frame_whole. exact Hq.
  - destruct (Byte.eqb tag x02); [|exact Hq].
    destruct (read_control 255 [] _) as [ctrl_buf s'].
    unfold queue_whole.
    destruct (control_message_keeps_v2 (set_sock s' (set_sock s ctx)) ctrl_buf)
      as [_ ->].
    exact Hq.
Qed.

Lemma recv_loop_whole :
  forall fuel ctx ctx',
    queue_whole ctx -> recv_loop fuel ctx = Some ctx' -> queue_whole ctx'.
Proof.
  induction fuel as [|fuel IH]; intros ctx ctx' Hq; cbn [recv_loop];
    destruct (running ctx); try discriminate; try (intros [= <-]; exact Hq).
  intros Hrun. apply (IH _ _ (recv_iteration_whole ctx Hq) Hrun).
Qed.

(** Each pass of the tagged receive loop stops the thread or consumes at
    least the tag byte. *)
Lemma recv_iteration_progress_v2 ctx :
  running (recv_iteration ctx) = false \/
  (length (Sock.pending (sock_fd (recv_iteration ctx)))
   < length (Sock.pending (sock_fd ctx)))%nat.
Proof.
  unfold recv_iteration.
  pose proof (recv_spec (sock_fd ctx) 1 ltac:(lia)) as Hr.
  destruct (Sock.recv (sock_fd ctx) 1 false) as [[[|tag bs]| |] s];
    try (left; reflexivity).
  destruct Hr as (_ & _ & Hp & _). cbv zeta.
  assert (Hs : (length (Sock.pending s)
                < length (Sock.pending (sock_fd ctx)))%nat)
    by (rewrite Hp, length_app; simpl; lia).
  destruct (Byte.eqb tag x01).
  - pose proof (audio_frame_spec_v2 (set_sock s ctx)) as H. cbv zeta in H.
    cbn [sock_fd set_sock] in H.
    destruct (640 <=? length (Sock.pending s))%nat.
    + right. destruct H as (s' & Hp' & ->).
      destruct (queue_for_playback_spec (set_sock s' (set_sock s ctx))
                  (firstn 640 (Sock.pending s))) as (-> & _).
      v2_fields. rewrite Hp', length_skipn. lia.
    + left. apply H.
  - destruct (Byte.eqb tag x02); [|right; exact Hs].
    pose proof (read_control_not_longer 255 [] (sock_fd (set_sock s ctx))) as Hle.
    destruct (read_control 255 [] _) as [ctrl_buf s']. cbn [snd] in Hle.
    right.
    match goal with
    | |- context [control_message ?c ?m] =>
        destruct (control_message_keeps_v2 c m) as [-> _]
    end.
    v2_fields. cbn [sock_fd set_sock] in Hle. lia.
Qed.

Lemma recv_loop_terminates_v2 :
  forall fuel ctx,
    (length (Sock.pending (sock_fd ctx)) < fuel)%nat ->
    exists ctx', recv_loop fuel ctx = Some ctx' /\ running ctx' = false.
Proof.
  induction fuel as [|fuel IH]; intros ctx Hfuel; [lia|].
  cbn [recv_loop]. destruct (running ctx) eqn:Hrun.
  - destruct (recv_iteration_progress_v2 ctx) as [Hstop | Hless].
    + exists (recv_iteration ctx). destruct fuel; cbn [recv_loop];
        rewrite Hstop; auto.
    + apply IH. lia.
  - exists ctx. auto.
Qed.

End V2Properties.

(** ** Handshakes *)

Section HandshakeProperties.

Lemma string_length_append (s1 s2 : string) :
  String.length (s1 ++ s2) = (String.length s1 + String.length s2)%nat.
Proof. induction s1 as [|c s1 IH]; simpl; [reflexivity | rewrite IH; reflexivity]. Qed.

Lemma substring_fits (m : nat) :
  forall s, (String.length s <= m)%nat -> substring 0 m s = s.
Proof.
  induction m as [|m IH]; intros [|c s] Hlen; simpl in *;
    try reflexivity; try lia.
  rewrite IH by lia. reflexivity.
Qed.

Lemma substring_length_le (m : nat) :
  forall s, (String.length (substring 0 m s) <= m)%nat.
Proof.
  induction m as [|m IH]; intros [|c s]; simpl; try lia.
  specialize (IH s). lia.
Qed.

(** A text that fits the buffer is formatted whole. *)
Lemma snprintf_fits size text :
  (String.length text < size)%nat -> snprintf size text = text.
Proof. intros H. apply substring_fits. lia. Qed.

Lemma handshake_line_length sid caller :
  String.length (V1.handshake_line sid caller) =
  (22 + String.length sid + String.length caller)%nat.
Proof.
  unfold V1.handshake_line. rewrite !string_length_append. simpl. lia.
Qed.

Lemma handshake_json_length sid caller :
  String.length (V3.handshake_json sid caller) =
  (78 + String.length sid + String.length caller)%nat.
Proof.
  unfold V3.handshake_json. rewrite !string_length_append. simpl. lia.
Qed.

(** C9, as stated, fails for the tagged relay: without a caller number
    its handshake carries the lower-case text [unknown]. *)
Lemma tagged_handshake_counterexample :
  V2.handshake "abc-123" None = V2.handshake_line "abc-123" "unknown" /\
  V2.handshake "abc-123" None <> V2.handshake_line "abc-123" "Unknown".
Proof. split; [reflexivity | vm_compute; discriminate]. Qed.

(** C9, amended: without a caller number the raw relay and the
    length-prefixed relay send the caller identifier [Unknown], the tagged
    relay sends [unknown]. *)
Theorem handshake_without_caller :
  (forall session_id,
      (String.length session_id <= 226)%nat ->
      V1.handshake session_id None = V1.handshake_line session_id "Unknown") /\
  (forall uuid,
      V3.handshake uuid None =
      V3.handshake_json (V3.session_id uuid) "Unknown") /\
  (forall uuid,
      (String.length uuid <= 482)%nat ->
      V2.handshake uuid None = V2.handshake_line uuid "unknown").
Proof.
  split; [|split].
  - intros sid Hlen. unfold V1.handshake. apply snprintf_fits.
    rewrite handshake_line_length. simpl. lia.
  - intros uuid. unfold V3.handshake.
    change (V3.caller_id None) with "Unknown"%string.
    apply snprintf_fits. rewrite handshake_json_length.
    pose proof (substring_length_le 127 uuid) as Hsid.
    unfold V3.session_id, snprintf. simpl Nat.sub. simpl String.length. lia.
  - intros uuid Hlen. unfold V2.handshake. apply snprintf_fits.
    change (V2.handshake_line uuid "unknown")
      with (V1.handshake_line uuid "unknown").
    rewrite handshake_line_length. simpl. lia.
Qed.

Lemma handshake_without_caller_witness :
  V1.handshake "abc-123" None = V1.handshake_line "abc-123" "Unknown" /\
  V2.handshake "abc-123" None = V2.handshake_line "abc-123" "unknown".
Proof.
  destruct handshake_without_caller as (H1 & _ & H2).
  split; [apply H1 | apply H2]; simpl; lia.
Defined.

End HandshakeProperties.

(** ** Playback *)

Section PlaybackProperties.
Import V3.

Lemma linear2ulaw_byte s : 0 <= Codec.linear2ulaw s < 256.
Proof. unfold Codec.linear2ulaw, to_uint8. apply Z.mod_pos_bound. lia. Qed.

Lemma pcm16_to_ulaw_frame bot_buf :
  length (Codec.pcm16_to_ulaw (pcm16_samples bot_buf)) = 160%nat /\
  Forall (fun u => 0 <= u < 256) (Codec.pcm16_to_ulaw (pcm16_samples bot_buf)).
Proof.
  unfold Codec.pcm16_to_ulaw, pcm16_samples. split.
  - rewrite !length_map, length_seq. reflexivity.
  - apply Forall_map, Forall_forall. intros s _. apply linear2ulaw_byte.
Qed.

(** [dequeue_bot_frame] hands out a frame exactly when 320 bytes are
    buffered: then the first 320 bytes, leaving the rest; otherwise
    nothing, leaving the session as it is. *)
Lemma dequeue_bot_frame_spec ctx :
  let buffered := SwitchBuffer.contents (output_stream ctx) in
  match dequeue_bot_frame ctx with
  | (Some (buf, len), ctx') =>
      (320 <= length buffered)%nat /\ buf = firstn 320 buffered /\
      len = 320%nat /\
      SwitchBuffer.contents (output_stream ctx') = skipn 320 buffered
  | (None, ctx') => (length buffered < 320)%nat /\ ctx' = ctx
  end.
Proof.
  unfold dequeue_bot_frame, SwitchBuffer.inuse, SwitchBuffer.read. cbv zeta.
  destruct (320 <=? length (SwitchBuffer.contents (output_stream ctx)))%nat
    eqn:Hlen.
  - apply Nat.leb_le in Hlen. v3_fields. cbn [SwitchBuffer.contents].
    repeat split; [exact Hlen|]. rewrite length_firstn. lia.
  - apply Nat.leb_gt in Hlen. auto.
Qed.

(** C10: playback takes the output stream in whole frames.
    [dequeue_bot_frame] yields audio exactly when at least 320 bytes are
    buffered and then takes exactly the first 320; a frame written to the
    caller is 160 mu-law bytes for 160 samples at 8 kHz and costs the
    stream exactly 320 bytes; when no frame is written the stream is left
    as it was. *)
Theorem playback_whole_frames (ctx : nova_session_t) :
  let buffered := SwitchBuffer.contents (output_stream ctx) in
  (match dequeue_bot_frame ctx with
   | (Some (buf, len), ctx') =>
       (320 <= length buffered)%nat /\ buf = firstn 320 buffered /\
       len = 320%nat /\ length buf = 320%nat /\
       SwitchBuffer.contents (output_stream ctx') = skipn 320 buffered
   | (None, ctx') => (length buffered < 320)%nat /\ ctx' = ctx
   end) /\
  (forall media_ready write_codec,
      match play_bot_audio media_ready write_codec ctx with
      | (Some write_frame, ctx') =>
          length (data write_frame) = 160%nat /\
          Forall (fun u => 0 <= u < 256) (data write_frame) /\
          datalen write_frame = 160%nat /\ samples write_frame = 160%nat /\
          rate write_frame = 8000 /\
          (320 <= length buffered)%nat /\
          SwitchBuffer.contents (output_stream ctx') = skipn 320 buffered
      | (None, ctx') =>
          output_stream ctx' = output_stream ctx /\
          (media_ready && write_codec = true -> (length buffered < 320)%nat)
      end).
Proof.
  cbv zeta. pose proof (dequeue_bot_frame_spec ctx) as Hd. cbv zeta in Hd.
  split.
  - destruct (dequeue_bot_frame ctx) as [[[buf len]|] ctx']; [|exact Hd].
    destruct Hd as (Hlen & -> & -> & Hrest).
    repeat split; try assumption. rewrite length_firstn. lia.
  - intros media_ready write_codec. unfold play_bot_audio.
    destruct (media_ready && write_codec); [|split; [reflexivity | discriminate]].
    destruct (dequeue_bot_frame ctx) as [[[buf len]|] ctx'].
    + destruct Hd as (Hlen & -> & -> & Hrest). cbn [Nat.leb].
      replace (320 <=? 320)%nat with true by (symmetry; apply Nat.leb_refl).
      cbn [data datalen samples rate].
      destruct (pcm16_to_ulaw_frame
                  (firstn 320 (SwitchBuffer.contents (output_stream ctx))))
        as [Hl Hb].
      repeat split; assumption.
    + destruct Hd as [Hlen ->]. auto.
Qed.

(** 400 buffered bytes: one frame is played and the residue of 80 bytes
    stays in the stream. *)
Lemma playback_whole_frames_witness :
  let ctx :=
    V3.mk 5 (Sock.carrying [] 0 [] Sock.PeerClosed)
      (SwitchBuffer.mk (repeat x00 400) (Z.to_nat 32768)) true None [] in
  match play_bot_audio true true ctx with
  | (Some write_frame, ctx') =>
      length (data write_frame) = 160%nat /\
      length (SwitchBuffer.contents (output_stream ctx')) = 80%nat
  | (None, _) => False
  end.
Proof.
  cbv zeta.
  destruct (playback_whole_frames
              (V3.mk 5 (Sock.carrying [] 0 [] Sock.PeerClosed)
                 (SwitchBuffer.mk (repeat x00 400) (Z.to_nat 32768)) true
                 None [])) as [_ Hplay].
  specialize (Hplay true true). cbn [output_stream SwitchBuffer.contents] in Hplay.
  destruct (play_bot_audio true true _) as [[write_frame|] ctx'].
  - destruct Hplay as (Hlen & _ & _ & _ & _ & _ & Hrest).
    split; [exact Hlen|]. rewrite Hrest. reflexivity.
  - destruct Hplay as [_ Hshort]. specialize (Hshort eq_refl).
    rewrite repeat_length in Hshort. lia.
Defined.

End PlaybackProperties.


Section FramingTheorems.

(** C1: a control message that reaches the relay in two pieces.  With all
    21 bytes of the hangup frame in the receive buffer the receiver
    consumes the prefix and the 17 bytes of text and hangs up.  With only
    the first 12 there, the single [recv] for the text returns 8 bytes:
    the receiver has consumed 4 + 8 bytes, drops them, and leaves the last
    9 bytes of the message to be read as the next header; no hangup is
    signalled. *)
Theorem control_frame_in_two_pieces :
  let whole :=
    V3.recv_iteration
      (v3_session (Sock.carrying hangup_frame 21 [] Sock.PeerClosed)) in
  let split :=
    V3.recv_iteration
      (v3_session (Sock.carrying hangup_frame 12 [0; 0; 0]%nat Sock.PeerClosed)) in
  V3.be32 (firstn 4 hangup_frame) = 17 /\
  (Sock.pending (V3.wire whole) = [] /\
   V3.hungup whole = Some SWITCH_CAUSE_NORMAL_CLEARING /\
   V3.running whole = false) /\
  (Sock.pending (V3.wire split) = skipn 12 hangup_frame /\
   V3.hungup split = None /\ V3.running split = true /\ V3.log split = []).
Proof. vm_compute. repeat split. Qed.

(** A prefix that has only half arrived when the receiver peeks is not
    read as a header at all: the peek returns 2 bytes, the message is
    read as the start of an audio frame, and the close of the connection
    ends the thread without a hangup. *)
Lemma control_frame_short_peek :
  let ctx :=
    V3.recv_iteration
      (v3_session (Sock.carrying hangup_frame 2 [0; 19]%nat Sock.PeerClosed)) in
  Sock.pending (V3.wire ctx) = [] /\ V3.hungup ctx = None /\
  V3.running ctx = false /\ V3.log ctx = [V3.LogGatewayClosed].
Proof. vm_compute. repeat split. Qed.

(** Ten silent frames followed by the hangup message, all delivered: the
    thread queues the ten frames, hangs up and ends. *)
Lemma silent_frames_then_hangup :
  match V3.nova_recv_thread 12
          (v3_session
             (Sock.carrying (repeat x00 3200 ++ hangup_frame) 3221 []
                Sock.PeerClosed)) with
  | Some ctx =>
      SwitchBuffer.contents (V3.output_stream ctx) = repeat x00 3200 /\
      V3.hungup ctx = Some SWITCH_CAUSE_NORMAL_CLEARING /\
      V3.running ctx = false
  | None => False
  end.
Proof. vm_compute. repeat split. Qed.

(** The other arm of the heuristic, for every arrival schedule: a header
    whose value is 0, 320, or 1024 and more starts a raw audio frame; the
    next 320 bytes go to the output stream and no control message is
    handled. *)
Lemma audio_frame_by_header ctx hdr :
  hdr = Sock.bytes (fst (Sock.recv (V3.wire ctx) 4 true)) ->
  V3.be32 hdr = 0 \/ V3.be32 hdr = 320 \/ 1024 <= V3.be32 hdr ->
  (320 <= length (Sock.pending (V3.wire ctx)))%nat ->
  let ctx' := V3.recv_iteration ctx in
  Sock.pending (V3.wire ctx') = skipn 320 (Sock.pending (V3.wire ctx)) /\
  V3.output_stream ctx' =
    snd (SwitchBuffer.write (V3.output_stream ctx)
           (firstn 320 (Sock.pending (V3.wire ctx)))) /\
  V3.log ctx' = V3.log ctx ++ [V3.LogAudioReceived] /\
  V3.running ctx' = V3.running ctx /\ V3.hungup ctx' = V3.hungup ctx.
Proof.
  intros -> Hv Hlen. cbv zeta. unfold V3.recv_iteration.
  pose proof (recv_peek_keeps (V3.wire ctx) 4) as [Hpk _].
  destruct (Sock.recv (V3.wire ctx) 4 true) as [header s]. cbn [fst snd] in *.
  assert (Hlook : V3.looks_like_control (Sock.ssize header)
                    (V3.be32 (Sock.bytes header)) = false).
  { unfold V3.looks_like_control.
    destruct (Sock.ssize header =? 4); [|reflexivity].
    destruct Hv as [Hv | [Hv | Hv]]; try (rewrite Hv; reflexivity).
    replace (V3.be32 (Sock.bytes header) <? 1024) with false
      by (symmetry; apply Z.ltb_ge; exact Hv).
    destruct (0 <? V3.be32 (Sock.bytes header)); reflexivity. }
  rewrite Hlook.
  pose proof (audio_frame_spec (V3.set_wire s ctx)) as (_ & Hh & H).
  cbv zeta in H. cbn [V3.wire V3.set_wire] in H. rewrite Hpk in H.
  apply Nat.leb_le in Hlen. rewrite Hlen in H.
  destruct H as (Hp & Hr & Hl & Ho). repeat split; assumption.
Qed.

(** C5, as stated, fails: after tag 0x01 followed by 320 bytes of audio
    and 320 further bytes, the receiver has consumed all 640 bytes and
    queued them as one frame. *)
Lemma tagged_audio_320_counterexample :
  ~ (forall ctx payload rest,
        Sock.pending (V2.sock_fd ctx) = x01 :: payload ++ rest ->
        length payload = 320%nat ->
        Sock.pending (V2.sock_fd (V2.recv_iteration ctx)) = rest).
Proof.
  intros Hclaim.
  specialize (Hclaim
    (V2.new_ctx (Sock.carrying (x01 :: repeat x00 320 ++ repeat xff 320) 0 []
                   Sock.PeerClosed))
    (repeat x00 320) (repeat xff 320) eq_refl (repeat_length _ _)).
  vm_compute in Hclaim. discriminate Hclaim.
Qed.

(** C5, amended: after tag 0x01 the receiver consumes exactly 640 payload
    bytes as the audio frame, for every arrival schedule; the frame joins
    the playback queue, or is dropped with a warning when the queue is
    full. *)
Theorem tagged_audio_frame (ctx : V2.nova_ctx_t) (payload rest : list byte) :
  Sock.pending (V2.sock_fd ctx) = x01 :: payload ++ rest ->
  length payload = 640%nat ->
  let ctx' := V2.recv_iteration ctx in
  Sock.pending (V2.sock_fd ctx') = rest /\
  V2.running ctx' = V2.running ctx /\
  if (occupied ctx <? capacity ctx)%nat
  then SwitchQueue.items (V2.playback_queue ctx') =
         SwitchQueue.items (V2.playback_queue ctx) ++ [payload] /\
       V2.log ctx' = V2.log ctx
  else V2.playback_queue ctx' = V2.playback_queue ctx /\
       V2.log ctx' = V2.log ctx ++ [V2.LogQueueFull].
Proof.
  intros Hp Hlen. cbv zeta. unfold V2.recv_iteration.
  destruct (recv_one _ _ _ Hp) as (s & -> & Hps & _). cbv zeta.
  change (Byte.eqb x01 x01) with true. cbv iota.
  remember (V2.set_sock s ctx) as c1 eqn:Hc1.
  assert (Hs1 : V2.sock_fd c1 = s) by (subst c1; reflexivity).
  pose proof (audio_frame_spec_v2 c1) as H. cbv zeta in H.
  rewrite Hs1, Hps in H.
  replace (640 <=? length (payload ++ rest))%nat with true in H
    by (symmetry; apply Nat.leb_le; rewrite length_app; lia).
  destruct H as (s' & Hp' & ->).
  rewrite <- Hlen, firstn_exact. rewrite <- Hlen, skipn_exact in Hp'.
  pose proof (queue_for_playback_spec (V2.set_sock s' c1) payload)
    as (Hs & Hr & _ & _ & Hq).
  cbv zeta in Hq. rewrite Hs, Hr. subst c1. v2_fields.
  split; [exact Hp'|]. split; [reflexivity|].
  cbn [V2.playback_queue V2.set_sock V2.log] in Hq. exact Hq.
Qed.

Lemma tagged_audio_frame_witness :
  let s := Sock.carrying (x01 :: repeat x00 640 ++ [x02]) 3 [2; 5]%nat
             Sock.PeerClosed in
  Sock.pending (V2.sock_fd (V2.recv_iteration (V2.new_ctx s))) = [x02].
Proof.
  cbv zeta.
  apply (tagged_audio_frame
           (V2.new_ctx (Sock.carrying (x01 :: repeat x00 640 ++ [x02]) 3
                          [2; 5]%nat Sock.PeerClosed))
           (repeat x00 640) [x02]).
  - reflexivity.
  - apply repeat_length.
Defined.

End FramingTheorems.

Section ControlTheorems.

(** C6, as stated, fails in both directions.  In the tagged relay the
    plain line [hangup], which is no JSON and holds no
    [\"type\":\"hangup\"], ends the call; in the length-prefixed relay the
    text [hangup] leaves the session running. *)
Lemma hangup_criteria_counterexample :
  let tagged :=
    V2.recv_iteration
      (V2.new_ctx (Sock.carrying (x02 :: hangup_word ++ [x0a]) 0 []
                     Sock.PeerClosed)) in
  let prefixed :=
    V3.recv_iteration
      (v3_session (Sock.carrying ([x00; x00; x00; x06] ++ hangup_word) 10 []
                     Sock.PeerClosed)) in
  (~ contains hangup_word hangup_json /\
   V2.running tagged = false /\
   V2.hungup tagged = Some SWITCH_CAUSE_NORMAL_CLEARING) /\
  (contains hangup_word hangup_word /\
   V3.running prefixed = true /\ V3.hungup prefixed = None).
Proof.
  cbv zeta. split; split.
  - apply strstr_false_iff. vm_compute. reflexivity.
  - vm_compute. split; reflexivity.
  - exists [], []. rewrite app_nil_r. reflexivity.
  - vm_compute. split; reflexivity.
Qed.

Lemma control_message_v2_spec ctx txt :
  ~ In x00 txt ->
  let ctx' := V2.control_message ctx txt in
  (contains txt hangup_word ->
   V2.running ctx' = false /\
   V2.hungup ctx' = Some SWITCH_CAUSE_NORMAL_CLEARING) /\
  (~ contains txt hangup_word ->
   V2.running ctx' = V2.running ctx /\ V2.hungup ctx' = V2.hungup ctx).
Proof.
  intros Hnul. cbv zeta. unfold V2.control_message.
  rewrite (c_str_no_nul txt Hnul).
  destruct (strstr txt hangup_word) eqn:Hfind.
  - apply strstr_spec in Hfind. split; [intros _ | contradiction].
    v2_fields. auto.
  - apply strstr_false_iff in Hfind. split; [contradiction | auto].
Qed.

Lemma control_message_v3_spec ctx txt :
  ~ In x00 txt ->
  let ctx' := V3.control_message ctx txt in
  (contains txt hangup_json ->
   V3.running ctx' = false /\
   V3.hungup ctx' = Some SWITCH_CAUSE_NORMAL_CLEARING) /\
  (~ contains txt hangup_json ->
   V3.running ctx' = V3.running ctx /\ V3.hungup ctx' = V3.hungup ctx).
Proof.
  intros Hnul. cbv zeta. unfold V3.control_message. cbv zeta.
  rewrite (c_str_no_nul txt Hnul).
  destruct (strstr txt hangup_json) eqn:Hfind.
  - apply strstr_spec in Hfind. split; [intros _ | contradiction].
    v3_fields. auto.
  - apply strstr_false_iff in Hfind. split; [contradiction | auto].
Qed.

(** C6, amended: a received control frame whose text holds no NUL byte
    ends the call (the channel is hung up and [running] cleared) exactly
    when, in the tagged relay (tag 0x02 followed by a line of fewer than
    255 bytes ended by a newline), its line contains [hangup], or, in the
    length-prefixed relay (a four-byte length v with 0 < v < 1024 and v
    other than 320 followed by v bytes of text, all 4 + v bytes having
    arrived when the receiver peeks the length), its text contains
    [\"type\":\"hangup\"]; any other control frame under these conditions
    leaves [running] and the channel as they were. *)
Theorem hangup_criteria :
  (forall ctx txt rest,
      Sock.pending (V2.sock_fd ctx) = x02 :: txt ++ x0a :: rest ->
      ~ In x0a txt -> ~ In x00 txt -> (length txt < 255)%nat ->
      let ctx' := V2.recv_iteration ctx in
      (contains txt hangup_word ->
       V2.running ctx' = false /\
       V2.hungup ctx' = Some SWITCH_CAUSE_NORMAL_CLEARING) /\
      (~ contains txt hangup_word ->
       V2.running ctx' = V2.running ctx /\ V2.hungup ctx' = V2.hungup ctx)) /\
  (forall ctx hdr txt rest,
      Sock.pending (V3.wire ctx) = hdr ++ txt ++ rest ->
      length hdr = 4%nat -> V3.be32 hdr = Z.of_nat (length txt) ->
      (0 < length txt < 1024)%nat -> length txt <> 320%nat ->
      (4 + length txt <= Sock.arrived (V3.wire ctx))%nat ->
      ~ In x00 txt ->
      let ctx' := V3.recv_iteration ctx in
      (contains txt hangup_json ->
       V3.running ctx' = false /\
       V3.hungup ctx' = Some SWITCH_CAUSE_NORMAL_CLEARING) /\
      (~ contains txt hangup_json ->
       V3.running ctx' = V3.running ctx /\ V3.hungup ctx' = V3.hungup ctx)).
Proof.
  split.
  - intros ctx txt rest Hp Hnl Hnul Hlen. cbv zeta.
    unfold V2.recv_iteration.
    destruct (recv_one _ _ _ Hp) as (s & -> & Hps & _). cbv zeta.
    change (Byte.eqb x02 x01) with false.
    change (Byte.eqb x02 x02) with true. cbv iota.
    destruct (read_control_line txt 255 [] (V2.sock_fd (V2.set_sock s ctx)) rest)
      as (s' & -> & _); [exact Hps | exact Hnl | exact Hlen |].
    cbn [app].
    apply (control_message_v2_spec (V2.set_sock s' (V2.set_sock s ctx)) txt Hnul).
  - intros ctx hdr txt rest Hp Hh Hv Hrange Hne Harr Hnul. cbv zeta.
    destruct (control_frame_delivered ctx hdr txt rest Hp Hh Hv Hrange Hne Harr)
      as (s' & -> & _).
    apply (control_message_v3_spec (V3.set_wire s' ctx) txt Hnul).
Qed.

Lemma hangup_criteria_witness :
  V2.running
    (V2.recv_iteration
       (V2.new_ctx
          (Sock.carrying (x02 :: hangup_word ++ x0a :: [x01]) 1 [1; 3]%nat
             Sock.PeerClosed))) = false /\
  V3.running
    (V3.recv_iteration
       (v3_session (Sock.carrying hangup_frame 21 [] Sock.PeerClosed))) = false.
Proof.
  destruct hangup_criteria as [Htagged Hprefixed]. split.
  - apply (Htagged
             (V2.new_ctx
                (Sock.carrying (x02 :: hangup_word ++ x0a :: [x01]) 1
                   [1; 3]%nat Sock.PeerClosed))
             hangup_word [x01]).
    + reflexivity.
    + vm_compute. intuition discriminate.
    + vm_compute. intuition discriminate.
    + vm_compute. lia.
    + exists [], []. rewrite app_nil_r. reflexivity.
  - apply (Hprefixed
             (v3_session (Sock.carrying hangup_frame 21 [] Sock.PeerClosed))
             [x00; x00; x00; x11]
             (list_byte_of_string "{" ++ hangup_json ++ list_byte_of_string "}")
             []).
    + vm_compute. reflexivity.
    + reflexivity.
    + vm_compute. reflexivity.
    + vm_compute. lia.
    + vm_compute. discriminate.
    + vm_compute. lia.
    + vm_compute. intuition discriminate.
    + exists (list_byte_of_string "{"), (list_byte_of_string "}").
      reflexivity.
Defined.

End ControlTheorems.

Section QueueTheorems.

Lemma play_bot_audio_queue ctx :
  capacity (snd (V2.play_bot_audio ctx)) = capacity ctx /\
  (occupied (snd (V2.play_bot_audio ctx)) <= occupied ctx)%nat.
Proof.
  unfold V2.play_bot_audio, SwitchQueue.trypop, occupied, capacity,
    SwitchQueue.size.
  destruct (SwitchQueue.items (V2.playback_queue ctx)) eqn:Hq; v2_fields;
    cbn [SwitchQueue.items SwitchQueue.capacity]; rewrite ?Hq; simpl; auto.
Qed.

Lemma queue_for_playback_bounded ctx frame_buf :
  (occupied ctx <= capacity ctx)%nat ->
  capacity (V2.queue_for_playback ctx frame_buf) = capacity ctx /\
  (occupied (V2.queue_for_playback ctx frame_buf) <= capacity ctx)%nat.
Proof.
  intros Hb. unfold occupied, capacity, SwitchQueue.size in *.
  pose proof (queue_for_playback_spec ctx frame_buf) as (_ & _ & _ & Hc & H).
  cbv zeta in H. split; [exact Hc|].
  unfold SwitchQueue.size in H.
  destruct (_ <? _)%nat eqn:Hroom.
  - apply Nat.ltb_lt in Hroom. destruct H as [-> _].
    rewrite length_app. simpl. lia.
  - destruct H as [-> _]. exact Hb.
Qed.

Lemma recv_iteration_bounded ctx :
  (occupied ctx <= capacity ctx)%nat ->
  capacity (V2.recv_iteration ctx) = capacity ctx /\
  (occupied (V2.recv_iteration ctx) <= capacity ctx)%nat.
Proof.
  intros Hb. unfold V2.recv_iteration.
  destruct (Sock.recv (V2.sock_fd ctx) 1 false) as [[[|tag bs]| |] s];
    try (split; [reflexivity | exact Hb]).
  cbv zeta. destruct (Byte.eqb tag x01).
  - pose proof (audio_frame_spec_v2 (V2.set_sock s ctx)) as H. cbv zeta in H.
    destruct (640 <=? _)%nat.
    + destruct H as (s' & _ & ->).
      apply (queue_for_playback_bounded (V2.set_sock s' (V2.set_sock s ctx))).
      exact Hb.
    + destruct H as (_ & Hq & _). unfold occupied, capacity. rewrite Hq.
      split; [reflexivity | exact Hb].
  - destruct (Byte.eqb tag x02); [|split; [reflexivity | exact Hb]].
    destruct (V2.read_control 255 [] _) as [ctrl_buf s'].
    unfold occupied, capacity.
    match goal with
    | |- context [V2.control_message ?c ?m] =>
        destruct (control_message_keeps_v2 c m) as [_ ->]
    end.
    split; [reflexivity | exact Hb].
Qed.

Lemma v2_run_bounded turns :
  forall ctx,
    (occupied ctx <= capacity ctx)%nat ->
    capacity (v2_run ctx turns) = capacity ctx /\
    (occupied (v2_run ctx turns) <= capacity ctx)%nat.
Proof.
  induction turns as [|t turns IH]; intros ctx Hb; cbn [v2_run fold_left].
  - auto.
  - assert (Hstep : capacity (v2_step ctx t) = capacity ctx /\
                    (occupied (v2_step ctx t) <= capacity ctx)%nat).
    { destruct t; cbn [v2_step].
      - destruct (V2.running ctx); [apply recv_iteration_bounded; exact Hb | auto].
      - pose proof (play_bot_audio_queue ctx) as [Hc Ho]. split; [exact Hc | lia]. }
    destruct Hstep as [Hc Ho].
    destruct (IH (v2_step ctx t)) as [Hc' Ho']; [lia|].
    unfold v2_run in *. split; [congruence | lia].
Qed.

(** C8: the playback queue of the tagged relay is bounded.  However the
    receive thread's passes and the media loop's playback ticks take
    turns, the queue holds between 0 and its capacity of 100 frames; and a
    frame that arrives when the queue is full is dropped with the
    warning logged, the queue staying exactly as it was. *)
Theorem playback_queue_bounded (s : Sock.t) (turns : list v2_turn) :
  let ctx := v2_run (V2.new_ctx s) turns in
  capacity ctx = 100%nat /\
  (0 <= occupied ctx <= capacity ctx)%nat /\
  (forall frame_buf,
      occupied ctx = capacity ctx ->
      V2.playback_queue (V2.queue_for_playback ctx frame_buf)
      = V2.playback_queue ctx /\
      V2.log (V2.queue_for_playback ctx frame_buf)
      = V2.log ctx ++ [V2.LogQueueFull]).
Proof.
  cbv zeta.
  destruct (v2_run_bounded turns (V2.new_ctx s)) as [Hc Ho].
  { apply Nat.le_0_l. }
  change (capacity (V2.new_ctx s)) with 100%nat in *.
  split; [exact Hc|]. split; [lia|].
  intros frame_buf Hfull.
  pose proof (queue_for_playback_spec (v2_run (V2.new_ctx s) turns) frame_buf)
    as (_ & _ & _ & _ & H).
  cbv zeta in H. fold (occupied (v2_run (V2.new_ctx s) turns)) in H.
  fold (capacity (v2_run (V2.new_ctx s) turns)) in H.
  replace (occupied (v2_run (V2.new_ctx s) turns)
           <? capacity (v2_run (V2.new_ctx s) turns))%nat with false in H
    by (symmetry; apply Nat.ltb_ge; lia).
  exact H.
Qed.

(** The queue filled by 100 frames: the frame that arrives next is
    dropped. *)
Lemma playback_queue_bounded_witness :
  let s := Sock.carrying (concat (repeat (x01 :: repeat x00 640) 101)) 0 []
             Sock.PeerClosed in
  let ctx := v2_run (V2.new_ctx s) (repeat RecvPass 100) in
  occupied ctx = capacity ctx /\
  V2.playback_queue (V2.queue_for_playback ctx (repeat xff 640))
  = V2.playback_queue ctx.
Proof.
  cbv zeta.
  destruct (playback_queue_bounded
              (Sock.carrying (concat (repeat (x01 :: repeat x00 640) 101)) 0 []
                 Sock.PeerClosed)
              (repeat RecvPass 100)) as (_ & _ & Hfull).
  cbv zeta in Hfull.
  assert (Hocc :
    occupied (v2_run
                (V2.new_ctx
                   (Sock.carrying
                      (concat (repeat (x01 :: repeat x00 640) 101)) 0 []
                      Sock.PeerClosed))
                (repeat RecvPass 100))
    = capacity (v2_run
                  (V2.new_ctx
                     (Sock.carrying
                        (concat (repeat (x01 :: repeat x00 640) 101)) 0 []
                        Sock.PeerClosed))
                  (repeat RecvPass 100))) by (vm_compute; reflexivity).
  split; [exact Hocc | apply Hfull; exact Hocc].
Defined.

End QueueTheorems.

(* ================================================================== *)
(** * Further properties of the relays *)

(** ** More on the codec *)

Section CodecMore.
Import Codec.

Lemma odd_symmetry_all :
  forallb (fun u =>
             let u' := to_uint8 (Z.lnot u) in
             let t := Z.shiftl (Z.shiftl (Z.land u' 0x0F) 3 + 0x84)
                               (Z.shiftr (Z.land u' 0x70) 4) in
             (ulaw2linear (Z.lxor u 0x80) =? - ulaw2linear u)
             && (-32124 <=? ulaw2linear u) && (ulaw2linear u <=? 32124)
             && (ulaw2linear u
                 =? (if Z.land u' 0x80 =? 0 then t - 0x84 else 0x84 - t)))
          (range 0 256) = true.
Proof. vm_compute. reflexivity. Qed.

(** X1: the expansion is odd in the sign bit and never wraps: flipping
    bit 7 of a byte negates its sample, every sample lies between -32124
    and 32124, and the sample is the value [t - 0x84] or [0x84 - t]
    itself, so that the cast to [int16_t] changes nothing. *)
Theorem ulaw2linear_odd (u : Z) :
  0 <= u < 256 ->
  ulaw2linear (Z.lxor u 0x80) = - ulaw2linear u /\
  -32124 <= ulaw2linear u <= 32124 /\
  let u' := to_uint8 (Z.lnot u) in
  let t := Z.shiftl (Z.shiftl (Z.land u' 0x0F) 3 + 0x84)
                    (Z.shiftr (Z.land u' 0x70) 4) in
  ulaw2linear u = (if Z.land u' 0x80 =? 0 then t - 0x84 else 0x84 - t).
Proof.
  intros Hu.
  pose proof (range_forallb _ _ _ odd_symmetry_all u ltac:(simpl; lia)) as H.
  cbv beta zeta in H.
  apply andb_true_iff in H as [H Hcast].
  apply andb_true_iff in H as [H Hhi].
  apply andb_true_iff in H as [Hodd Hlo].
  cbv zeta. repeat split; lia.
Qed.

Lemma ulaw2linear_odd_witness :
  ulaw2linear 0x9F = - ulaw2linear 0x1F /\
  -32124 <= ulaw2linear 0x1F <= 32124.
Proof.
  destruct (ulaw2linear_odd 0x1F) as (Hodd & Hrange & _); [lia|].
  split; [exact Hodd | exact Hrange].
Defined.

Lemma transcode_all :
  forallb (fun u => (Z.land u 0x70 =? 0x70) || (linear2ulaw (ulaw2linear u) =? u))
          (range 0 256) = true.
Proof. vm_compute. reflexivity. Qed.

Lemma transcode_byte u :
  upper_segment u -> linear2ulaw (ulaw2linear u) = u.
Proof.
  intros [Hu Hseg].
  pose proof (range_forallb _ _ _ transcode_all u ltac:(simpl; lia)) as H.
  cbv beta in H. apply orb_true_iff in H as [H | H].
  - apply Z.eqb_eq in H. contradiction.
  - apply Z.eqb_eq in H. exact H.
Qed.

Lemma transcode_bytes (block : list Z) :
  Forall upper_segment block ->
  map linear2ulaw (map ulaw2linear block) = block.
Proof.
  intros Hall. induction Hall as [|u block Hu _ IH]; [reflexivity|].
  cbn [map]. rewrite IH, (transcode_byte u Hu). reflexivity.
Qed.

(** X2: expanding a block of mu-law bytes and compressing it again gives
    the block back, provided no byte lies in the lowest segment (exponent
    bits of the stored byte all set). *)
Theorem transcode_block (block : list Z) :
  Forall upper_segment block ->
  pcm16_to_ulaw (ulaw_to_pcm16 block) = block /\
  length (ulaw_to_pcm16 block) = length block.
Proof.
  intros Hall. split.
  - apply transcode_bytes. exact Hall.
  - unfold ulaw_to_pcm16. apply length_map.
Qed.

Lemma transcode_block_witness :
  pcm16_to_ulaw (ulaw_to_pcm16 [0x00; 0x1F; 0x80; 0xE5]) = [0x00; 0x1F; 0x80; 0xE5].
Proof.
  apply (transcode_block [0x00; 0x1F; 0x80; 0xE5]).
  repeat constructor; try lia; vm_compute; discriminate.
Defined.

Lemma roundtrip_steps :
  forallb (fun s => roundtrip s <=? roundtrip (s + 1))
          (range (-32767) (Z.to_nat 65534)) = true.
Proof. vm_compute. reflexivity. Qed.

Lemma roundtrip_step s :
  -32767 <= s < 32767 -> roundtrip s <= roundtrip (s + 1).
Proof.
  intros Hs. apply Z.leb_le.
  apply (range_forallb (fun s => roundtrip s <=? roundtrip (s + 1)) _ _
           roundtrip_steps).
  rewrite Z2Nat.id by lia. lia.
Qed.

(** X3: compression followed by expansion keeps the order of samples:
    away from -32768, a sample that is not smaller does not come back
    smaller. *)
Theorem roundtrip_monotone (s t : Z) :
  off_minimum s -> off_minimum t -> s <= t -> roundtrip s <= roundtrip t.
Proof.
  unfold off_minimum. intros Hs Ht Hst.
  replace t with (s + Z.of_nat (Z.to_nat (t - s))) in * by lia.
  induction (Z.to_nat (t - s)) as [|n IH].
  - rewrite Z.add_0_r. lia.
  - rewrite Nat2Z.inj_succ in *.
    transitivity (roundtrip (s + Z.of_nat n)); [apply IH; lia|].
    replace (s + Z.succ (Z.of_nat n)) with (s + Z.of_nat n + 1) by lia.
    apply roundtrip_step. lia.
Qed.

Lemma roundtrip_monotone_witness : roundtrip (-5) <= roundtrip 700.
Proof. apply roundtrip_monotone; unfold off_minimum; lia. Defined.

Lemma sign_symmetry_all :
  forallb (fun s => (linear2ulaw (- s) =? linear2ulaw s - 0x80) &&
                    (0x80 <=? linear2ulaw s) &&
                    (roundtrip (- s) =? - roundtrip s) && (0 <? roundtrip s))
          (range 1 (Z.to_nat 32767)) = true.
Proof. vm_compute. reflexivity. Qed.

(** X4: the compression keeps the sign apart from the magnitude: for a
    positive sample the byte has bit 7 set, the negated sample gives the
    same byte with bit 7 clear, and the two come back from the round trip
    as a positive value and its negative. *)
Theorem linear2ulaw_sign (s : Z) :
  1 <= s <= 32767 ->
  0x80 <= linear2ulaw s < 256 /\
  linear2ulaw (- s) = linear2ulaw s - 0x80 /\
  0 < roundtrip s /\ roundtrip (- s) = - roundtrip s.
Proof.
  intros Hs.
  pose proof (range_forallb _ _ _ sign_symmetry_all s) as H.
  rewrite Z2Nat.id in H by lia. specialize (H ltac:(lia)). cbv beta in H.
  repeat (apply andb_true_iff in H as [H ?]).
  apply Z.eqb_eq in H. apply Z.leb_le in H2. apply Z.eqb_eq in H1.
  apply Z.ltb_lt in H0.
  assert (linear2ulaw s < 256)
    by (unfold linear2ulaw, to_uint8; apply Z.mod_pos_bound; lia).
  auto.
Qed.

Lemma linear2ulaw_sign_witness :
  linear2ulaw (- 1000) = linear2ulaw 1000 - 0x80.
Proof. apply (linear2ulaw_sign 1000). lia. Defined.

End CodecMore.

(** ** Samples as bytes *)

Section SampleBytes.

Lemma u8_byte_of_Z z : u8 (byte_of_Z z) = z mod 256.
Proof.
  unfold u8, byte_of_Z.
  assert (Hm : 0 <= z mod 256 < 256) by (apply Z.mod_pos_bound; lia).
  destruct (Byte.of_N (Z.to_N (z mod 256))) as [b|] eqn:Hb.
  - apply Byte.to_of_N in Hb. rewrite Hb. apply Z2N.id. lia.
  - apply Byte.of_N_None_iff in Hb. lia.
Qed.

(** Reading back the two bytes of a 16-bit sample gives the sample. *)
Lemma int16_le_bytes x :
  -32768 <= x <= 32767 ->
  V3.int16_le (byte_of_Z x) (byte_of_Z (Z.shiftr x 8)) = x.
Proof.
  intros Hx. unfold V3.int16_le, to_int16. rewrite !u8_byte_of_Z.
  rewrite Z.shiftr_div_pow2 by lia. change (2 ^ 8) with 256.
  Z.div_mod_to_equations. lia.
Qed.

Lemma nth_pcm16_bytes :
  forall samples i,
    (i < length samples)%nat ->
    nth (2 * i) (pcm16_bytes samples) x00 = byte_of_Z (nth i samples 0) /\
    nth (2 * i + 1) (pcm16_bytes samples) x00
    = byte_of_Z (Z.shiftr (nth i samples 0) 8).
Proof.
  induction samples as [|x samples IH]; intros i Hi; [simpl in Hi; lia|].
  destruct i as [|i].
  - split; reflexivity.
  - replace (2 * S i)%nat with (S (S (2 * i))) by lia.
    replace (S (S (2 * i)) + 1)%nat with (S (S (2 * i + 1))) by lia.
    cbn [pcm16_bytes flat_map int16_bytes app nth].
    apply IH. simpl in Hi. lia.
Qed.

Lemma length_pcm16_bytes samples :
  length (pcm16_bytes samples) = (2 * length samples)%nat.
Proof.
  induction samples as [|x samples IH]; [reflexivity|].
  cbn [pcm16_bytes flat_map int16_bytes app length] in *.
  unfold pcm16_bytes in IH. rewrite IH. lia.
Qed.

(** A frame of 160 samples written as bytes and read back through
    [pcm16_samples] is the same frame; bytes after the frame do not
    matter. *)
Lemma pcm16_samples_bytes samples rest :
  length samples = 160%nat ->
  Forall (fun x => -32768 <= x <= 32767) samples ->
  V3.pcm16_samples (pcm16_bytes samples ++ rest) = samples.
Proof.
  intros Hlen Hall. unfold V3.pcm16_samples.
  apply (nth_ext _ _ 0 0).
  - rewrite length_map, length_seq. auto.
  - intros i Hi. rewrite length_map, length_seq in Hi.
    rewrite (nth_indep _ 0 (V3.int16_le (nth (2 * 0) (pcm16_bytes samples ++ rest) x00)
                              (nth (2 * 0 + 1) (pcm16_bytes samples ++ rest) x00)))
      by (rewrite length_map, length_seq; exact Hi).
    rewrite (map_nth (fun i => V3.int16_le (nth (2 * i) (pcm16_bytes samples ++ rest) x00)
                                  (nth (2 * i + 1) (pcm16_bytes samples ++ rest) x00))).
    rewrite seq_nth by exact Hi. cbn [Nat.add].
    rewrite !app_nth1 by (rewrite length_pcm16_bytes; lia).
    destruct (nth_pcm16_bytes samples i ltac:(lia)) as [-> ->].
    apply int16_le_bytes.
    rewrite Forall_forall in Hall. apply Hall. apply nth_In. lia.
Qed.

Lemma ulaw2linear_range_all :
  forallb (fun u => (-32768 <=? Codec.ulaw2linear u) &&
                    (Codec.ulaw2linear u <=? 32767)) (range 0 256) = true.
Proof. vm_compute. reflexivity. Qed.

Lemma u8_range b : 0 <= u8 b < 256.
Proof.
  unfold u8. pose proof (Byte.to_N_bounded b). lia.
Qed.

Lemma ulaw_to_pcm16_range data :
  Forall (fun x => -32768 <= x <= 32767) (Codec.ulaw_to_pcm16 (map u8 data)).
Proof.
  unfold Codec.ulaw_to_pcm16. apply Forall_map, Forall_map, Forall_forall.
  intros b _.
  pose proof (range_forallb _ _ _ ulaw2linear_range_all (u8 b)) as H.
  specialize (H ltac:(pose proof (u8_range b); simpl; lia)). cbv beta in H.
  apply andb_true_iff in H as [Hlo Hhi]. apply Z.leb_le in Hlo, Hhi. lia.
Qed.

End SampleBytes.

(** ** The main audio loop of the length-prefixed relay *)

Section MainLoop.
Import V3Main.

(** What step 1 hands to [send]: the expansion of a 160-byte frame, a
    320-byte frame as it is, nothing otherwise. *)
Lemma forward_caller_audio_sent t m :
  let m' := fst (forward_caller_audio t m) in
  session m' = session m /\ written m' = written m /\
  sent m' =
    sent m ++
    match st t, read_frame t with
    | SWITCH_STATUS_SUCCESS, Some data =>
        if (length data =? 160)%nat
        then [pcm16_bytes (Codec.ulaw_to_pcm16 (map u8 data))]
        else if (length data =? 320)%nat then [data] else []
    | _, _ => []
    end.
Proof.
  cbv zeta. unfold forward_caller_audio.
  destruct (st t) as [| |code]; destruct (read_frame t) as [data|];
    main_fields; rewrite ?app_nil_r; auto.
  destruct (0 <? length data)%nat eqn:Hpos.
  - destruct (160 <=? length data)%nat eqn:Hbig.
    + destruct (length data =? 160)%nat eqn:H160.
      * destruct (send_result t <? 0); destruct (media_ready m); main_fields;
          auto.
      * destruct (length data =? 320)%nat eqn:H320.
        -- destruct (send_result t <? 0); destruct (media_ready m);
             main_fields; auto.
        -- destruct (media_ready m); main_fields; rewrite app_nil_r; auto.
    + apply Nat.leb_gt in Hbig.
      replace (length data =? 160)%nat with false
        by (symmetry; apply Nat.eqb_neq; lia).
      replace (length data =? 320)%nat with false
        by (symmetry; apply Nat.eqb_neq; lia).
      main_fields. rewrite app_nil_r. auto.
  - apply Nat.ltb_ge in Hpos.
    replace (length data =? 160)%nat with false
      by (symmetry; apply Nat.eqb_neq; lia).
    replace (length data =? 320)%nat with false
      by (symmetry; apply Nat.eqb_neq; lia).
    main_fields. rewrite app_nil_r. auto.
Qed.

Lemma write_bot_audio_sent write_codec t m :
  sent (write_bot_audio write_codec t m) = sent m /\
  media_ready (write_bot_audio write_codec t m) = media_ready m.
Proof.
  unfold write_bot_audio.
  destruct (V3.play_bot_audio _ _ _) as [[f|] s]; [|auto].
  destruct (write_st t); auto.
Qed.

Lemma main_iteration_sent write_codec t m :
  Forall (fun buf => length buf = 320%nat) (sent m) ->
  Forall (fun buf => length buf = 320%nat)
         (sent (fst (main_iteration write_codec t m))).
Proof.
  intros Hall. unfold main_iteration.
  pose proof (forward_caller_audio_sent t m) as (_ & _ & Hs). cbv zeta in Hs.
  destruct (forward_caller_audio t m) as [m1 left]. cbn [fst] in Hs.
  assert (H1 : Forall (fun buf => length buf = 320%nat) (sent m1)).
  { rewrite Hs. apply Forall_app. split; [exact Hall|].
    destruct (st t); try constructor.
    destruct (read_frame t) as [data|]; [|constructor].
    destruct (length data =? 160)%nat eqn:H160.
    - apply Nat.eqb_eq in H160. constructor; [|constructor].
      rewrite length_pcm16_bytes. unfold Codec.ulaw_to_pcm16.
      rewrite !length_map. lia.
    - destruct (length data =? 320)%nat eqn:H320; [|constructor].
      apply Nat.eqb_eq in H320. constructor; [exact H320 | constructor]. }
  destruct left; cbn [fst]; [exact H1|].
  destruct (write_bot_audio_sent write_codec t m1) as [-> _]. exact H1.
Qed.

Lemma forward_caller_audio_steady t m :
  0 <= send_result t ->
  snd (forward_caller_audio t m) = false.
Proof.
  intros Hok. unfold forward_caller_audio.
  replace (send_result t <? 0) with false by (symmetry; apply Z.ltb_ge; lia).
  destruct (st t); destruct (read_frame t) as [data|]; try reflexivity.
  destruct (0 <? length data)%nat; [|reflexivity].
  destruct (160 <=? length data)%nat; [|reflexivity].
  destruct (length data =? 160)%nat; [reflexivity|].
  destruct (length data =? 320)%nat; reflexivity.
Qed.

Lemma write_bot_audio_running write_codec t m :
  V3.running (session (write_bot_audio write_codec t m))
  = V3.running (session m).
Proof.
  unfold write_bot_audio, V3.play_bot_audio, V3.dequeue_bot_frame.
  destruct (media_ready m && write_codec); [|reflexivity].
  destruct (320 <=? SwitchBuffer.inuse (V3.output_stream (session m)))%nat;
    [|reflexivity].
  destruct (SwitchBuffer.read (V3.output_stream (session m)) 320) as [buf b].
  destruct (320 <=? length buf)%nat; [|reflexivity].
  destruct (write_st t); reflexivity.
Qed.

Lemma main_loop_forwards write_codec ticks :
  forall m,
    V3.running (session m) = true -> Forall steady ticks ->
    sent (main_loop write_codec ticks m)
    = sent m ++ flat_map caller_buffers ticks.
Proof.
  induction ticks as [|t ticks IH]; intros m Hrun Hsteady;
    cbn [main_loop flat_map]; [rewrite app_nil_r; reflexivity|].
  inversion Hsteady as [|? ? [Hready Hok] Hrest]; subst.
  rewrite Hready, Hrun. cbn [andb]. unfold main_iteration.
  pose proof (forward_caller_audio_sent t m) as (Hsess & _ & Hs).
  pose proof (forward_caller_audio_steady t m Hok) as Hleft.
  cbv zeta in Hsess, Hs.
  destruct (forward_caller_audio t m) as [m1 left]. cbn [fst snd] in *.
  subst left.
  destruct (write_bot_audio_sent write_codec t m1) as [Hs2 _].
  rewrite IH; [|rewrite write_bot_audio_running, Hsess; exact Hrun
               |exact Hrest].
  rewrite Hs2, Hs, <- app_assoc. reflexivity.
Qed.

(** X5: what the main loop hands to [send].  Every buffer holds exactly
    320 bytes, whatever frames the channel delivers and however long the
    loop runs; and while the channel stays ready and no [send] fails, the
    buffers are, in the order of the reads, the decoded samples of every
    160-byte frame and every 320-byte frame as it is, with nothing sent
    for a frame of any other size. *)
Theorem main_loop_sends_whole_frames (write_codec : bool)
  (ticks : list tick) (m : loop_t) :
  Forall (fun buf => length buf = 320%nat) (sent m) ->
  let m' := nova_ai_session_loop write_codec ticks m in
  Forall (fun buf => length buf = 320%nat) (sent m') /\
  (V3.running (session m) = true -> Forall steady ticks ->
   sent m' = sent m ++ flat_map caller_buffers ticks).
Proof.
  intros Hall0. cbv zeta. unfold nova_ai_session_loop. main_fields. split.
  - revert m Hall0.
    induction ticks as [|t ticks IH]; intros m Hall; cbn [main_loop];
      [exact Hall|].
    destruct (channel_ready t && V3.running (session m)); [|exact Hall].
    pose proof (main_iteration_sent write_codec t m Hall) as H1.
    destruct (main_iteration write_codec t m) as [m1 left]. cbn [fst] in H1.
    destruct left; [exact H1 | apply IH; exact H1].
  - apply main_loop_forwards.
Qed.

Lemma main_loop_sends_whole_frames_witness :
  let m := mk (v3_session (Sock.carrying [] 0 [] Sock.PeerClosed)) false [] []
              [] in
  let ticks :=
    [mk_tick true SWITCH_STATUS_SUCCESS (Some (repeat xff 160)) 320
       SWITCH_STATUS_SUCCESS;
     mk_tick true SWITCH_STATUS_SUCCESS (Some (repeat x00 200)) 320
       SWITCH_STATUS_SUCCESS;
     mk_tick true SWITCH_STATUS_SUCCESS (Some (repeat x01 320)) 320
       SWITCH_STATUS_SUCCESS] in
  sent (nova_ai_session_loop true ticks m)
  = [repeat x00 320; repeat x01 320].
Proof.
  cbv zeta.
  destruct (main_loop_sends_whole_frames true
              [mk_tick true SWITCH_STATUS_SUCCESS (Some (repeat xff 160)) 320
                 SWITCH_STATUS_SUCCESS;
               mk_tick true SWITCH_STATUS_SUCCESS (Some (repeat x00 200)) 320
                 SWITCH_STATUS_SUCCESS;
               mk_tick true SWITCH_STATUS_SUCCESS (Some (repeat x01 320)) 320
                 SWITCH_STATUS_SUCCESS]
              (mk (v3_session (Sock.carrying [] 0 [] Sock.PeerClosed)) false
                  [] [] []))
    as [_ Hsent]; [constructor|].
  rewrite Hsent.
  - vm_compute. reflexivity.
  - reflexivity.
  - repeat constructor; cbn; lia.
Defined.

(** A pass that reads no real audio forwards nothing and leaves
    [media_ready] as it was. *)
Lemma forward_no_real_audio t m :
  no_real_audio t ->
  exists l, forward_caller_audio t m
            = (mk (session m) (media_ready m) (sent m) (written m) l, false).
Proof.
  unfold no_real_audio, forward_caller_audio. intros Hno.
  destruct m as [s r se w l].
  destruct (st t) as [| |code]; destruct (read_frame t) as [data|];
    main_fields; try (eexists; reflexivity).
  replace (160 <=? length data)%nat with false
    by (symmetry; apply Nat.leb_gt; exact Hno).
  destruct (0 <? length data)%nat; eexists; reflexivity.
Qed.

(** X6: bot audio is held back until real caller audio has been read.
    While every pass reads no frame, a failed read or a frame shorter
    than 160 bytes, the loop started with [media_ready] clear sends
    nothing to the gateway, writes nothing to the caller and leaves the
    output stream untouched, however much bot audio is buffered. *)
Theorem media_gate (write_codec : bool) (ticks : list tick) (m : loop_t) :
  media_ready m = false ->
  Forall no_real_audio ticks ->
  let m' := main_loop write_codec ticks m in
  media_ready m' = false /\ sent m' = sent m /\ written m' = written m /\
  session m' = session m.
Proof.
  intros Hr Hall. cbv zeta. revert m Hr.
  induction Hall as [|t ticks Ht _ IH]; intros m Hr; cbn [main_loop]; [auto|].
  destruct (channel_ready t && V3.running (session m)); [|auto].
  unfold main_iteration.
  destruct (forward_no_real_audio t m Ht) as [l ->].
  unfold write_bot_audio. main_fields. rewrite Hr.
  cbn [V3.play_bot_audio andb].
  main_fields.
  specialize (IH (mk (session m) false (sent m) (written m) l) eq_refl).
  main_fields. exact IH.
Qed.

Lemma media_gate_witness :
  let m :=
    mk (V3.mk 5 (Sock.carrying [] 0 [] Sock.PeerClosed)
          (SwitchBuffer.mk (repeat x00 640) (Z.to_nat 32768)) true None [])
       false [] [] [] in
  let ticks :=
    [mk_tick true SWITCH_STATUS_SUCCESS (Some [x00; x00]) 0
       SWITCH_STATUS_SUCCESS;
     mk_tick true SWITCH_STATUS_BREAK None 0 SWITCH_STATUS_SUCCESS] in
  written (main_loop true ticks m) = [].
Proof.
  cbv zeta. apply media_gate.
  - reflexivity.
  - repeat constructor.
Defined.

(** X7: caller audio that the gateway sends straight back is played to
    the caller unchanged.  For a 160-byte mu-law frame with no byte in the
    lowest segment, the buffer step 1 hands to [send] holds 320 bytes, and
    a session whose output stream starts with those bytes plays a frame of
    exactly the caller's 160 bytes. *)
Theorem caller_audio_echo (t : tick) (m : loop_t) (data : list byte)
  (s : V3.nova_session_t) (rest : list byte) :
  st t = SWITCH_STATUS_SUCCESS -> read_frame t = Some data ->
  length data = 160%nat -> Forall upper_segment (map u8 data) ->
  let buf := pcm16_bytes (Codec.ulaw_to_pcm16 (map u8 data)) in
  sent (fst (forward_caller_audio t m)) = sent m ++ [buf] /\
  length buf = 320%nat /\
  (SwitchBuffer.contents (V3.output_stream s) = buf ++ rest ->
   fst (V3.play_bot_audio true true s)
   = Some (V3.frame (map u8 data) 160 160 8000 1)).
Proof.
  intros Hst Hrf Hlen Hseg. cbv zeta.
  assert (Hbuf : length (pcm16_bytes (Codec.ulaw_to_pcm16 (map u8 data)))
                 = 320%nat).
  { rewrite length_pcm16_bytes. unfold Codec.ulaw_to_pcm16.
    rewrite !length_map. lia. }
  split; [|split; [exact Hbuf|]].
  - pose proof (forward_caller_audio_sent t m) as (_ & _ & Hs).
    cbv zeta in Hs. rewrite Hs, Hst, Hrf, Hlen. reflexivity.
  - intros Hout. unfold V3.play_bot_audio, V3.dequeue_bot_frame,
      SwitchBuffer.inuse, SwitchBuffer.read.
    cbn [andb]. rewrite Hout.
    replace (320 <=? length (pcm16_bytes (Codec.ulaw_to_pcm16 (map u8 data))
                               ++ rest))%nat with true
      by (symmetry; apply Nat.leb_le; rewrite length_app; lia).
    assert (Hf : firstn 320 (pcm16_bytes (Codec.ulaw_to_pcm16 (map u8 data))
                               ++ rest)
                 = pcm16_bytes (Codec.ulaw_to_pcm16 (map u8 data))).
    { rewrite <- Hbuf. apply firstn_exact. }
    rewrite Hf, Hbuf.
    change (320 <=? 320)%nat with true. cbn [fst]. f_equal. f_equal.
    rewrite <- (app_nil_r (pcm16_bytes _)).
    rewrite pcm16_samples_bytes.
    + apply transcode_bytes. exact Hseg.
    + unfold Codec.ulaw_to_pcm16. rewrite !length_map. exact Hlen.
    + apply ulaw_to_pcm16_range.
Qed.

Lemma caller_audio_echo_witness :
  let data := repeat "0"%byte 160 in
  let t := mk_tick true SWITCH_STATUS_SUCCESS (Some data) 320
             SWITCH_STATUS_SUCCESS in
  let buf := pcm16_bytes (Codec.ulaw_to_pcm16 (map u8 data)) in
  fst (V3.play_bot_audio true true
         (V3.mk 5 (Sock.carrying [] 0 [] Sock.PeerClosed)
            (SwitchBuffer.mk (buf ++ [x01]) (Z.to_nat 32768)) true None []))
  = Some (V3.frame (map u8 data) 160 160 8000 1).
Proof.
  cbv zeta.
  apply (caller_audio_echo
           (mk_tick true SWITCH_STATUS_SUCCESS (Some (repeat "0"%byte 160)) 320
              SWITCH_STATUS_SUCCESS)
           (mk (v3_session (Sock.carrying [] 0 [] Sock.PeerClosed)) false []
               [] [])
           (repeat "0"%byte 160) _ [x01]).
  - reflexivity.
  - reflexivity.
  - apply repeat_length.
  - rewrite map_repeat. apply Forall_forall. intros u Hu.
    apply repeat_spec in Hu. subst u. unfold upper_segment.
    change (u8 "0"%byte) with 48. split; [lia | vm_compute; discriminate].
  - reflexivity.
Defined.

End MainLoop.

(** ** Unlimited buffers *)

Section UnlimitedBuffer.

Lemma switch_buffer_write_unlimited b data :
  SwitchBuffer.max_len b = 0%nat ->
  snd (switch_buffer_write b data)
  = SwitchBuffer.mk (SwitchBuffer.contents b ++ data) 0.
Proof. intros H. unfold switch_buffer_write. rewrite H. reflexivity. Qed.

Lemma read_split b n :
  let (got, b') := SwitchBuffer.read b n in
  got ++ SwitchBuffer.contents b' = SwitchBuffer.contents b /\
  SwitchBuffer.max_len b' = SwitchBuffer.max_len b /\
  length got = Nat.min n (length (SwitchBuffer.contents b)).
Proof.
  unfold SwitchBuffer.read. cbn [SwitchBuffer.contents SwitchBuffer.max_len].
  rewrite firstn_skipn, length_firstn. auto.
Qed.

End UnlimitedBuffer.

(** ** The send thread of the tagged relay *)

Section V2Sender.
Import V2Send.


Lemma push_caller_audio_inv status read_frame c pushed :
  v2_send_inv c pushed ->
  v2_send_inv (push_caller_audio status read_frame c)
    (pushed ++ v2_caller_bytes [CallerFrame status read_frame]).
Proof.
  intros (Hmax & Hall & Hcons). unfold push_caller_audio, v2_caller_bytes.
  cbn [flat_map]. rewrite app_nil_r.
  destruct status; destruct read_frame as [data|];
    rewrite ?app_nil_r; try (repeat split; assumption).
  destruct (0 <? length data)%nat eqn:Hpos.
  - rewrite (switch_buffer_write_unlimited _ data Hmax).
    repeat split; cbn [input_buffer sent SwitchBuffer.max_len
                         SwitchBuffer.contents]; try assumption.
    rewrite app_assoc, Hcons. reflexivity.
  - apply Nat.ltb_ge in Hpos.
    assert (data = []) by (destruct data; [reflexivity | simpl in Hpos; lia]).
    subst data. rewrite app_nil_r. repeat split; assumption.
Qed.

Lemma send_pass_inv send_result c pushed :
  v2_send_inv c pushed -> v2_send_inv (send_pass send_result c) pushed.
Proof.
  intros (Hmax & Hall & Hcons). unfold send_pass, SwitchBuffer.inuse.
  destruct (length (SwitchBuffer.contents (input_buffer c)) <? 640)%nat
    eqn:Hwait; [repeat split; assumption|].
  apply Nat.ltb_ge in Hwait.
  pose proof (read_split (input_buffer c) 640) as Hread.
  destruct (SwitchBuffer.read (input_buffer c) 640) as [frame_buf b].
  destruct Hread as (Hsplit & Hm & Hlen).
  replace (length frame_buf =? 640)%nat with true
    by (symmetry; apply Nat.eqb_eq; lia).
  assert (Hall' : Forall (fun buf => length buf = 640%nat)
                         (sent c ++ [frame_buf])).
  { apply Forall_app. split; [exact Hall|]. constructor; [lia | constructor]. }
  assert (Hcons' : concat (sent c ++ [frame_buf]) ++ SwitchBuffer.contents b
                   = pushed).
  { rewrite concat_app. cbn [concat]. rewrite app_nil_r, <- app_assoc, Hsplit.
    exact Hcons. }
  destruct (send_result <? 0); repeat split;
    cbn [input_buffer sent]; try assumption; congruence.
Qed.

Lemma v2_send_run_inv turns :
  forall c pushed,
    v2_send_inv c pushed ->
    v2_send_inv (fold_left step turns c) (pushed ++ v2_caller_bytes turns).
Proof.
  induction turns as [|t turns IH]; intros c pushed Hinv.
  - cbn [fold_left v2_caller_bytes flat_map]. rewrite app_nil_r. exact Hinv.
  - cbn [fold_left].
    replace (v2_caller_bytes (t :: turns))
      with (v2_caller_bytes [t] ++ v2_caller_bytes turns)
      by (unfold v2_caller_bytes; cbn [flat_map]; rewrite app_nil_r;
          reflexivity).
    rewrite app_assoc. apply IH. destruct t as [status read_frame | r].
    + apply push_caller_audio_inv. exact Hinv.
    + cbn [step v2_caller_bytes flat_map]. rewrite app_nil_r.
      destruct (running c); [apply send_pass_inv|]; exact Hinv.
Qed.

Lemma send_pass_running send_result c :
  0 <= send_result -> running (send_pass send_result c) = running c.
Proof.
  intros Hok. unfold send_pass.
  replace (send_result <? 0) with false by (symmetry; apply Z.ltb_ge; lia).
  destruct (SwitchBuffer.inuse (input_buffer c) <? 640)%nat; [reflexivity|].
  destruct (SwitchBuffer.read (input_buffer c) 640) as [frame_buf b].
  destruct (length frame_buf =? 640)%nat; reflexivity.
Qed.

Lemma v2_running_kept turns :
  forall c,
    v2_sends_succeed turns -> running c = true ->
    running (fold_left step turns c) = true.
Proof.
  induction turns as [|t turns IH]; intros c Hok Hrun; [exact Hrun|].
  inversion Hok as [|? ? Ht Hrest]; subst. cbn [fold_left]. apply IH;
    [exact Hrest|].
  destruct t as [status read_frame | r]; cbn [step].
  - unfold push_caller_audio.
    destruct status; destruct read_frame as [data|]; try exact Hrun.
    destruct (0 <? length data)%nat; exact Hrun.
  - rewrite Hrun, send_pass_running by exact Ht. exact Hrun.
Qed.

(** Passes that find 640 bytes take them: [n] further passes leave fewer
    than 640 bytes behind when fewer than [640 * (n + 1)] were
    buffered. *)
Lemma v2_drain n :
  forall c pushed,
    v2_send_inv c pushed -> running c = true ->
    (length (SwitchBuffer.contents (input_buffer c)) < 640 * S n)%nat ->
    let c' := fold_left step (repeat (SendPass 640) n) c in
    v2_send_inv c' pushed /\
    (length (SwitchBuffer.contents (input_buffer c')) < 640)%nat.
Proof.
  induction n as [|n IH]; intros c pushed Hinv Hrun Hlen; cbv zeta.
  - cbn [repeat fold_left]. split; [exact Hinv | lia].
  - cbn [repeat fold_left step]. rewrite Hrun.
    apply IH.
    + apply send_pass_inv. exact Hinv.
    + rewrite send_pass_running by lia. exact Hrun.
    + unfold send_pass, SwitchBuffer.inuse.
      destruct (length (SwitchBuffer.contents (input_buffer c)) <? 640)%nat
        eqn:Hwait.
      * apply Nat.ltb_lt in Hwait. lia.
      * apply Nat.ltb_ge in Hwait.
        pose proof (read_split (input_buffer c) 640) as Hread.
        destruct (SwitchBuffer.read (input_buffer c) 640) as [frame_buf b].
        destruct Hread as (Hsplit & _ & Hgot).
        assert (Hb : (length (SwitchBuffer.contents b) < 640 * S n)%nat).
        { rewrite <- Hsplit, length_app in Hlen. lia. }
        replace (length frame_buf =? 640)%nat with true
          by (symmetry; apply Nat.eqb_eq; lia).
        cbn [Z.ltb Z.compare input_buffer]. exact Hb.
Qed.

(** X8: the send thread of the tagged relay forwards caller audio without
    loss or reordering, in buffers of exactly 640 bytes.  However the
    media loop's pushes and the thread's passes take turns, the buffers
    handed to [send], followed by what is still in the input buffer, are
    the bytes the media loop pushed; and when no [send] fails, further
    passes of the thread send them on until fewer than 640 bytes are
    left in the buffer. *)
Theorem gateway_send_conserves (turns : list turn) :
  let c := fold_left step turns new in
  Forall (fun buf => length buf = 640%nat) (sent c) /\
  concat (sent c) ++ SwitchBuffer.contents (input_buffer c)
  = v2_caller_bytes turns /\
  (v2_sends_succeed turns ->
   forall n,
     (length (SwitchBuffer.contents (input_buffer c)) < 640 * S n)%nat ->
     let c' := fold_left step (repeat (SendPass 640) n) c in
     Forall (fun buf => length buf = 640%nat) (sent c') /\
     concat (sent c') ++ SwitchBuffer.contents (input_buffer c')
     = v2_caller_bytes turns /\
     (length (SwitchBuffer.contents (input_buffer c')) < 640)%nat).
Proof.
  cbv zeta.
  assert (Hinv : v2_send_inv (fold_left step turns new) (v2_caller_bytes turns)).
  { apply (v2_send_run_inv turns new []). repeat split. constructor. }
  split; [apply Hinv|]. split; [apply Hinv|].
  intros Hok n Hlen.
  destruct (v2_drain n _ _ Hinv (v2_running_kept turns new Hok eq_refl) Hlen)
    as [(_ & Hall & Hcons) Hleft].
  split; [exact Hall|]. split; [exact Hcons | exact Hleft].
Qed.

Lemma gateway_send_conserves_witness :
  let turns := [CallerFrame SWITCH_STATUS_SUCCESS (Some (repeat xff 1000));
                SendPass 640;
                CallerFrame SWITCH_STATUS_SUCCESS (Some (repeat x00 1000))] in
  let c' := fold_left step (repeat (SendPass 640) 2)
              (fold_left step turns new) in
  concat (sent c') ++ SwitchBuffer.contents (input_buffer c')
  = repeat xff 1000 ++ repeat x00 1000 /\
  (length (SwitchBuffer.contents (input_buffer c')) < 640)%nat.
Proof.
  cbv zeta.
  destruct (gateway_send_conserves
              [CallerFrame SWITCH_STATUS_SUCCESS (Some (repeat xff 1000));
               SendPass 640;
               CallerFrame SWITCH_STATUS_SUCCESS (Some (repeat x00 1000))])
    as (_ & _ & Hdrain).
  destruct (Hdrain ltac:(repeat constructor; lia) 2%nat) as (_ & Hcons & Hleft).
  - vm_compute. lia.
  - split; [|exact Hleft]. rewrite Hcons. vm_compute. reflexivity.
Defined.

End V2Sender.

(** ** The raw relay *)

Section V1Relay.
Import V1Stream.


Lemma caller_frame_inv frame c pushed :
  v1_send_inv c pushed ->
  v1_send_inv (snd (nova_bug_callback SWITCH_ABC_TYPE_READ_REPLACE frame c))
    (pushed ++ v1_caller_bytes [CallerFrame frame]).
Proof.
  intros (Hmax & Hall & Hcons). unfold v1_caller_bytes. cbn [flat_map].
  rewrite app_nil_r. cbn [nova_bug_callback].
  destruct frame as [data|]; [|rewrite app_nil_r; repeat split; assumption].
  destruct (0 <? length data)%nat eqn:Hpos.
  - rewrite (switch_buffer_write_unlimited _ data Hmax).
    repeat split; v1_fields;
      cbn [SwitchBuffer.max_len SwitchBuffer.contents]; try assumption.
    rewrite app_assoc, Hcons. reflexivity.
  - apply Nat.ltb_ge in Hpos.
    assert (data = []) by (destruct data; [reflexivity | simpl in Hpos; lia]).
    subst data. rewrite app_nil_r. cbn [snd]. repeat split; assumption.
Qed.

Lemma send_pass_inv_v1 send_result c pushed :
  v1_send_inv c pushed -> v1_send_inv (send_pass send_result c) pushed.
Proof.
  intros (Hmax & Hall & Hcons). unfold send_pass.
  pose proof (read_split (input_stream c) 320) as Hread.
  destruct (SwitchBuffer.read (input_stream c) 320) as [audio_buffer b].
  destruct Hread as (Hsplit & Hm & Hlen).
  destruct (0 <? length audio_buffer)%nat eqn:Hpos.
  - apply Nat.ltb_lt in Hpos.
    assert (Hall' : Forall (fun buf => (1 <= length buf <= 320)%nat)
                           (sent c ++ [audio_buffer])).
    { apply Forall_app. split; [exact Hall|].
      constructor; [lia | constructor]. }
    assert (Hcons' : concat (sent c ++ [audio_buffer])
                       ++ SwitchBuffer.contents b = pushed).
    { rewrite concat_app. cbn [concat].
      rewrite app_nil_r, <- app_assoc, Hsplit. exact Hcons. }
    destruct (send_result <? 0); repeat split; v1_fields;
      try assumption; congruence.
  - apply Nat.ltb_ge in Hpos.
    assert (audio_buffer = [])
      by (destruct audio_buffer; [reflexivity | simpl in Hpos; lia]).
    subst audio_buffer. cbn [app] in Hsplit.
    repeat split; v1_fields; try assumption; congruence.
Qed.

Lemma v1_send_run_inv turns :
  forall c pushed,
    v1_send_inv c pushed ->
    v1_send_inv (fold_left step turns c) (pushed ++ v1_caller_bytes turns).
Proof.
  induction turns as [|t turns IH]; intros c pushed Hinv.
  - cbn [fold_left v1_caller_bytes flat_map]. rewrite app_nil_r. exact Hinv.
  - cbn [fold_left].
    replace (v1_caller_bytes (t :: turns))
      with (v1_caller_bytes [t] ++ v1_caller_bytes turns)
      by (unfold v1_caller_bytes; cbn [flat_map]; rewrite app_nil_r;
          reflexivity).
    rewrite app_assoc. apply IH. destruct t as [frame | r].
    + apply caller_frame_inv. exact Hinv.
    + cbn [step v1_caller_bytes flat_map]. rewrite app_nil_r.
      destruct (running c && (0 <? gateway_socket c));
        [apply send_pass_inv_v1|]; exact Hinv.
Qed.

(** A pass whose [send] does not fail takes up to 320 bytes from the
    input stream and leaves the thread running. *)
Lemma send_pass_takes send_result c :
  0 <= send_result ->
  running (send_pass send_result c) = running c /\
  gateway_socket (send_pass send_result c) = gateway_socket c /\
  SwitchBuffer.contents (input_stream (send_pass send_result c))
  = skipn 320 (SwitchBuffer.contents (input_stream c)).
Proof.
  intros Hok. unfold send_pass, SwitchBuffer.read.
  replace (send_result <? 0) with false by (symmetry; apply Z.ltb_ge; lia).
  destruct (0 <? length (firstn 320 (SwitchBuffer.contents (input_stream c))))%nat;
    v1_fields; cbn [SwitchBuffer.contents]; auto.
Qed.

Lemma v1_running_kept turns :
  forall c,
    v1_sends_succeed turns ->
    running c = true -> 0 < gateway_socket c ->
    running (fold_left step turns c) = true /\
    0 < gateway_socket (fold_left step turns c).
Proof.
  induction turns as [|t turns IH]; intros c Hok Hrun Hsock; [auto|].
  inversion Hok as [|? ? Ht Hrest]; subst. cbn [fold_left].
  destruct t as [frame | r]; cbn [step].
  - apply IH; [exact Hrest| |];
      cbn [nova_bug_callback]; destruct frame as [data|]; cbn [snd];
        try assumption; destruct (0 <? length data)%nat; cbn [snd];
          v1_fields; assumption.
  - rewrite Hrun.
    replace (0 <? gateway_socket c) with true
      by (symmetry; apply Z.ltb_lt; exact Hsock).
    cbn [andb]. destruct (send_pass_takes r c Ht) as (Hr & Hg & _).
    apply IH; [exact Hrest | congruence | congruence].
Qed.

(** Passes take what is there: [n] further passes empty an input stream
    that holds at most [320 * n] bytes. *)
Lemma v1_drain n :
  forall c pushed,
    v1_send_inv c pushed -> running c = true -> 0 < gateway_socket c ->
    (length (SwitchBuffer.contents (input_stream c)) <= 320 * n)%nat ->
    let c' := fold_left step (repeat (SendPass 320) n) c in
    v1_send_inv c' pushed /\ SwitchBuffer.contents (input_stream c') = [].
Proof.
  induction n as [|n IH]; intros c pushed Hinv Hrun Hsock Hlen; cbv zeta.
  - cbn [repeat fold_left]. split; [exact Hinv|].
    destruct (SwitchBuffer.contents (input_stream c));
      [reflexivity | simpl in Hlen; lia].
  - cbn [repeat fold_left step]. rewrite Hrun.
    replace (0 <? gateway_socket c) with true
      by (symmetry; apply Z.ltb_lt; exact Hsock).
    cbn [andb].
    destruct (send_pass_takes 320 c ltac:(lia)) as (Hr & Hg & Hc).
    apply IH.
    + apply send_pass_inv_v1. exact Hinv.
    + congruence.
    + congruence.
    + rewrite Hc, length_skipn. lia.
Qed.

(** X9: the send thread of the raw relay forwards caller audio without
    loss or reordering, in buffers of 1 to 320 bytes.  However the media
    bug's read callbacks and the thread's passes take turns, the buffers
    handed to [send], followed by what is still in the input stream, are
    the bytes of the frames the media bug was handed; and when no [send]
    fails, further passes of the running thread send on whatever is
    buffered, a last piece shorter than 320 bytes included, until the
    input stream is empty. *)
Theorem nova_send_conserves (turns : list turn) (c : nova_session_t) :
  input_stream c = audio_stream_create -> sent c = [] ->
  let c' := fold_left step turns c in
  Forall (fun buf => (1 <= length buf <= 320)%nat) (sent c') /\
  concat (sent c') ++ SwitchBuffer.contents (input_stream c')
  = v1_caller_bytes turns /\
  (running c = true -> 0 < gateway_socket c -> v1_sends_succeed turns ->
   forall n,
     (length (SwitchBuffer.contents (input_stream c')) <= 320 * n)%nat ->
     let c'' := fold_left step (repeat (SendPass 320) n) c' in
     Forall (fun buf => (1 <= length buf <= 320)%nat) (sent c'') /\
     concat (sent c'') = v1_caller_bytes turns /\
     SwitchBuffer.contents (input_stream c'') = []).
Proof.
  intros Hin Hsent. cbv zeta.
  assert (Hinv : v1_send_inv (fold_left step turns c) (v1_caller_bytes turns)).
  { apply (v1_send_run_inv turns c []).
    unfold v1_send_inv. rewrite Hin, Hsent. repeat split. constructor. }
  split; [apply Hinv|]. split; [apply Hinv|].
  intros Hrun Hsock Hok n Hlen.
  destruct (v1_running_kept turns c Hok Hrun Hsock) as [Hrun' Hsock'].
  destruct (v1_drain n _ _ Hinv Hrun' Hsock' Hlen)
    as [(_ & Hall & Hcons) Hempty].
  split; [exact Hall|]. split; [|exact Hempty].
  rewrite Hempty, app_nil_r in Hcons. exact Hcons.
Qed.

Lemma nova_send_conserves_witness :
  let c := mk audio_stream_create audio_stream_create 5
              (Sock.carrying [] 0 [] Sock.PeerClosed) [] [] true [] in
  let turns := [CallerFrame (Some (repeat xff 500)); SendPass 320] in
  let c'' := fold_left step (repeat (SendPass 320) 1) (fold_left step turns c) in
  map (@length byte) (sent c'') = [320; 180]%nat /\
  concat (sent c'') = repeat xff 500 /\
  SwitchBuffer.contents (input_stream c'') = [].
Proof.
  cbv zeta.
  destruct (nova_send_conserves
              [CallerFrame (Some (repeat xff 500)); SendPass 320]
              (mk audio_stream_create audio_stream_create 5
                  (Sock.carrying [] 0 [] Sock.PeerClosed) [] [] true []))
    as (_ & _ & Hdrain); [reflexivity | reflexivity |].
  destruct (Hdrain eq_refl ltac:(reflexivity) ltac:(repeat constructor; lia)
              1%nat) as (_ & Hcons & Hempty).
  - vm_compute. lia.
  - split; [vm_compute; reflexivity|]. split; [|exact Hempty].
    rewrite Hcons. vm_compute. reflexivity.
Defined.

End V1Relay.

Section V1Receive.
Import V1Stream.

Lemma recv_pass_keeps c :
  gateway_socket (recv_pass c) = gateway_socket c /\
  input_stream (recv_pass c) = input_stream c /\
  sent (recv_pass c) = sent c.
Proof.
  unfold recv_pass.
  destruct (would_block c) as [|[|] later]; v1_fields; auto;
    destruct (Sock.recv (wire c) 320 false) as [r s]; v1_fields;
    destruct (Sock.ssize r <? 0); v1_fields; auto;
    destruct (Sock.ssize r =? 0); v1_fields; auto.
Qed.

(** One pass of the raw receiver: an [EAGAIN] is waited out, received
    bytes go to the output stream as they are, and the end of the
    connection stops the thread. *)
Lemma recv_pass_spec c :
  SwitchBuffer.max_len (output_stream c) = 0%nat ->
  let c' := recv_pass c in
  SwitchBuffer.max_len (output_stream c') = 0%nat /\
  SwitchBuffer.contents (output_stream c') ++ Sock.pending (wire c')
  = SwitchBuffer.contents (output_stream c) ++ Sock.pending (wire c) /\
  ((running c' = running c /\
    (length (Sock.pending (wire c')) + length (would_block c')
     < length (Sock.pending (wire c)) + length (would_block c))%nat) \/
   (running c' = false /\ Sock.pending (wire c) = [] /\
    Sock.pending (wire c') = [])).
Proof.
  intros Hmax. cbv zeta. unfold recv_pass.
  assert (Htl : forall w : list bool, (length (tl w) <= length w)%nat)
    by (intros [|? ?]; simpl; lia).
  destruct (would_block c) as [|[|] later] eqn:Hw; v1_fields.
  1,3: pose proof (recv_spec (wire c) 320 ltac:(lia)) as Hr;
       destruct (Sock.recv (wire c) 320 false) as [[bs| |] s]; v1_fields;
       cbn [Sock.ssize Sock.bytes].
  - destruct Hr as (Hne & Hlen & Hp & _).
    assert (0 < length bs)%nat by (destruct bs; [congruence | simpl; lia]).
    replace (Z.of_nat (length bs) <? 0) with false
      by (symmetry; apply Z.ltb_ge; lia).
    replace (Z.of_nat (length bs) =? 0) with false
      by (symmetry; apply Z.eqb_neq; lia).
    v1_fields. rewrite (switch_buffer_write_unlimited _ bs Hmax).
    cbn [SwitchBuffer.max_len SwitchBuffer.contents].
    split; [reflexivity|]. split; [rewrite Hp, app_assoc; reflexivity|].
    left. split; [reflexivity|]. rewrite Hp, length_app. simpl. lia.
  - destruct Hr as (Hp & -> & _). cbn. repeat split; auto.
  - destruct Hr as (Hp & -> & _). cbn. repeat split; auto.
  - destruct Hr as (Hne & Hlen & Hp & _).
    assert (0 < length bs)%nat by (destruct bs; [congruence | simpl; lia]).
    replace (Z.of_nat (length bs) <? 0) with false
      by (symmetry; apply Z.ltb_ge; lia).
    replace (Z.of_nat (length bs) =? 0) with false
      by (symmetry; apply Z.eqb_neq; lia).
    v1_fields. rewrite (switch_buffer_write_unlimited _ bs Hmax).
    cbn [SwitchBuffer.max_len SwitchBuffer.contents].
    split; [reflexivity|]. split; [rewrite Hp, app_assoc; reflexivity|].
    left. split; [reflexivity|]. rewrite Hp, length_app. simpl. lia.
  - destruct Hr as (Hp & -> & _). cbn. repeat split; auto.
  - destruct Hr as (Hp & -> & _). cbn. repeat split; auto.
  - split; [exact Hmax|]. split; [reflexivity|]. left.
    split; [reflexivity|]. simpl. lia.
Qed.

Lemma nova_recv_thread_runs :
  forall fuel c,
    SwitchBuffer.max_len (output_stream c) = 0%nat ->
    (length (Sock.pending (wire c)) + length (would_block c) < fuel)%nat ->
    exists c',
      nova_recv_thread fuel c = Some c' /\
      input_stream c' = input_stream c /\ sent c' = sent c /\
      if running c && (0 <? gateway_socket c)
      then running c' = false /\
           SwitchBuffer.contents (output_stream c')
           = SwitchBuffer.contents (output_stream c) ++ Sock.pending (wire c)
      else c' = c.
Proof.
  induction fuel as [|fuel IH]; intros c Hmax Hfuel; [lia|].
  cbn [nova_recv_thread].
  destruct (running c && (0 <? gateway_socket c)) eqn:Htest;
    [|exists c; auto].
  apply andb_true_iff in Htest as [Hrun Hsock].
  pose proof (recv_pass_spec c Hmax) as (Hmax' & Hcons & Hprog).
  cbv zeta in Hmax', Hcons, Hprog.
  destruct (recv_pass_keeps c) as (Hg & Hi & Hs).
  destruct Hprog as [[Hr Hless] | (Hr & Hnil & Hnil')].
  - destruct (IH (recv_pass c) Hmax' ltac:(lia)) as (c' & Hth & Hi' & Hs' & H).
    rewrite Hr, Hrun, Hg, Hsock in H. cbn [andb] in H.
    destruct H as [Hstop Hout].
    exists c'. rewrite Hth. repeat split; congruence.
  - exists (recv_pass c). split.
    { destruct fuel; cbn [nova_recv_thread]; rewrite Hr; reflexivity. }
    split; [exact Hi|]. split; [exact Hs|]. split; [exact Hr|].
    rewrite Hnil, Hnil', !app_nil_r in Hcons. rewrite Hcons, Hnil, app_nil_r.
    reflexivity.
Qed.

(** X10: the raw relay's receive thread is transparent: run to its end on
    a connection, with any arrival schedule and any number of [EAGAIN]
    interruptions, it has appended to the output stream exactly the bytes
    the gateway sent, in order, and has cleared [running]; it touches
    neither the input stream nor what was sent. *)
Theorem nova_recv_thread_transparent (c : nova_session_t) :
  output_stream c = audio_stream_create ->
  running c = true -> 0 < gateway_socket c ->
  exists c',
    nova_recv_thread
      (S (length (Sock.pending (wire c)) + length (would_block c))) c
    = Some c' /\
    SwitchBuffer.contents (output_stream c') = Sock.pending (wire c) /\
    running c' = false /\
    input_stream c' = input_stream c /\ sent c' = sent c.
Proof.
  intros Hout Hrun Hsock.
  destruct (nova_recv_thread_runs
              (S (length (Sock.pending (wire c)) + length (would_block c))) c)
    as (c' & Hth & Hi & Hs & H).
  - rewrite Hout. reflexivity.
  - lia.
  - rewrite Hrun in H. apply Z.ltb_lt in Hsock. rewrite Hsock in H.
    cbn [andb] in H. destruct H as [Hstop Hcont].
    rewrite Hout in Hcont. cbn in Hcont.
    exists c'. auto.
Qed.

Lemma nova_recv_thread_transparent_witness :
  let c := mk audio_stream_create audio_stream_create 5
              (Sock.carrying (repeat xff 700) 3 [1; 400; 2]%nat Sock.IoError)
              [true; false; true] [] true [] in
  exists c',
    nova_recv_thread 704 c = Some c' /\
    SwitchBuffer.contents (output_stream c') = repeat xff 700.
Proof.
  cbv zeta.
  destruct (nova_recv_thread_transparent
              (mk audio_stream_create audio_stream_create 5
                  (Sock.carrying (repeat xff 700) 3 [1; 400; 2]%nat
                     Sock.IoError)
                  [true; false; true] [] true []))
    as (c' & Hth & Hout & _); try reflexivity.
  exists c'. split; [exact Hth | exact Hout].
Defined.

(** X11: what the write callback of the media bug does to the outgoing
    frame.  With audio buffered the frame becomes the first bytes of the
    output stream, as many as the frame asked for or as many as there are,
    so a short stream shortens the frame; those bytes leave the stream and
    the rest stays in order.  With nothing buffered the frame keeps its
    length and is all zero.  Nothing else in the session changes. *)
Theorem write_replace_frame (data : list byte) (c : nova_session_t) :
  data <> [] ->
  let buffered := SwitchBuffer.contents (output_stream c) in
  let result := nova_bug_callback SWITCH_ABC_TYPE_WRITE_REPLACE (Some data) c in
  (buffered = [] ->
   fst result = Some (repeat x00 (length data)) /\
   SwitchBuffer.contents (output_stream (snd result)) = []) /\
  (buffered <> [] ->
   exists audio,
     fst result = Some audio /\
     length audio = Nat.min (length data) (length buffered) /\
     audio ++ SwitchBuffer.contents (output_stream (snd result)) = buffered) /\
  input_stream (snd result) = input_stream c /\
  running (snd result) = running c /\ wire (snd result) = wire c /\
  sent (snd result) = sent c.
Proof.
  intros Hdata. cbv zeta. cbn [nova_bug_callback].
  pose proof (read_split (output_stream c) (length data)) as Hread.
  destruct (SwitchBuffer.read (output_stream c) (length data)) as [audio b].
  destruct Hread as (Hsplit & _ & Hlen).
  assert (Hd : (0 < length data)%nat)
    by (destruct data; [congruence | simpl; lia]).
  destruct (0 <? length audio)%nat eqn:Hpos; v1_fields;
    (split; [|split; [|auto]]).
  - apply Nat.ltb_lt in Hpos.
    intros Hnil. rewrite Hnil in Hlen. simpl in Hlen. lia.
  - intros _. exists audio. auto.
  - apply Nat.ltb_ge in Hpos. intros Hnil. split; [reflexivity|].
    rewrite Hnil in Hsplit. destruct audio; [exact Hsplit | discriminate].
  - apply Nat.ltb_ge in Hpos. intros Hne. exfalso.
    destruct (SwitchBuffer.contents (output_stream c));
      [congruence | simpl in Hlen; lia].
Qed.

Lemma write_replace_frame_witness :
  let c := mk audio_stream_create (SwitchBuffer.mk (repeat xff 100) 0) 5
              (Sock.carrying [] 0 [] Sock.PeerClosed) [] [] true [] in
  exists audio,
    fst (nova_bug_callback SWITCH_ABC_TYPE_WRITE_REPLACE
           (Some (repeat x00 320)) c) = Some audio /\
    length audio = 100%nat.
Proof.
  cbv zeta.
  destruct (write_replace_frame (repeat x00 320)
              (mk audio_stream_create (SwitchBuffer.mk (repeat xff 100) 0) 5
                  (Sock.carrying [] 0 [] Sock.PeerClosed) [] [] true []))
    as (_ & Haudio & _).
  - discriminate.
  - destruct Haudio as (audio & Hf & Hl & _); [discriminate|].
    exists audio. split; [exact Hf | exact Hl].
Defined.

End V1Receive.

(** ** Handshakes of any length *)

Section HandshakeLengths.

Lemma substring_length_min (m : nat) :
  forall s, String.length (substring 0 m s) = Nat.min m (String.length s).
Proof.
  induction m as [|m IH]; intros [|c s]; simpl; try reflexivity.
  rewrite IH. reflexivity.
Qed.

(** Cutting a text leaves a prefix of it. *)
Lemma substring_prefix (m : nat) :
  forall s, exists tail,
    s = (substring 0 m s ++ tail)%string /\
    String.length tail = (String.length s - m)%nat.
Proof.
  induction m as [|m IH]; intros s.
  - exists s. destruct s; simpl; auto.
  - destruct s as [|c s].
    + exists EmptyString. auto.
    + destruct (IH s) as (tail & Heq & Hlen). exists tail. simpl.
      rewrite <- Heq. auto.
Qed.

(** X12: the JSON handshake of the length-prefixed relay is never cut:
    for every session identifier and every caller number, present or not,
    it is the complete JSON line built from the two identifiers, each
    first cut to 127 characters, and it is at most 332 characters long. *)
Theorem json_handshake_complete (uuid : string) (caller : option string) :
  V3.handshake uuid caller
  = V3.handshake_json (V3.session_id uuid) (V3.caller_id caller) /\
  (String.length (V3.session_id uuid) <= 127)%nat /\
  (String.length (V3.caller_id caller) <= 127)%nat /\
  (String.length (V3.handshake uuid caller) <= 332)%nat /\
  ((String.length uuid <= 127)%nat -> V3.session_id uuid = uuid) /\
  (forall number,
      caller = Some number -> (String.length number <= 127)%nat ->
      V3.caller_id caller = number).
Proof.
  assert (Hsid : (String.length (V3.session_id uuid) <= 127)%nat)
    by apply (substring_length_le 127).
  assert (Hcid : (String.length (V3.caller_id caller) <= 127)%nat)
    by (destruct caller; apply (substring_length_le 127)).
  assert (Hfull : V3.handshake uuid caller
                  = V3.handshake_json (V3.session_id uuid)
                      (V3.caller_id caller)).
  { unfold V3.handshake. apply snprintf_fits.
    rewrite handshake_json_length. lia. }
  split; [exact Hfull|]. split; [exact Hsid|]. split; [exact Hcid|].
  split; [rewrite Hfull, handshake_json_length; lia|].
  split.
  - intros Hlen. apply snprintf_fits. lia.
  - intros number -> Hlen. apply snprintf_fits. lia.
Qed.

Lemma json_handshake_complete_witness :
  V3.session_id "abc-123" = "abc-123"%string /\
  V3.caller_id (Some "5551234567"%string) = "5551234567"%string.
Proof.
  destruct (json_handshake_complete "abc-123" (Some "5551234567"%string))
    as (_ & _ & _ & _ & Hsid & Hcid).
  split; [apply Hsid | apply (Hcid _ eq_refl)]; simpl; lia.
Defined.

Lemma snprintf_cut size text :
  (0 < size)%nat -> (size <= String.length text)%nat ->
  String.length (snprintf size text) = (size - 1)%nat /\
  exists tail, text = (snprintf size text ++ tail)%string /\
               tail <> EmptyString.
Proof.
  intros Hsize Hlong. unfold snprintf. split.
  - rewrite substring_length_min. lia.
  - destruct (substring_prefix (size - 1) text) as (tail & Heq & Hlen).
    exists tail. split; [exact Heq|].
    intros ->. simpl in Hlen. lia.
Qed.

(** X13: the text handshakes are cut to the size of their buffers.  A
    line that fits (255 characters in the raw relay, 511 in the tagged
    one) is sent whole, with the caller number as given; a longer line is
    sent as its first 255 or 511 characters only, so that its end,
    newline included, is missing. *)
Theorem line_handshake_cut :
  (forall session_id caller_id_number,
      let line := V1.handshake_line session_id
                    (V1.caller_id caller_id_number) in
      ((String.length line <= 255)%nat ->
       V1.handshake session_id caller_id_number = line) /\
      ((255 < String.length line)%nat ->
       String.length (V1.handshake session_id caller_id_number) = 255%nat /\
       exists tail,
         line = (V1.handshake session_id caller_id_number ++ tail)%string /\
         tail <> EmptyString)) /\
  (forall uuid caller,
      let line := V2.handshake_line uuid
                    (match caller with Some c => c | None => "unknown" end) in
      ((String.length line <= 511)%nat -> V2.handshake uuid caller = line) /\
      ((511 < String.length line)%nat ->
       String.length (V2.handshake uuid caller) = 511%nat /\
       exists tail,
         line = (V2.handshake uuid caller ++ tail)%string /\
         tail <> EmptyString)).
Proof.
  split.
  - intros sid caller. cbv zeta. unfold V1.handshake. split.
    + intros Hfit. apply snprintf_fits. lia.
    + intros Hlong. apply (snprintf_cut 256); lia.
  - intros uuid caller. cbv zeta. unfold V2.handshake. split.
    + intros Hfit. apply snprintf_fits. lia.
    + intros Hlong. apply (snprintf_cut 512); lia.
Qed.

Lemma line_handshake_cut_witness :
  V1.handshake "abc-123" (Some "5551234567"%string)
  = V1.handshake_line "abc-123" "5551234567" /\
  String.length
    (V2.handshake "abc-123" (Some (string_of_list_byte (repeat "7"%byte 600))))
  = 511%nat.
Proof.
  destruct line_handshake_cut as [H1 H2]. split.
  - apply (H1 "abc-123"%string (Some "5551234567"%string)). vm_compute. lia.
  - apply (H2 "abc-123"%string
              (Some (string_of_list_byte (repeat "7"%byte 600)))).
    vm_compute. lia.
Defined.

End HandshakeLengths.

(** ** More on the tagged receiver *)

Section V2More.
Import V2.

Lemma eqb_neq_false (a b : byte) : a <> b -> Byte.eqb a b = false.
Proof.
  intros Hne. destruct (Byte.eqb a b) eqn:H; [|reflexivity].
  apply byte_dec_bl in H. contradiction.
Qed.

Lemma unknown_tag_pass ctx b rest :
  Sock.pending (sock_fd ctx) = b :: rest -> unknown_tag b ->
  Sock.pending (sock_fd (recv_iteration ctx)) = rest /\
  running (recv_iteration ctx) = running ctx /\
  playback_queue (recv_iteration ctx) = playback_queue ctx /\
  hungup (recv_iteration ctx) = hungup ctx /\
  log (recv_iteration ctx) = log ctx ++ [LogUnknownTag b].
Proof.
  intros Hp [H1 H2]. unfold recv_iteration.
  destruct (recv_one _ _ _ Hp) as (s & -> & Hps & _). cbv zeta.
  rewrite (eqb_neq_false _ _ H1), (eqb_neq_false _ _ H2). v2_fields. auto.
Qed.

(** X14: bytes that are no known tag are skipped one at a time.  After as
    many passes as there are such bytes at the head of the stream, the
    receiver stands at the byte after them, still running, with one
    warning logged per byte and the playback queue and the channel as
    they were. *)
Theorem unknown_tags_skipped (junk : list byte) :
  forall ctx rest,
    Forall unknown_tag junk ->
    Sock.pending (sock_fd ctx) = junk ++ rest -> running ctx = true ->
    let ctx' := v2_run ctx (repeat RecvPass (length junk)) in
    Sock.pending (sock_fd ctx') = rest /\ running ctx' = true /\
    playback_queue ctx' = playback_queue ctx /\ hungup ctx' = hungup ctx /\
    log ctx' = log ctx ++ map LogUnknownTag junk.
Proof.
  induction junk as [|b junk IH]; intros ctx rest Hall Hp Hrun; cbv zeta.
  - cbn. rewrite app_nil_r. auto.
  - inversion Hall as [|? ? Hb Hjunk]; subst.
    cbn [length repeat v2_run fold_left v2_step]. rewrite Hrun.
    destruct (unknown_tag_pass ctx b (junk ++ rest) Hp Hb)
      as (Hp1 & Hr1 & Hq1 & Hh1 & Hl1).
    specialize (IH (recv_iteration ctx) rest Hjunk Hp1 ltac:(congruence)).
    cbv zeta in IH. unfold v2_run in IH.
    destruct IH as (Hp' & Hr' & Hq' & Hh' & Hl').
    repeat split; try congruence.
    rewrite Hl', Hl1, <- app_assoc. reflexivity.
Qed.

Lemma unknown_tags_skipped_witness :
  let ctx := new_ctx (Sock.carrying [x03; xff; x00; x01] 1 [0; 2]%nat
                        Sock.PeerClosed) in
  Sock.pending (sock_fd (v2_run ctx (repeat RecvPass 3))) = [x01].
Proof.
  cbv zeta.
  apply (unknown_tags_skipped [x03; xff; x00]
           (new_ctx (Sock.carrying [x03; xff; x00; x01] 1 [0; 2]%nat
                       Sock.PeerClosed)) [x01]).
  - repeat constructor; discriminate.
  - reflexivity.
  - reflexivity.
Defined.

(** The line loop on text without a newline: it takes bytes until the
    buffer is full or the connection ends. *)
Lemma read_control_no_newline :
  forall room txt ctrl_buf s,
    Sock.pending s = txt -> ~ In x0a (firstn room txt) ->
    exists s',
      read_control room ctrl_buf s = (ctrl_buf ++ firstn room txt, s') /\
      Sock.pending s' = skipn room txt.
Proof.
  induction room as [|room IH]; intros txt ctrl_buf s Hp Hnl;
    cbn [read_control firstn skipn].
  - exists s. rewrite app_nil_r. auto.
  - destruct txt as [|c txt].
    + pose proof (recv_spec s 1 ltac:(lia)) as Hr.
      destruct (Sock.recv s 1 false) as [[bs| |] s'].
      * destruct Hr as (Hne & _ & Hps & _). rewrite Hp in Hps.
        destruct bs; [congruence | discriminate].
      * destruct Hr as (_ & -> & _). exists s. rewrite app_nil_r. auto.
      * destruct Hr as (_ & -> & _). exists s. rewrite app_nil_r. auto.
    + destruct (recv_one s c txt Hp) as (s' & -> & Hp' & _).
      cbn [firstn] in Hnl.
      rewrite (eqb_neq_false c x0a)
        by (intros ->; apply Hnl; left; reflexivity).
      destruct (IH txt (ctrl_buf ++ [c]) s' Hp') as (s'' & -> & Hp'').
      * intros Hin. apply Hnl. right. exact Hin.
      * exists s''. rewrite <- app_assoc. auto.
Qed.

Lemma control_pass ctx txt s' :
  ~ In x00 txt ->
  let ctx' := control_message (set_sock s' ctx) txt in
  Sock.pending (sock_fd ctx') = Sock.pending s' /\
  playback_queue ctx' = playback_queue ctx /\
  (contains txt hangup_word ->
   running ctx' = false /\ hungup ctx' = Some SWITCH_CAUSE_NORMAL_CLEARING) /\
  (~ contains txt hangup_word ->
   running ctx' = running ctx /\ hungup ctx' = hungup ctx /\
   log ctx' = log ctx).
Proof.
  intros Hnul. cbv zeta. unfold control_message.
  rewrite (c_str_no_nul txt Hnul).
  destruct (strstr txt hangup_word) eqn:Hfind; v2_fields;
    (split; [reflexivity|]); (split; [reflexivity|]).
  - apply strstr_spec in Hfind. split; [auto | contradiction].
  - apply strstr_false_iff in Hfind. split; [contradiction | auto].
Qed.

(** X15: a control line is read up to 255 bytes.  When the 255 bytes
    after tag 0x02 hold no newline, exactly those bytes are the control
    text: the hangup test is made on them alone, and whatever follows,
    the rest of the line included, stays in the stream to be read as
    tags. *)
Theorem control_line_capped (ctx : nova_ctx_t) (txt rest : list byte) :
  Sock.pending (sock_fd ctx) = x02 :: txt ++ rest ->
  length txt = 255%nat -> ~ In x0a txt -> ~ In x00 txt ->
  let ctx' := recv_iteration ctx in
  Sock.pending (sock_fd ctx') = rest /\
  (contains txt hangup_word ->
   running ctx' = false /\ hungup ctx' = Some SWITCH_CAUSE_NORMAL_CLEARING) /\
  (~ contains txt hangup_word ->
   running ctx' = running ctx /\ hungup ctx' = hungup ctx).
Proof.
  intros Hp Hlen Hnl Hnul. cbv zeta. unfold recv_iteration.
  destruct (recv_one _ _ _ Hp) as (s & -> & Hps & _). cbv zeta.
  change (Byte.eqb x02 x01) with false.
  change (Byte.eqb x02 x02) with true. cbv iota.
  destruct (read_control_no_newline 255 (txt ++ rest) []
              (sock_fd (set_sock s ctx)) Hps) as (s' & -> & Hp').
  { rewrite <- Hlen, firstn_exact. exact Hnl. }
  rewrite <- Hlen, firstn_exact in *. rewrite skipn_exact in Hp'. cbn [app].
  destruct (control_pass (set_sock s ctx) txt s' Hnul) as (Hs & _ & Hyes & Hno).
  split; [rewrite <- Hp'; exact Hs|]. split; [exact Hyes|].
  intros Hc. destruct (Hno Hc) as (Hr & Hh & _). auto.
Qed.

Lemma control_line_capped_witness :
  let ctx := new_ctx (Sock.carrying
                        (x02 :: repeat "a"%byte 255 ++ hangup_word ++ [x0a])
                        0 [] Sock.PeerClosed) in
  Sock.pending (sock_fd (recv_iteration ctx)) = hangup_word ++ [x0a].
Proof.
  cbv zeta.
  apply (control_line_capped
           (new_ctx (Sock.carrying
                       (x02 :: repeat "a"%byte 255 ++ hangup_word ++ [x0a])
                       0 [] Sock.PeerClosed))
           (repeat "a"%byte 255) (hangup_word ++ [x0a])).
  - reflexivity.
  - apply repeat_length.
  - intros Hin. apply repeat_spec in Hin. discriminate Hin.
  - intros Hin. apply repeat_spec in Hin. discriminate Hin.
Defined.

Lemma closed_pass c :
  Sock.pending (sock_fd c) = [] ->
  running (recv_iteration c) = false /\
  log (recv_iteration c) = log c ++ [LogClosedAtTag].
Proof.
  intros Hnil. unfold recv_iteration.
  pose proof (recv_spec (sock_fd c) 1 ltac:(lia)) as Hrecv.
  destruct (Sock.recv (sock_fd c) 1 false) as [[bs| |] s].
  - destruct Hrecv as (Hne & _ & Hp & _). rewrite Hnil in Hp.
    destruct bs; [congruence | discriminate].
  - split; reflexivity.
  - split; reflexivity.
Qed.

Lemma cut_short_pass ctx txt :
  Sock.pending (sock_fd ctx) = x02 :: txt ->
  (length txt < 255)%nat -> ~ In x0a txt ->
  exists s s',
    recv_iteration ctx = control_message (set_sock s' (set_sock s ctx)) txt /\
    Sock.pending s' = [].
Proof.
  intros Hp Hlen Hnl. unfold recv_iteration.
  destruct (recv_one _ _ _ Hp) as (s & -> & Hps & _). cbv zeta.
  change (Byte.eqb x02 x01) with false.
  change (Byte.eqb x02 x02) with true. cbv iota.
  destruct (read_control_no_newline 255 txt [] (sock_fd (set_sock s ctx)) Hps)
    as (s' & -> & Hp').
  { rewrite firstn_all2 by lia. exact Hnl. }
  rewrite firstn_all2 by lia. rewrite skipn_all2 in Hp' by lia.
  exists s, s'. split; [reflexivity | exact Hp'].
Qed.

(** X16: a control line that the end of the connection cuts short is
    still acted on.  The bytes received after tag 0x02 are the control
    text and the hangup test is made on them; if it fails the pass logs
    nothing and leaves [running] set, and it is the next pass that finds
    the connection closed, reports it and stops the thread. *)
Theorem control_line_cut_short (ctx : nova_ctx_t) (txt : list byte) :
  Sock.pending (sock_fd ctx) = x02 :: txt ->
  (length txt < 255)%nat -> ~ In x0a txt -> ~ In x00 txt ->
  running ctx = true ->
  let ctx' := recv_iteration ctx in
  (contains txt hangup_word ->
   running ctx' = false /\ hungup ctx' = Some SWITCH_CAUSE_NORMAL_CLEARING) /\
  (~ contains txt hangup_word ->
   running ctx' = true /\ hungup ctx' = hungup ctx /\ log ctx' = log ctx /\
   running (recv_iteration ctx') = false /\
   log (recv_iteration ctx') = log ctx ++ [LogClosedAtTag]).
Proof.
  intros Hp Hlen Hnl Hnul Hrun. cbv zeta.
  destruct (cut_short_pass ctx txt Hp Hlen Hnl) as (s & s' & -> & Hp').
  destruct (control_pass (set_sock s ctx) txt s' Hnul) as (Hs & _ & Hyes & Hno).
  cbv zeta in Hs, Hyes, Hno. split; [exact Hyes|].
  intros Hc. destruct (Hno Hc) as (Hr & Hh & Hl).
  split; [rewrite Hr; exact Hrun|]. split; [rewrite Hh; reflexivity|].
  split; [rewrite Hl; reflexivity|].
  destruct (closed_pass (control_message (set_sock s' (set_sock s ctx)) txt))
    as [Hc1 Hc2].
  { rewrite Hs. exact Hp'. }
  split; [exact Hc1 | rewrite Hc2, Hl; reflexivity].
Qed.

Lemma control_line_cut_short_witness :
  let ctx := new_ctx (Sock.carrying (x02 :: hangup_word) 0 [] Sock.PeerClosed) in
  running (recv_iteration ctx) = false /\
  hungup (recv_iteration ctx) = Some SWITCH_CAUSE_NORMAL_CLEARING.
Proof.
  cbv zeta.
  apply (control_line_cut_short
           (new_ctx (Sock.carrying (x02 :: hangup_word) 0 [] Sock.PeerClosed))
           hangup_word).
  - reflexivity.
  - vm_compute. lia.
  - vm_compute. intuition discriminate.
  - vm_compute. intuition discriminate.
  - reflexivity.
  - exists [], []. rewrite app_nil_r. reflexivity.
Defined.

End V2More.

(** ** Whole streams of audio *)

Section V2Stream.
Import V2.

(** One tagged audio frame met by a queue with room, for every arrival
    schedule. *)
Lemma tagged_audio_pass ctx payload rest :
  Sock.pending (sock_fd ctx) = x01 :: payload ++ rest ->
  length payload = 640%nat -> (occupied ctx < capacity ctx)%nat ->
  let ctx' := recv_iteration ctx in
  Sock.pending (sock_fd ctx') = rest /\ running ctx' = running ctx /\
  hungup ctx' = hungup ctx /\ log ctx' = log ctx /\
  capacity ctx' = capacity ctx /\
  SwitchQueue.items (playback_queue ctx')
  = SwitchQueue.items (playback_queue ctx) ++ [payload].
Proof.
  intros Hp Hlen Hroom. cbv zeta. unfold recv_iteration.
  destruct (recv_one _ _ _ Hp) as (s & -> & Hps & _). cbv zeta.
  change (Byte.eqb x01 x01) with true. cbv iota.
  remember (set_sock s ctx) as c1 eqn:Hc1.
  assert (Hs1 : sock_fd c1 = s) by (subst c1; reflexivity).
  pose proof (audio_frame_spec_v2 c1) as H. cbv zeta in H.
  rewrite Hs1, Hps in H.
  replace (640 <=? length (payload ++ rest))%nat with true in H
    by (symmetry; apply Nat.leb_le; rewrite length_app; lia).
  destruct H as (s' & Hp' & ->).
  rewrite <- Hlen, firstn_exact. rewrite <- Hlen, skipn_exact in Hp'.
  pose proof (queue_for_playback_spec (set_sock s' c1) payload)
    as (Hs & Hr & Hh & Hcap & Hq).
  cbv zeta in Hq. unfold occupied, capacity in *.
  replace (SwitchQueue.size (playback_queue (set_sock s' c1))
           <? SwitchQueue.capacity (playback_queue (set_sock s' c1)))%nat
    with true in Hq
    by (symmetry; apply Nat.ltb_lt; subst c1; exact Hroom).
  destruct Hq as [Hitems Hlog].
  rewrite Hs, Hr, Hh, Hlog, Hcap, Hitems. subst c1. v2_fields. repeat split; auto.
Qed.

Lemma tagged_stream_loop (frames : list (list byte)) :
  forall fuel ctx,
    Sock.pending (sock_fd ctx) = tagged_audio frames ->
    Forall (fun f => length f = 640%nat) frames ->
    running ctx = true ->
    (occupied ctx + length frames <= capacity ctx)%nat ->
    (length frames < fuel)%nat ->
    exists ctx',
      recv_loop fuel ctx = Some ctx' /\
      SwitchQueue.items (playback_queue ctx')
      = SwitchQueue.items (playback_queue ctx) ++ frames /\
      running ctx' = false /\ hungup ctx' = hungup ctx /\
      log ctx' = log ctx ++ [LogClosedAtTag].
Proof.
  induction frames as [|f frames IH]; intros fuel ctx Hp Hall Hrun Hroom Hfuel;
    (destruct fuel as [|fuel]; [simpl in Hfuel; lia|]);
    cbn [recv_loop]; rewrite Hrun.
  - destruct (closed_pass ctx Hp) as [Hstop Hlog].
    exists (recv_iteration ctx).
    assert (Hkeep : playback_queue (recv_iteration ctx) = playback_queue ctx /\
                    hungup (recv_iteration ctx) = hungup ctx).
    { unfold recv_iteration.
      pose proof (recv_spec (sock_fd ctx) 1 ltac:(lia)) as Hrecv.
      destruct (Sock.recv (sock_fd ctx) 1 false) as [[bs| |] s].
      - destruct Hrecv as (Hne & _ & Hps & _). cbn in Hp. rewrite Hp in Hps.
        destruct bs; [congruence | discriminate].
      - split; reflexivity.
      - split; reflexivity. }
    destruct Hkeep as [Hq Hh].
    split; [destruct fuel; cbn [recv_loop]; rewrite Hstop; reflexivity|].
    rewrite Hq, app_nil_r. auto.
  - inversion Hall as [|? ? Hf Hrest]; subst.
    cbn [tagged_audio flat_map] in Hp. cbn [app] in Hp.
    destruct (tagged_audio_pass ctx f (tagged_audio frames) Hp Hf)
      as (Hp1 & Hr1 & Hh1 & Hl1 & Hc1 & Hi1).
    { simpl in Hroom. lia. }
    destruct (IH fuel (recv_iteration ctx) Hp1 Hrest ltac:(congruence))
      as (ctx' & Hloop & Hitems & Hstop & Hh & Hlog).
    { unfold occupied, SwitchQueue.size in *. rewrite Hc1, Hi1, length_app.
      simpl in *. lia. }
    { simpl in Hfuel. lia. }
    exists ctx'. split; [exact Hloop|].
    rewrite Hitems, Hi1, <- app_assoc, Hh, Hh1, Hlog, Hl1. auto.
Qed.

(** X17: a stream of tagged audio frames reaches the playback queue
    whole.  When the gateway sends frames of tag 0x01 and 640 bytes one
    after the other and then closes, and the queue has room for them, the
    receive thread, whatever the arrival schedule, ends with exactly those
    frames added to the queue in order, reports the closed connection and
    leaves the channel as it was. *)
Theorem tagged_stream_queued (frames : list (list byte)) (fuel : nat)
  (ctx : nova_ctx_t) :
  Sock.pending (sock_fd ctx) = tagged_audio frames ->
  Forall (fun f => length f = 640%nat) frames ->
  running ctx = true ->
  (occupied ctx + length frames <= capacity ctx)%nat ->
  (length frames < fuel)%nat ->
  exists ctx',
    gateway_recv_thread fuel ctx = Some ctx' /\
    SwitchQueue.items (playback_queue ctx')
    = SwitchQueue.items (playback_queue ctx) ++ frames /\
    running ctx' = false /\ hungup ctx' = hungup ctx /\
    log ctx' = log ctx ++ [LogRecvStarted; LogClosedAtTag; LogRecvExiting].
Proof.
  intros Hp Hall Hrun Hroom Hfuel. unfold gateway_recv_thread.
  destruct (tagged_stream_loop frames fuel (add_log LogRecvStarted ctx))
    as (ctx' & -> & Hitems & Hstop & Hh & Hlog); try assumption.
  eexists. split; [reflexivity|]. v2_fields.
  rewrite Hitems, Hlog. v2_fields. rewrite <- !app_assoc. auto.
Qed.

Lemma tagged_stream_queued_witness :
  let frames := [repeat x00 640; repeat xff 640] in
  let ctx := new_ctx (Sock.carrying (tagged_audio frames) 7 [100; 3; 900]%nat
                        Sock.PeerClosed) in
  exists ctx',
    gateway_recv_thread 3 ctx = Some ctx' /\
    SwitchQueue.items (playback_queue ctx') = frames.
Proof.
  cbv zeta.
  destruct (tagged_stream_queued [repeat x00 640; repeat xff 640] 3
              (new_ctx (Sock.carrying
                          (tagged_audio [repeat x00 640; repeat xff 640]) 7
                          [100; 3; 900]%nat Sock.PeerClosed)))
    as (ctx' & Hth & Hitems & _).
  - reflexivity.
  - repeat constructor; apply repeat_length.
  - reflexivity.
  - vm_compute. lia.
  - simpl. lia.
  - exists ctx'. split; [exact Hth | exact Hitems].
Defined.

End V2Stream.

Section V3Stream.
Import V3.

(** What a peek for four bytes returns: a prefix of the pending bytes,
    and the first four of them when it returns four. *)
Lemma recv_peek_header s :
  let r := fst (Sock.recv s 4 true) in
  Sock.ssize r = 4 ->
  Sock.bytes r = firstn 4 (Sock.pending s) /\
  (4 <= length (Sock.pending s))%nat.
Proof.
  cbv zeta. unfold Sock.recv.
  destruct (Sock.pending s) as [|b rest] eqn:Hp.
  - destruct (Sock.ending s); cbn; discriminate.
  - pose proof (available_bounds s) as Hav. rewrite Hp in Hav.
    specialize (Hav ltac:(discriminate)).
    destruct (Sock.available s) as [a later]. cbn [fst] in *.
    cbn [Sock.ssize Sock.bytes]. rewrite length_firstn. intros Hfour.
    assert (Nat.min 4 a = 4%nat) by lia.
    rewrite H. split; [reflexivity | lia].
Qed.

Lemma not_control_header p v :
  v = 0 \/ v = 320 \/ 1024 <= v -> looks_like_control p v = false.
Proof.
  intros Hv. unfold looks_like_control.
  destruct (p =? 4), (0 <? v) eqn:A, (v <? 1024) eqn:B, (v =? 320) eqn:C;
    try reflexivity; cbn;
    apply Z.ltb_lt in A; apply Z.ltb_lt in B; apply Z.eqb_neq in C; lia.
Qed.

(** One raw audio frame, for every arrival schedule. *)
Lemma raw_audio_pass ctx f rest :
  Sock.pending (wire ctx) = f ++ rest -> raw_audio_frame f ->
  let ctx' := recv_iteration ctx in
  Sock.pending (wire ctx') = rest /\
  output_stream ctx' = snd (SwitchBuffer.write (output_stream ctx) f) /\
  running ctx' = running ctx /\ hungup ctx' = hungup ctx /\
  gateway_socket ctx' = gateway_socket ctx /\
  log ctx' = log ctx ++ [LogAudioReceived].
Proof.
  intros Hp [Hlen Hhdr]. cbv zeta. unfold recv_iteration.
  pose proof (recv_peek_keeps (wire ctx) 4) as [Hpk _].
  pose proof (recv_peek_header (wire ctx)) as Hpeek. cbv zeta in Hpeek.
  destruct (Sock.recv (wire ctx) 4 true) as [header s]. cbn [fst snd] in *.
  assert (Hlook : looks_like_control (Sock.ssize header)
                    (be32 (Sock.bytes header)) = false).
  { destruct (Sock.ssize header =? 4) eqn:Hfour;
      [|unfold looks_like_control; rewrite Hfour; reflexivity].
    apply Z.eqb_eq in Hfour. destruct (Hpeek Hfour) as [Hb _].
    assert (Hfirst : firstn 4 (f ++ rest) = firstn 4 f).
    { rewrite firstn_app. replace (4 - length f)%nat with 0%nat by lia.
      apply app_nil_r. }
    rewrite Hb, Hp, Hfirst. apply not_control_header. exact Hhdr. }
  rewrite Hlook.
  pose proof (audio_frame_spec (set_wire s ctx)) as (Hg & Hh & H).
  cbv zeta in H. cbn [wire set_wire] in H. rewrite Hpk, Hp in H.
  replace (320 <=? length (f ++ rest))%nat with true in H
    by (symmetry; apply Nat.leb_le; rewrite length_app; lia).
  rewrite <- Hlen, firstn_exact, skipn_exact in H.
  destruct H as (Hp' & Hr & Hl & Ho). repeat split; assumption.
Qed.

Lemma raw_stream_loop (frames : list (list byte)) :
  forall fuel ctx,
    Sock.pending (wire ctx) = concat frames ->
    Forall raw_audio_frame frames ->
    running ctx = true -> 0 < gateway_socket ctx ->
    (length (SwitchBuffer.contents (output_stream ctx))
     + length (concat frames) <= SwitchBuffer.max_len (output_stream ctx))%nat ->
    (length frames < fuel)%nat ->
    exists ctx',
      recv_loop fuel ctx = Some ctx' /\
      SwitchBuffer.contents (output_stream ctx')
      = SwitchBuffer.contents (output_stream ctx) ++ concat frames /\
      running ctx' = false /\ hungup ctx' = hungup ctx.
Proof.
  induction frames as [|f frames IH];
    intros fuel ctx Hp Hall Hrun Hsock Hroom Hfuel;
    (destruct fuel as [|fuel]; [simpl in Hfuel; lia|]);
    cbn [recv_loop]; rewrite Hrun;
    replace (0 <? gateway_socket ctx) with true
      by (symmetry; apply Z.ltb_lt; exact Hsock);
    cbn [andb].
  - cbn [concat] in *.
    assert (Hpass : running (recv_iteration ctx) = false /\
                    output_stream (recv_iteration ctx) = output_stream ctx /\
                    hungup (recv_iteration ctx) = hungup ctx).
    { unfold recv_iteration.
      pose proof (recv_peek_keeps (wire ctx) 4) as [Hpk _].
      pose proof (recv_peek_header (wire ctx)) as Hpeek. cbv zeta in Hpeek.
      destruct (Sock.recv (wire ctx) 4 true) as [header s]. cbn [fst snd] in *.
      assert (Hlook : looks_like_control (Sock.ssize header)
                        (be32 (Sock.bytes header)) = false).
      { unfold looks_like_control.
        destruct (Sock.ssize header =? 4) eqn:Hfour; [|reflexivity].
        apply Z.eqb_eq in Hfour. destruct (Hpeek Hfour) as [_ Hlen].
        rewrite Hp in Hlen. simpl in Hlen. lia. }
      rewrite Hlook.
      pose proof (audio_frame_spec (set_wire s ctx)) as (_ & Hh & H).
      cbv zeta in H. cbn [wire set_wire] in H. rewrite Hpk, Hp in H.
      cbn [length Nat.leb] in H. destruct H as (Hr & Ho & _).
      repeat split; assumption. }
    destruct Hpass as (Hstop & Ho & Hh).
    exists (recv_iteration ctx).
    split; [destruct fuel; cbn [recv_loop]; rewrite Hstop; reflexivity|].
    rewrite Ho, app_nil_r. auto.
  - inversion Hall as [|? ? Hf Hrest]; subst. cbn [concat] in Hp, Hroom.
    destruct (raw_audio_pass ctx f (concat frames) Hp Hf)
      as (Hp1 & Ho1 & Hr1 & Hh1 & Hg1 & _).
    rewrite length_app in Hroom.
    assert (Hw : snd (SwitchBuffer.write (output_stream ctx) f)
                 = SwitchBuffer.mk (SwitchBuffer.contents (output_stream ctx) ++ f)
                     (SwitchBuffer.max_len (output_stream ctx))).
    { unfold SwitchBuffer.write.
      replace (length (SwitchBuffer.contents (output_stream ctx)) + length f
               <=? SwitchBuffer.max_len (output_stream ctx))%nat with true
        by (symmetry; apply Nat.leb_le; lia).
      reflexivity. }
    rewrite Hw in Ho1.
    destruct (IH fuel (recv_iteration ctx) Hp1 Hrest ltac:(congruence))
      as (ctx' & Hloop & Hout & Hstop & Hh).
    { rewrite Hg1. exact Hsock. }
    { rewrite Ho1. cbn [SwitchBuffer.contents SwitchBuffer.max_len].
      rewrite length_app. lia. }
    { simpl in Hfuel. lia. }
    exists ctx'. split; [exact Hloop|].
    rewrite Hout, Ho1. cbn [SwitchBuffer.contents].
    rewrite <- app_assoc, Hh, Hh1. auto.
Qed.

(** X18: a stream of raw audio frames reaches the output stream whole.
    When the gateway sends 320-byte frames whose first four bytes do not
    read as a control length (value 0, 320, or 1024 and more) and then
    closes, and the output stream has room, the receive thread, whatever
    the arrival schedule, ends with exactly those bytes appended to the
    output stream, [running] cleared and no hangup of its own. *)
Theorem raw_stream_delivered (frames : list (list byte)) (fuel : nat)
  (ctx : nova_session_t) :
  Sock.pending (wire ctx) = concat frames ->
  Forall raw_audio_frame frames ->
  running ctx = true -> 0 < gateway_socket ctx ->
  (length (SwitchBuffer.contents (output_stream ctx))
   + length (concat frames) <= SwitchBuffer.max_len (output_stream ctx))%nat ->
  (length frames < fuel)%nat ->
  exists ctx',
    nova_recv_thread fuel ctx = Some ctx' /\
    SwitchBuffer.contents (output_stream ctx')
    = SwitchBuffer.contents (output_stream ctx) ++ concat frames /\
    running ctx' = false /\ hungup ctx' = hungup ctx.
Proof.
  intros Hp Hall Hrun Hsock Hroom Hfuel. unfold nova_recv_thread.
  destruct (raw_stream_loop frames fuel (add_log LogRecvStarted ctx))
    as (ctx' & -> & Hout & Hstop & Hh); try assumption.
  eexists. split; [reflexivity|]. v3_fields. auto.
Qed.

Lemma raw_stream_delivered_witness :
  let frames := [repeat x00 320; repeat xff 320] in
  let ctx := v3_session (Sock.carrying (concat frames) 3 [1; 500; 2]%nat
                           Sock.IoError) in
  exists ctx',
    nova_recv_thread 3 ctx = Some ctx' /\
    SwitchBuffer.contents (output_stream ctx') = concat frames.
Proof.
  cbv zeta.
  destruct (raw_stream_delivered [repeat x00 320; repeat xff 320] 3
              (v3_session (Sock.carrying
                             (concat [repeat x00 320; repeat xff 320]) 3
                             [1; 500; 2]%nat Sock.IoError)))
    as (ctx' & Hth & Hout & _).
  - reflexivity.
  - constructor; [|constructor; [|constructor]].
    + split; [apply repeat_length | left; vm_compute; reflexivity].
    + split; [apply repeat_length | right; right; vm_compute; discriminate].
  - reflexivity.
  - reflexivity.
  - unfold v3_session.
    cbn [output_stream SwitchBuffer.contents SwitchBuffer.max_len length].
    replace (length (concat [repeat x00 320; repeat xff 320])) with 640%nat
      by (vm_compute; reflexivity).
    lia.
  - simpl. lia.
  - exists ctx'. split; [exact Hth | exact Hout].
Defined.

(** X19: a length-prefixed message that has arrived in full is consumed
    exactly.  When the four peeked bytes read as a value v with
    0 < v < 1024 and v other than 320, and the v bytes after them have
    arrived, the pass takes 4 + v bytes from the stream, logs the text as
    a control message and leaves the output stream untouched, whatever
    the bytes were meant to be. *)
Theorem control_frame_consumed (ctx : nova_session_t)
  (hdr txt rest : list byte) :
  Sock.pending (wire ctx) = hdr ++ txt ++ rest ->
  length hdr = 4%nat -> be32 hdr = Z.of_nat (length txt) ->
  (0 < length txt < 1024)%nat -> length txt <> 320%nat ->
  (4 + length txt <= Sock.arrived (wire ctx))%nat ->
  let ctx' := recv_iteration ctx in
  Sock.pending (wire ctx') = rest /\
  output_stream ctx' = output_stream ctx /\
  exists more,
    log ctx' = log ctx ++ LogControlMessage (c_str txt) :: more.
Proof.
  intros Hp Hh Hv Hrange Hne Harr. cbv zeta.
  destruct (control_frame_delivered ctx hdr txt rest Hp Hh Hv Hrange Hne Harr)
    as (s' & -> & Hp' & _).
  destruct (control_message_keeps (set_wire s' ctx) txt) as (Ho & Hw & _).
  rewrite Ho, Hw. v3_fields. split; [exact Hp'|]. split; [reflexivity|].
  unfold control_message. cbv zeta.
  destruct (strstr (c_str txt) hangup_json); v3_fields.
  - exists [LogHangupRequested]. rewrite <- app_assoc. reflexivity.
  - exists []. reflexivity.
Qed.

Lemma control_frame_consumed_witness :
  let ctx := v3_session (Sock.carrying
                           ([x00; x00; x00; x05] ++ repeat x00 316) 320 []
                           Sock.PeerClosed) in
  Sock.pending (wire (recv_iteration ctx)) = repeat x00 311 /\
  output_stream (recv_iteration ctx) = output_stream ctx.
Proof.
  cbv zeta.
  destruct (control_frame_consumed
              (v3_session (Sock.carrying
                             ([x00; x00; x00; x05] ++ repeat x00 316) 320 []
                             Sock.PeerClosed))
              [x00; x00; x00; x05] (repeat x00 5) (repeat x00 311))
    as (Hp & Ho & _).
  - reflexivity.
  - reflexivity.
  - vm_compute. reflexivity.
  - vm_compute. lia.
  - vm_compute. discriminate.
  - vm_compute. lia.
  - split; [exact Hp | exact Ho].
Defined.

End V3Stream.

(** ** Connections that end inside an audio frame *)

Section CutStreams.

Lemma cut_short_length whole partial :
  cut_short whole partial -> (length partial < length whole)%nat.
Proof.
  intros (tail & Hne & ->). rewrite length_app.
  destruct tail; [congruence | simpl; lia].
Qed.

Lemma cut_short_header whole partial :
  cut_short whole partial -> (4 <= length partial)%nat ->
  firstn 4 partial = firstn 4 whole.
Proof.
  intros (tail & _ & ->) Hlen. rewrite firstn_app.
  replace (4 - length partial)%nat with 0%nat by lia.
  cbn [firstn]. rewrite app_nil_r. reflexivity.
Qed.

(** A header that does not read as a control length sends the pass down
    the audio path, however many of its bytes the peek finds. *)
Lemma audio_path ctx :
  ((4 <= length (Sock.pending (V3.wire ctx)))%nat ->
   let v := V3.be32 (firstn 4 (Sock.pending (V3.wire ctx))) in
   v = 0 \/ v = 320 \/ 1024 <= v) ->
  exists s,
    V3.recv_iteration ctx = V3.audio_frame (V3.set_wire s ctx) /\
    Sock.pending s = Sock.pending (V3.wire ctx) /\
    Sock.ending s = Sock.ending (V3.wire ctx).
Proof.
  intros Hhdr. unfold V3.recv_iteration.
  pose proof (recv_peek_keeps (V3.wire ctx) 4) as [Hpk Hek].
  pose proof (recv_peek_header (V3.wire ctx)) as Hpeek. cbv zeta in Hpeek.
  destruct (Sock.recv (V3.wire ctx) 4 true) as [header s]. cbn [fst snd] in *.
  assert (Hlook : V3.looks_like_control (Sock.ssize header)
                    (V3.be32 (Sock.bytes header)) = false).
  { destruct (Sock.ssize header =? 4) eqn:Hfour;
      [|unfold V3.looks_like_control; rewrite Hfour; reflexivity].
    apply Z.eqb_eq in Hfour. destruct (Hpeek Hfour) as [Hb Hlen].
    rewrite Hb. apply not_control_header. apply Hhdr. exact Hlen. }
  rewrite Hlook. exists s. auto.
Qed.

Lemma audio_frame_ending ctx :
  (320 <= length (Sock.pending (V3.wire ctx)))%nat ->
  Sock.ending (V3.wire (V3.audio_frame ctx)) = Sock.ending (V3.wire ctx).
Proof.
  intros Hlen. unfold V3.audio_frame.
  destruct (recv_exact_complete 320 (V3.wire ctx) Hlen) as (s' & Hr & _ & He).
  rewrite Hr. cbn [V3.set_wire V3.output_stream].
  destruct (SwitchBuffer.write (V3.output_stream ctx)
              (firstn 320 (Sock.pending (V3.wire ctx)))) as [n b].
  v3_fields. exact He.
Qed.

Lemma raw_audio_pass_ending ctx f rest :
  Sock.pending (V3.wire ctx) = f ++ rest -> raw_audio_frame f ->
  Sock.ending (V3.wire (V3.recv_iteration ctx)) = Sock.ending (V3.wire ctx).
Proof.
  intros Hp [Hlen Hhdr].
  destruct (audio_path ctx) as (s & -> & Hps & Hes).
  { intros _. cbv zeta. rewrite Hp, firstn_app.
    replace (4 - length f)%nat with 0%nat by lia.
    cbn [firstn]. rewrite app_nil_r. exact Hhdr. }
  rewrite audio_frame_ending; v3_fields; [exact Hes|].
  rewrite Hps, Hp, length_app. lia.
Qed.

(** The pass that meets the cut frame: nothing is pushed, the ending of
    the connection is logged and [running] cleared. *)
Lemma cut_frame_pass ctx f partial :
  Sock.pending (V3.wire ctx) = partial ->
  raw_audio_frame f -> cut_short f partial ->
  let ctx' := V3.recv_iteration ctx in
  V3.running ctx' = false /\
  V3.output_stream ctx' = V3.output_stream ctx /\
  V3.hungup ctx' = V3.hungup ctx /\
  V3.log ctx' = V3.log ctx ++ [end_report (Sock.ending (V3.wire ctx))].
Proof.
  intros Hp [Hlen Hhdr] Hcut. cbv zeta.
  pose proof (cut_short_length _ _ Hcut) as Hshort.
  destruct (audio_path ctx) as (s & -> & Hps & Hes).
  { intros Hfour. cbv zeta. rewrite Hp in *.
    rewrite (cut_short_header _ _ Hcut Hfour). exact Hhdr. }
  pose proof (audio_frame_spec (V3.set_wire s ctx)) as (_ & Hh & H).
  cbv zeta in H. cbn [V3.wire V3.set_wire] in H. rewrite Hps, Hp in H.
  replace (320 <=? length partial)%nat with false in H
    by (symmetry; apply Nat.leb_gt; lia).
  destruct H as (Hr & Ho & _ & Hl).
  rewrite Hes in Hl. unfold end_report. auto.
Qed.

Lemma write_frames_room (frames : list (list byte)) :
  forall b,
    (length (SwitchBuffer.contents b) + length (concat frames)
     <= SwitchBuffer.max_len b)%nat ->
    SwitchBuffer.contents (write_frames b frames)
    = SwitchBuffer.contents b ++ concat frames.
Proof.
  induction frames as [|f frames IH]; intros b Hroom.
  - cbn [write_frames fold_left concat]. rewrite app_nil_r. reflexivity.
  - cbn [concat] in *. rewrite length_app in Hroom.
    change (write_frames b (f :: frames))
      with (write_frames (snd (SwitchBuffer.write b f)) frames).
    assert (Hw : snd (SwitchBuffer.write b f)
                 = SwitchBuffer.mk (SwitchBuffer.contents b ++ f)
                     (SwitchBuffer.max_len b)).
    { unfold SwitchBuffer.write.
      replace (length (SwitchBuffer.contents b) + length f
               <=? SwitchBuffer.max_len b)%nat with true
        by (symmetry; apply Nat.leb_le; lia).
      reflexivity. }
    rewrite Hw, IH; cbn [SwitchBuffer.contents SwitchBuffer.max_len].
    + rewrite <- app_assoc. reflexivity.
    + rewrite length_app. lia.
Qed.

Lemma cut_stream_loop (frames : list (list byte)) :
  forall fuel ctx f partial,
    Sock.pending (V3.wire ctx) = concat frames ++ partial ->
    Forall raw_audio_frame frames ->
    raw_audio_frame f -> cut_short f partial ->
    V3.running ctx = true -> 0 < V3.gateway_socket ctx ->
    (length frames < fuel)%nat ->
    exists ctx',
      V3.recv_loop fuel ctx = Some ctx' /\
      V3.output_stream ctx' = write_frames (V3.output_stream ctx) frames /\
      V3.running ctx' = false /\ V3.hungup ctx' = V3.hungup ctx /\
      V3.log ctx'
      = V3.log ctx ++ repeat V3.LogAudioReceived (length frames)
          ++ [end_report (Sock.ending (V3.wire ctx))].
Proof.
  induction frames as [|f0 frames IH];
    intros fuel ctx f partial Hp Hall Hf Hcut Hrun Hsock Hfuel;
    (destruct fuel as [|fuel]; [simpl in Hfuel; lia|]);
    cbn [V3.recv_loop]; rewrite Hrun;
    replace (0 <? V3.gateway_socket ctx) with true
      by (symmetry; apply Z.ltb_lt; exact Hsock);
    cbn [andb].
  - cbn [concat app] in Hp.
    destruct (cut_frame_pass ctx f partial Hp Hf Hcut) as (Hstop & Ho & Hh & Hl).
    exists (V3.recv_iteration ctx).
    split; [destruct fuel; cbn [V3.recv_loop]; rewrite Hstop; reflexivity|].
    rewrite Ho, Hl. cbn [write_frames fold_left length repeat app]. auto.
  - inversion Hall as [|? ? Hf0 Hrest]; subst.
    cbn [concat] in Hp. rewrite <- app_assoc in Hp.
    destruct (raw_audio_pass ctx f0 (concat frames ++ partial) Hp Hf0)
      as (Hp1 & Ho1 & Hr1 & Hh1 & Hg1 & Hl1).
    pose proof (raw_audio_pass_ending ctx f0 _ Hp Hf0) as He1.
    destruct (IH fuel (V3.recv_iteration ctx) f partial Hp1 Hrest Hf Hcut
                ltac:(congruence))
      as (ctx' & Hloop & Hout & Hstop & Hh & Hlog).
    { rewrite Hg1. exact Hsock. }
    { simpl in Hfuel. lia. }
    exists ctx'. split; [exact Hloop|].
    rewrite Hout, Ho1, Hh, Hh1, Hlog, Hl1, He1.
    cbn [write_frames fold_left length repeat].
    rewrite <- !app_assoc. auto.
Qed.

(** The pass that meets a tagged frame cut short. *)
Lemma cut_tagged_pass ctx partial :
  Sock.pending (V2.sock_fd ctx) = x01 :: partial ->
  (length partial < 640)%nat ->
  let ctx' := V2.recv_iteration ctx in
  V2.running ctx' = false /\
  V2.playback_queue ctx' = V2.playback_queue ctx /\
  V2.hungup ctx' = V2.hungup ctx /\
  V2.log ctx' = V2.log ctx ++ [V2.LogClosedInAudio].
Proof.
  intros Hp Hshort. cbv zeta. unfold V2.recv_iteration.
  destruct (recv_one _ _ _ Hp) as (s & -> & Hps & _). cbv zeta.
  change (Byte.eqb x01 x01) with true. cbv iota.
  pose proof (audio_frame_spec_v2 (V2.set_sock s ctx)) as H. cbv zeta in H.
  cbn [V2.sock_fd V2.set_sock] in H. rewrite Hps in H.
  replace (640 <=? length partial)%nat with false in H
    by (symmetry; apply Nat.leb_gt; lia).
  destruct H as (Hr & Hq & Hh & _ & Hl). auto.
Qed.

(** One whole tagged frame: queued, or dropped with a warning by a full
    queue. *)
Lemma tagged_frame_pass ctx payload rest :
  Sock.pending (V2.sock_fd ctx) = x01 :: payload ++ rest ->
  length payload = 640%nat ->
  let ctx' := V2.recv_iteration ctx in
  Sock.pending (V2.sock_fd ctx') = rest /\
  V2.running ctx' = V2.running ctx /\ V2.hungup ctx' = V2.hungup ctx /\
  capacity ctx' = capacity ctx /\
  if (occupied ctx <? capacity ctx)%nat
  then SwitchQueue.items (V2.playback_queue ctx')
       = SwitchQueue.items (V2.playback_queue ctx) ++ [payload] /\
       V2.log ctx' = V2.log ctx
  else V2.playback_queue ctx' = V2.playback_queue ctx /\
       V2.log ctx' = V2.log ctx ++ [V2.LogQueueFull].
Proof.
  intros Hp Hlen. cbv zeta. unfold V2.recv_iteration.
  destruct (recv_one _ _ _ Hp) as (s & -> & Hps & _). cbv zeta.
  change (Byte.eqb x01 x01) with true. cbv iota.
  pose proof (audio_frame_spec_v2 (V2.set_sock s ctx)) as H. cbv zeta in H.
  cbn [V2.sock_fd V2.set_sock] in H. rewrite Hps in H.
  replace (640 <=? length (payload ++ rest))%nat with true in H
    by (symmetry; apply Nat.leb_le; rewrite length_app; lia).
  destruct H as (s' & Hp' & ->).
  rewrite <- Hlen, firstn_exact. rewrite <- Hlen, skipn_exact in Hp'.
  pose proof (queue_for_playback_spec (V2.set_sock s' (V2.set_sock s ctx))
                payload) as (Hs & Hr & Hh & Hcap & Hq).
  cbv zeta in Hq. unfold occupied, capacity.
  rewrite Hs, Hr, Hh, Hcap. v2_fields.
  cbn [V2.sock_fd V2.running V2.playback_queue V2.hungup V2.log V2.set_sock]
    in Hq.
  repeat split; auto.
Qed.

Lemma cut_tagged_loop (frames : list (list byte)) :
  forall fuel ctx partial,
    Sock.pending (V2.sock_fd ctx) = tagged_audio frames ++ x01 :: partial ->
    Forall (fun f => length f = 640%nat) frames ->
    (length partial < 640)%nat ->
    V2.running ctx = true ->
    (length frames < fuel)%nat ->
    exists ctx',
      V2.recv_loop fuel ctx = Some ctx' /\
      SwitchQueue.items (V2.playback_queue ctx')
      = SwitchQueue.items (V2.playback_queue ctx)
          ++ firstn (capacity ctx - occupied ctx) frames /\
      V2.running ctx' = false /\ V2.hungup ctx' = V2.hungup ctx /\
      V2.log ctx'
      = V2.log ctx
          ++ repeat V2.LogQueueFull
               (length frames - (capacity ctx - occupied ctx))
          ++ [V2.LogClosedInAudio].
Proof.
  induction frames as [|f frames IH];
    intros fuel ctx partial Hp Hall Hshort Hrun Hfuel;
    (destruct fuel as [|fuel]; [simpl in Hfuel; lia|]);
    cbn [V2.recv_loop]; rewrite Hrun.
  - cbn [tagged_audio flat_map app] in Hp.
    destruct (cut_tagged_pass ctx partial Hp Hshort) as (Hstop & Hq & Hh & Hl).
    exists (V2.recv_iteration ctx).
    split; [destruct fuel; cbn [V2.recv_loop]; rewrite Hstop; reflexivity|].
    rewrite Hq, firstn_nil, app_nil_r. cbn [length Nat.sub repeat app]. auto.
  - inversion Hall as [|? ? Hf Hrest]; subst.
    cbn [tagged_audio flat_map] in Hp. cbn [app] in Hp.
    rewrite <- app_assoc in Hp.
    destruct (tagged_frame_pass ctx f _ Hp Hf) as (Hp1 & Hr1 & Hh1 & Hc1 & Hq1).
    destruct (IH fuel (V2.recv_iteration ctx) partial Hp1 Hrest Hshort
                ltac:(congruence))
      as (ctx' & Hloop & Hitems & Hstop & Hh & Hlog).
    { simpl in Hfuel. lia. }
    exists ctx'. split; [exact Hloop|].
    rewrite Hitems, Hh, Hh1, Hlog, Hc1.
    destruct (occupied ctx <? capacity ctx)%nat eqn:Hroom.
    + apply Nat.ltb_lt in Hroom. destruct Hq1 as [Hi1 Hl1].
      assert (Hocc : occupied (V2.recv_iteration ctx) = S (occupied ctx)).
      { unfold occupied, SwitchQueue.size. rewrite Hi1, length_app.
        simpl. lia. }
      rewrite Hocc, Hi1, Hl1, <- app_assoc.
      replace (capacity ctx - occupied ctx)%nat
        with (S (capacity ctx - S (occupied ctx))) by lia.
      cbn [firstn length Nat.sub app]. auto.
    + apply Nat.ltb_ge in Hroom. destruct Hq1 as [Hq1 Hl1].
      unfold occupied in *. rewrite Hq1, Hl1.
      replace (capacity ctx - SwitchQueue.size (V2.playback_queue ctx))%nat
        with 0%nat by lia.
      cbn [firstn length]. rewrite !Nat.sub_0_r, <- app_assoc.
      cbn [repeat app]. auto.
Qed.

Lemma recv_ending s n peek :
  Sock.ending (snd (Sock.recv s n peek)) = Sock.ending s.
Proof.
  unfold Sock.recv. destruct (Sock.pending s); [reflexivity|].
  destruct (Sock.available s) as [a later]. destruct peek; reflexivity.
Qed.

(** What a pass of the length-prefixed receiver leaves in the log: it
    only adds to it, and a pass that clears [running] has last logged the
    hangup request or the ending of the connection. *)
Lemma recv_iteration_log ctx :
  let ctx' := V3.recv_iteration ctx in
  exists l,
    V3.log ctx' = V3.log ctx ++ l /\
    ((V3.running ctx' = V3.running ctx /\
      Sock.ending (V3.wire ctx') = Sock.ending (V3.wire ctx)) \/
     (V3.running ctx' = false /\
      exists l0 last,
        l = l0 ++ [last] /\
        (last = V3.LogHangupRequested \/
         last = end_report (Sock.ending (V3.wire ctx))))).
Proof.
  cbv zeta. unfold V3.recv_iteration.
  pose proof (recv_peek_keeps (V3.wire ctx) 4) as [Hpk Hek].
  destruct (Sock.recv (V3.wire ctx) 4 true) as [header s]. cbn [snd] in *.
  destruct (V3.looks_like_control _ _).
  - unfold V3.control_path. cbn [V3.wire V3.set_wire].
    pose proof (recv_ending s 4 false) as He1.
    destruct (Sock.recv s 4 false) as [r1 s1]. cbn [snd] in He1.
    destruct (_ && _).
    + pose proof (recv_ending s1 (Z.to_nat (V3.be32 (Sock.bytes r1))) false)
        as He2.
      destruct (Sock.recv s1 _ false) as [r2 s2]. cbn [snd] in He2.
      destruct (_ =? _).
      * unfold V3.control_message. cbv zeta.
        destruct (strstr _ _); v3_fields.
        -- exists [V3.LogControlMessage (c_str (Sock.bytes r2));
                   V3.LogHangupRequested].
           split; [rewrite <- app_assoc; reflexivity|]. right.
           split; [reflexivity|].
           exists [V3.LogControlMessage (c_str (Sock.bytes r2))],
                  V3.LogHangupRequested.
           auto.
        -- exists [V3.LogControlMessage (c_str (Sock.bytes r2))].
           split; [reflexivity|]. left. split; [reflexivity | congruence].
      * v3_fields. exists []. rewrite app_nil_r.
        split; [reflexivity|]. left. split; [reflexivity | congruence].
    + v3_fields. exists []. rewrite app_nil_r.
      split; [reflexivity|]. left. split; [reflexivity | congruence].
  - pose proof (audio_frame_spec (V3.set_wire s ctx)) as (_ & _ & H).
    pose proof (audio_frame_ending (V3.set_wire s ctx)) as He.
    cbv zeta in H. cbn [V3.wire V3.set_wire] in H, He.
    destruct (320 <=? length (Sock.pending s))%nat eqn:Hlen.
    + apply Nat.leb_le in Hlen. destruct H as (_ & Hr & Hl & _).
      exists [V3.LogAudioReceived]. split; [exact Hl|]. left.
      split; [exact Hr|]. rewrite (He Hlen). exact Hek.
    + destruct H as (Hr & _ & _ & Hl). rewrite Hek in Hl.
      exists [end_report (Sock.ending (V3.wire ctx))].
      split; [exact Hl|]. right. split; [exact Hr|].
      exists [], (end_report (Sock.ending (V3.wire ctx))). auto.
Qed.

(** A running thread of the length-prefixed relay comes to its end on
    every connection, and the last it logs in its loop is the hangup
    request or the ending of the connection. *)
Lemma recv_loop_reports :
  forall fuel ctx,
    (length (Sock.pending (V3.wire ctx)) < fuel)%nat ->
    V3.running ctx = true -> 0 < V3.gateway_socket ctx ->
    exists ctx' l last,
      V3.recv_loop fuel ctx = Some ctx' /\ V3.running ctx' = false /\
      V3.log ctx' = V3.log ctx ++ l ++ [last] /\
      (last = V3.LogHangupRequested \/
       last = end_report (Sock.ending (V3.wire ctx))).
Proof.
  induction fuel as [|fuel IH]; intros ctx Hfuel Hrun Hsock; [lia|].
  cbn [V3.recv_loop]. rewrite Hrun.
  replace (0 <? V3.gateway_socket ctx) with true
    by (symmetry; apply Z.ltb_lt; exact Hsock).
  cbn [andb].
  destruct (recv_iteration_log ctx) as (l1 & Hl1 & Hcase).
  destruct (recv_iteration_output ctx) as [_ Hg].
  assert (Hstopped :
            V3.running (V3.recv_iteration ctx) = false ->
            (exists l0 last,
                l1 = l0 ++ [last] /\
                (last = V3.LogHangupRequested \/
                 last = end_report (Sock.ending (V3.wire ctx)))) ->
            exists ctx' l last,
              V3.recv_loop fuel (V3.recv_iteration ctx) = Some ctx' /\
              V3.running ctx' = false /\
              V3.log ctx' = V3.log ctx ++ l ++ [last] /\
              (last = V3.LogHangupRequested \/
               last = end_report (Sock.ending (V3.wire ctx)))).
  { intros Hstop (l0 & last & -> & Hlast).
    exists (V3.recv_iteration ctx), l0, last.
    split; [destruct fuel; cbn [V3.recv_loop]; rewrite Hstop; reflexivity|].
    auto. }
  destruct Hcase as [[Hr He] | [Hstop Hlast]]; [|apply Hstopped; assumption].
  destruct (recv_iteration_progress ctx) as [Hstop | Hless];
    [rewrite Hr, Hrun in Hstop; discriminate|].
  destruct (IH (V3.recv_iteration ctx)) as (ctx' & l & last & Hloop & Hend & Hlog & Hlast);
    [lia | congruence | rewrite Hg; exact Hsock |].
  exists ctx', (l1 ++ l), last. split; [exact Hloop|]. split; [exact Hend|].
  split; [rewrite Hlog, Hl1, <- !app_assoc; reflexivity|].
  rewrite <- He. exact Hlast.
Qed.

(** The same for a pass of the tagged receiver: a pass that clears
    [running] has last logged the closed connection, at the tag or inside
    an audio frame, or the hangup request. *)
Lemma recv_iteration_log_v2 ctx :
  let ctx' := V2.recv_iteration ctx in
  exists l,
    V2.log ctx' = V2.log ctx ++ l /\
    (V2.running ctx' = V2.running ctx \/
     (V2.running ctx' = false /\
      exists l0 last,
        l = l0 ++ [last] /\
        (last = V2.LogClosedAtTag \/ last = V2.LogClosedInAudio \/
         last = V2.LogHangupRequested))).
Proof.
  cbv zeta. unfold V2.recv_iteration.
  assert (Hclosed :
            forall s,
              exists l,
                V2.log (V2.set_running false
                          (V2.add_log V2.LogClosedAtTag (V2.set_sock s ctx)))
                = V2.log ctx ++ l /\
                (V2.running (V2.set_running false
                               (V2.add_log V2.LogClosedAtTag
                                  (V2.set_sock s ctx)))
                 = V2.running ctx \/
                 (V2.running (V2.set_running false
                                (V2.add_log V2.LogClosedAtTag
                                   (V2.set_sock s ctx))) = false /\
                  exists l0 last,
                    l = l0 ++ [last] /\
                    (last = V2.LogClosedAtTag \/ last = V2.LogClosedInAudio \/
                     last = V2.LogHangupRequested)))).
  { intros s. exists [V2.LogClosedAtTag]. split; [reflexivity|]. right.
    split; [reflexivity|]. exists [], V2.LogClosedAtTag. auto. }
  destruct (Sock.recv (V2.sock_fd ctx) 1 false) as [[[|tag bs]| |] s];
    try apply Hclosed.
  cbv zeta. destruct (Byte.eqb tag x01).
  - pose proof (audio_frame_spec_v2 (V2.set_sock s ctx)) as H. cbv zeta in H.
    cbn [V2.sock_fd V2.set_sock] in H.
    destruct (640 <=? length (Sock.pending s))%nat.
    + destruct H as (s' & _ & ->).
      pose proof (queue_for_playback_spec (V2.set_sock s' (V2.set_sock s ctx))
                    (firstn 640 (Sock.pending s))) as (_ & Hr & _ & _ & Hq).
      cbv zeta in Hq. rewrite Hr. v2_fields.
      destruct (_ <? _)%nat; destruct Hq as [_ ->]; v2_fields.
      * exists []. rewrite app_nil_r. auto.
      * exists [V2.LogQueueFull]. auto.
    + destruct H as (Hr & _ & _ & _ & Hl).
      exists [V2.LogClosedInAudio]. split; [exact Hl|]. right.
      split; [exact Hr|]. exists [], V2.LogClosedInAudio. auto.
  - destruct (Byte.eqb tag x02).
    + destruct (V2.read_control 255 [] _) as [ctrl_buf s'].
      unfold V2.control_message. destruct (strstr _ _); v2_fields.
      * exists [V2.LogHangupRequested]. split; [reflexivity|]. right.
        split; [reflexivity|]. exists [], V2.LogHangupRequested. auto.
      * exists []. rewrite app_nil_r. auto.
    + v2_fields. exists [V2.LogUnknownTag tag]. auto.
Qed.

Lemma recv_loop_reports_v2 :
  forall fuel ctx,
    (length (Sock.pending (V2.sock_fd ctx)) < fuel)%nat ->
    V2.running ctx = true ->
    exists ctx' l last,
      V2.recv_loop fuel ctx = Some ctx' /\ V2.running ctx' = false /\
      V2.log ctx' = V2.log ctx ++ l ++ [last] /\
      (last = V2.LogClosedAtTag \/ last = V2.LogClosedInAudio \/
       last = V2.LogHangupRequested).
Proof.
  induction fuel as [|fuel IH]; intros ctx Hfuel Hrun; [lia|].
  cbn [V2.recv_loop]. rewrite Hrun.
  destruct (recv_iteration_log_v2 ctx) as (l1 & Hl1 & Hcase).
  destruct Hcase as [Hr | [Hstop (l0 & last & -> & Hlast)]].
  - destruct (recv_iteration_progress_v2 ctx) as [Hstop | Hless];
      [rewrite Hr, Hrun in Hstop; discriminate|].
    destruct (IH (V2.recv_iteration ctx))
      as (ctx' & l & last & Hloop & Hend & Hlog & Hlast);
      [lia | congruence |].
    exists ctx', (l1 ++ l), last. split; [exact Hloop|]. split; [exact Hend|].
    split; [rewrite Hlog, Hl1, <- !app_assoc; reflexivity | exact Hlast].
  - exists (V2.recv_iteration ctx), l0, last.
    split; [destruct fuel; cbn [V2.recv_loop]; rewrite Hstop; reflexivity|].
    auto.
Qed.

(** C7: audio frames are read whole or not at all.  When the connection
    is closed or fails inside an audio frame (after any number of whole
    frames and with any part of the last one received, for every arrival
    schedule), the receive thread comes to its end having logged the
    closed or failed connection and cleared [running], and what it has
    pushed are the whole frames before the cut one, in order, and nothing
    of the cut one.  In the length-prefixed relay (320-byte frames that
    do not read as a control length) the output stream is what writing
    those frames one after the other leaves, all of them when the stream
    has room; in the tagged relay (640-byte frames) the playback queue
    has taken those frames up to its capacity and each of the others was
    dropped whole with a warning.  Beyond that, over a whole run of
    either thread on any connection, the output stream grows by whole
    320-byte frames only and the playback queue holds whole 640-byte
    frames only; and on every connection either thread comes to its end,
    a running thread with [running] cleared and having logged, last
    before its end message, the ending of the connection (closed or
    failed; in the tagged relay closed at the tag or inside an audio
    frame) or the hangup request that stopped it. *)
Theorem audio_frames_atomic :
  (forall frames f partial fuel ctx,
      Sock.pending (V3.wire ctx) = concat frames ++ partial ->
      Forall raw_audio_frame frames ->
      raw_audio_frame f -> cut_short f partial ->
      V3.running ctx = true -> 0 < V3.gateway_socket ctx ->
      (length frames < fuel)%nat ->
      exists ctx',
        V3.nova_recv_thread fuel ctx = Some ctx' /\
        V3.output_stream ctx' = write_frames (V3.output_stream ctx) frames /\
        ((length (SwitchBuffer.contents (V3.output_stream ctx))
          + length (concat frames)
          <= SwitchBuffer.max_len (V3.output_stream ctx))%nat ->
         SwitchBuffer.contents (V3.output_stream ctx')
         = SwitchBuffer.contents (V3.output_stream ctx) ++ concat frames) /\
        V3.running ctx' = false /\ V3.hungup ctx' = V3.hungup ctx /\
        V3.log ctx'
        = V3.log ctx ++ [V3.LogRecvStarted]
            ++ repeat V3.LogAudioReceived (length frames)
            ++ [end_report (Sock.ending (V3.wire ctx)); V3.LogRecvEnded]) /\
  (forall frames f partial fuel ctx,
      Sock.pending (V2.sock_fd ctx) = tagged_audio frames ++ x01 :: partial ->
      Forall (fun f => length f = 640%nat) frames ->
      length f = 640%nat -> cut_short f partial ->
      V2.running ctx = true ->
      (length frames < fuel)%nat ->
      exists ctx',
        V2.gateway_recv_thread fuel ctx = Some ctx' /\
        SwitchQueue.items (V2.playback_queue ctx')
        = SwitchQueue.items (V2.playback_queue ctx)
            ++ firstn (capacity ctx - occupied ctx) frames /\
        V2.running ctx' = false /\ V2.hungup ctx' = V2.hungup ctx /\
        V2.log ctx'
        = V2.log ctx ++ [V2.LogRecvStarted]
            ++ repeat V2.LogQueueFull
                 (length frames - (capacity ctx - occupied ctx))
            ++ [V2.LogClosedInAudio; V2.LogRecvExiting]) /\
  (forall fuel ctx ctx',
      V3.nova_recv_thread fuel ctx = Some ctx' ->
      whole_frames 320 (SwitchBuffer.contents (V3.output_stream ctx))
        (SwitchBuffer.contents (V3.output_stream ctx'))) /\
  (forall fuel ctx ctx',
      queue_whole ctx ->
      V2.gateway_recv_thread fuel ctx = Some ctx' -> queue_whole ctx') /\
  (forall ctx,
      exists ctx',
        V3.nova_recv_thread (S (length (Sock.pending (V3.wire ctx)))) ctx
        = Some ctx' /\
        V3.running ctx' && (0 <? V3.gateway_socket ctx') = false /\
        (V3.running ctx = true -> 0 < V3.gateway_socket ctx ->
         V3.running ctx' = false /\
         exists l last,
           V3.log ctx'
           = V3.log ctx ++ [V3.LogRecvStarted] ++ l
               ++ [last; V3.LogRecvEnded] /\
           (last = V3.LogHangupRequested \/
            last = end_report (Sock.ending (V3.wire ctx))))) /\
  (forall ctx,
      exists ctx',
        V2.gateway_recv_thread (S (length (Sock.pending (V2.sock_fd ctx)))) ctx
        = Some ctx' /\
        V2.running ctx' = false /\
        (V2.running ctx = true ->
         exists l last,
           V2.log ctx'
           = V2.log ctx ++ [V2.LogRecvStarted] ++ l
               ++ [last; V2.LogRecvExiting] /\
           (last = V2.LogClosedAtTag \/ last = V2.LogClosedInAudio \/
            last = V2.LogHangupRequested))).
Proof.
  repeat apply conj.
  - intros frames f partial fuel ctx Hp Hall Hf Hcut Hrun Hsock Hfuel.
    unfold V3.nova_recv_thread.
    destruct (cut_stream_loop frames fuel (V3.add_log V3.LogRecvStarted ctx)
                f partial)
      as (ctx' & -> & Hout & Hstop & Hh & Hlog); try assumption.
    eexists. split; [reflexivity|]. v3_fields.
    rewrite Hout, Hlog. v3_fields. rewrite <- !app_assoc.
    split; [reflexivity|]. split; [apply write_frames_room|].
    repeat split; auto.
  - intros frames f partial fuel ctx Hp Hall Hf Hcut Hrun Hfuel.
    unfold V2.gateway_recv_thread.
    pose proof (cut_short_length _ _ Hcut) as Hshort. rewrite Hf in Hshort.
    destruct (cut_tagged_loop frames fuel (V2.add_log V2.LogRecvStarted ctx)
                partial)
      as (ctx' & -> & Hitems & Hstop & Hh & Hlog); try assumption.
    eexists. split; [reflexivity|]. v2_fields.
    rewrite Hitems, Hlog. unfold capacity, occupied. v2_fields.
    rewrite <- !app_assoc. repeat split; auto.
  - intros fuel ctx ctx'. unfold V3.nova_recv_thread.
    destruct (V3.recv_loop fuel (V3.add_log V3.LogRecvStarted ctx))
      as [ctx1|] eqn:Hloop; [|discriminate].
    intros [= <-]. apply recv_loop_output in Hloop. exact Hloop.
  - intros fuel ctx ctx' Hq. unfold V2.gateway_recv_thread.
    destruct (V2.recv_loop fuel (V2.add_log V2.LogRecvStarted ctx))
      as [ctx1|] eqn:Hloop; [|discriminate].
    intros [= <-]. apply recv_loop_whole in Hloop; [exact Hloop | exact Hq].
  - intros ctx. unfold V3.nova_recv_thread.
    destruct (recv_loop_terminates
                (S (length (Sock.pending (V3.wire ctx))))
                (V3.add_log V3.LogRecvStarted ctx)) as (ctx1 & Hloop & Hend).
    { v3_fields. lia. }
    rewrite Hloop. eexists. split; [reflexivity|]. split; [exact Hend|].
    intros Hrun Hsock.
    destruct (recv_loop_reports
                (S (length (Sock.pending (V3.wire ctx))))
                (V3.add_log V3.LogRecvStarted ctx))
      as (ctx2 & l & last & Hloop2 & Hstop & Hlog & Hlast);
      [v3_fields; lia | exact Hrun | exact Hsock |].
    rewrite Hloop in Hloop2. injection Hloop2 as <-.
    v3_fields. split; [exact Hstop|]. exists l, last.
    split; [|exact Hlast]. rewrite Hlog. v3_fields.
    rewrite <- !app_assoc. reflexivity.
  - intros ctx. unfold V2.gateway_recv_thread.
    destruct (recv_loop_terminates_v2
                (S (length (Sock.pending (V2.sock_fd ctx))))
                (V2.add_log V2.LogRecvStarted ctx)) as (ctx1 & Hloop & Hend).
    { v2_fields. lia. }
    rewrite Hloop. eexists. split; [reflexivity|]. split; [exact Hend|].
    intros Hrun.
    destruct (recv_loop_reports_v2
                (S (length (Sock.pending (V2.sock_fd ctx))))
                (V2.add_log V2.LogRecvStarted ctx))
      as (ctx2 & l & last & Hloop2 & Hstop & Hlog & Hlast);
      [v2_fields; lia | exact Hrun |].
    rewrite Hloop in Hloop2. injection Hloop2 as <-.
    v2_fields. exists l, last.
    split; [|exact Hlast]. rewrite Hlog. v2_fields.
    rewrite <- !app_assoc. reflexivity.
Qed.

(** The boundary case of a connection closed after 100 of the 320 bytes
    of a frame, one whole frame before it. *)
Lemma audio_frames_atomic_witness :
  let ctx :=
    v3_session (Sock.carrying (repeat x00 320 ++ repeat xff 100) 40
                  [60; 250; 1]%nat Sock.PeerClosed) in
  exists ctx',
    V3.nova_recv_thread 2 ctx = Some ctx' /\
    SwitchBuffer.contents (V3.output_stream ctx') = repeat x00 320 /\
    V3.running ctx' = false /\
    V3.log ctx' = [V3.LogRecvStarted; V3.LogAudioReceived;
                   V3.LogGatewayClosed; V3.LogRecvEnded].
Proof.
  cbv zeta. destruct audio_frames_atomic as (Hv3 & _).
  destruct (Hv3 [repeat x00 320] (repeat xff 320) (repeat xff 100) 2%nat
              (v3_session (Sock.carrying (repeat x00 320 ++ repeat xff 100) 40
                             [60; 250; 1]%nat Sock.PeerClosed)))
    as (ctx' & Hth & _ & Hout & Hstop & _ & Hlog).
  - vm_compute. reflexivity.
  - constructor; [|constructor].
    split; [apply repeat_length | left; vm_compute; reflexivity].
  - split; [apply repeat_length | right; right; vm_compute; discriminate].
  - exists (repeat xff 220). split; [discriminate|]. vm_compute. reflexivity.
  - reflexivity.
  - reflexivity.
  - cbn [length]. lia.
  - exists ctx'. split; [exact Hth|]. split; [|split; [exact Hstop | exact Hlog]].
    apply Hout. unfold v3_session.
    cbn [V3.output_stream SwitchBuffer.contents SwitchBuffer.max_len length].
    replace (length (concat [repeat x00 320])) with 320%nat
      by (vm_compute; reflexivity).
    lia.
Defined.

End CutStreams.
